(** * Batch translation pipeline of [Translator/base.py]

    A shallow embedding of the concurrent batch-translation core
    (rate limiter, response parser, translation client, worker,
    partitioner, checkpoint writer, coordinator) together with the
    properties stated about it. *)

From Stdlib Require Import ZArith Ascii String List Lia.
From stdpp Require Import base option list gmap strings.

Local Open Scope list_scope.

(** ** Python strings

    A Python [str] is a sequence of code points.  Characters are taken
    from [ascii], read as the code points below 256; on that range the
    character classes below are exactly the ones of [str.strip],
    [str.isspace], and of [\s] and [\d] in [re]. *)

Abbreviation str := (list ascii).

Definition lit (x : string) : str := list_ascii_of_string x.

Definition code (c : ascii) : nat := nat_of_ascii c.

(** [str.isspace] on one character: TAB, LF, VT, FF, CR, FS, GS, RS, US,
    SPACE, NEL (0x85) and NBSP (0xA0). *)
Definition is_space (c : ascii) : bool :=
  let n := code c in
  ((9 <=? n) && (n <=? 13)) || ((28 <=? n) && (n <=? 32))
  || (n =? 133) || (n =? 160).

(** [\d]: the decimal digits. *)
Definition is_digit (c : ascii) : bool :=
  let n := code c in (48 <=? n) && (n <=? 57).

Definition newline : ascii := ascii_of_nat 10.
Definition carriage_return : ascii := ascii_of_nat 13.

Fixpoint drop_while (p : ascii -> bool) (s : str) : str :=
  match s with
  | [] => []
  | c :: s' => if p c then drop_while p s' else s
  end.

Fixpoint take_while (p : ascii -> bool) (s : str) : str :=
  match s with
  | [] => []
  | c :: s' => if p c then c :: take_while p s' else []
  end.

Definition py_lstrip (s : str) : str := drop_while is_space s.
Definition py_rstrip (s : str) : str := rev (drop_while is_space (rev s)).
(** [s.strip()] *)
Definition py_strip (s : str) : str := py_rstrip (py_lstrip s).

(** [s.startswith(p)] *)
Fixpoint startswith (p s : str) : bool :=
  match p, s with
  | [], _ => true
  | _ :: _, [] => false
  | a :: p', b :: s' => if decide (a = b) then startswith p' s' else false
  end.

(** [s.partition(sep)] when [sep] occurs in [s]: the text before the first
    occurrence and the text after it.  [None] when [sep] does not occur. *)
Fixpoint cut (sep s : str) : option (str * str) :=
  if startswith sep s then Some ([], drop (length sep) s)
  else match s with
       | [] => None
       | c :: s' =>
           match cut sep s' with
           | Some (a, b) => Some (c :: a, b)
           | None => None
           end
       end.

(** [sep in s] *)
Definition py_in (sep s : str) : bool :=
  match cut sep s with Some _ => true | None => false end.

(** [s.split(sep)] for a non-empty [sep].  Every cut removes at least one
    character, so [length s] rounds are enough. *)
Fixpoint split_rounds (n : nat) (sep s : str) : list str :=
  match n with
  | 0 => [s]
  | S n' =>
      match cut sep s with
      | None => [s]
      | Some (a, b) => a :: split_rounds n' sep b
      end
  end.

Definition py_split (sep s : str) : list str := split_rounds (length s) sep s.

(** [s.split(sep, 1)] *)
Definition py_split1 (sep s : str) : list str :=
  match cut sep s with
  | None => [s]
  | Some (a, b) => [a; b]
  end.

(** [sep.join(xs)] *)
Fixpoint py_join (sep : str) (xs : list str) : str :=
  match xs with
  | [] => []
  | [x] => x
  | x :: rest => x ++ sep ++ py_join sep rest
  end.

Definition delim : str := lit ":::".
Definition nl : str := [newline].

(** ** Response parser (lines 165-176 of [call_api_translate])

    A computation that may raise is an [option]: [None] stands for a raised
    exception (here only [IndexError] from a subscript). *)

(** [xs[i]] *)
Definition py_item (xs : list str) (i : nat) : option str := xs !! i.

(** The separator class [[|:>.)\]]] of the fallback pattern. *)
Definition is_sep (c : ascii) : bool :=
  existsb (Ascii.eqb c) (lit "|:>.)]").

Definition not_newline (c : ascii) : bool := negb (Ascii.eqb c newline).

(** [re.match] of the fallback pattern on [line]: one or more digits
    (group 1), optional white space, one separator of the class above,
    optional white space, then the rest of the line (group 2).  The result
    is the pair of groups 1 and 2 on a match.  Every quantifier is greedy and
    the three classes (digits, white space, separators) are pairwise
    disjoint, so the first greedy attempt is the only candidate. *)
Definition fallback_match (line : str) : option (str * str) :=
  match take_while is_digit line with
  | [] => None
  | ds =>
      match drop_while is_space (drop_while is_digit line) with
      | c :: rest =>
          if is_sep c
          then Some (ds, take_while not_newline (drop_while is_space rest))
          else None
      | [] => None
      end
  end.

(** One round of the loop over [translated_lines]. *)
Definition parse_line (translated_map : gmap str str) (line : str)
  : option (gmap str str) :=
  if py_in delim line then
    let parts := py_split1 delim line in
    t_id ← py_strip <$> py_item parts 0;
    t_text ← py_strip <$> py_item parts 1;
    Some (<[t_id := t_text]> translated_map)
  else
    match fallback_match line with
    | Some (g1, g2) => Some (<[g1 := py_strip g2]> translated_map)
    | None => Some translated_map
    end.

Fixpoint parse_lines (translated_map : gmap str str) (lines : list str)
  : option (gmap str str) :=
  match lines with
  | [] => Some translated_map
  | line :: rest =>
      m ← parse_line translated_map line;
      parse_lines m rest
  end.

(** From [full_content] to [translated_map]. *)
Definition parse_response (full_content : str) : option (gmap str str) :=
  parse_lines ∅ (py_split nl (py_strip full_content)).

(** ** Reconciliation (lines 178-183 of [call_api_translate]) *)

Definition reconcile_line (translated_map : gmap str str) (line : str)
  : option str :=
  o_id ← py_strip <$> py_item (py_split delim line) 0;
  fallback ← (if py_in delim line
              then py_strip <$> py_item (py_split delim line) 1
              else Some line);
  let final_text := default fallback (translated_map !! o_id) in
  Some (o_id ++ delim ++ final_text).

Fixpoint reconcile (translated_map : gmap str str) (batch_lines : list str)
  : option (list str) :=
  match batch_lines with
  | [] => Some []
  | line :: rest =>
      r ← reconcile_line translated_map line;
      rs ← reconcile translated_map rest;
      Some (r :: rs)
  end.

(** ** Programs

    A function that talks to the shared state or to the outside is a finite
    tree of its interactions: each node is one call, its sons are the
    continuations for the possible answers.  The trees are interpreted by
    the thread machine further down. *)

(** One item of [response.iter_lines()].  [FrameRaise]: the iterator
    raises (connection lost).  [FrameLine text delta]: it yields a line;
    [text] is [line.decode('utf-8')], [None] when decoding raises, [Some []]
    for an empty keep-alive line; [delta] is the value of
    [json.loads(data_str)['choices'][0].get('delta', {}).get('content', '')]
    on that line, [None] when this raises or gives nothing. *)
Inductive frame : Type :=
| FrameRaise
| FrameLine (text : option str) (delta : option str).

(** What [requests.post] gives.  [PostRaises]: it raises (time-out, no
    route).  Otherwise the status code, the value of
    [response.json()['choices'][0]['message']['content']] ([None] when this
    raises) and the lines of the streamed body. *)
Inductive Response : Type :=
| PostRaises
| HttpResponse (status_code : Z) (content : option str) (lines : list frame).

(** Messages of the progress callback [ui_callback]. *)
Inductive UiMsg : Type :=
| MsgReady (start_idx end_idx : nat)
| MsgStopped
| MsgBatch
| MsgFinished.

Inductive prog (A : Type) : Type :=
| Ret (a : A)
| Raise
| IsSet (k : bool -> prog A)
| WaitForSlot (delay_sec : Z) (k : prog A)
| Post (prompt : str) (k : Response -> prog A)
| SetSlot (idx : nat) (v : str) (k : prog A)
| SaveProgress (k : prog A)
| Ui (current total : nat) (msg : UiMsg) (k : prog A).

Arguments Ret {A} a.
Arguments Raise {A}.
Arguments IsSet {A} k.
Arguments WaitForSlot {A} delay_sec k.
Arguments Post {A} prompt k.
Arguments SetSlot {A} idx v k.
Arguments SaveProgress {A} k.
Arguments Ui {A} current total msg k.

Fixpoint bind {A B : Type} (p : prog A) (f : A -> prog B) : prog B :=
  match p with
  | Ret a => f a
  | Raise => Raise
  | IsSet k => IsSet (fun b => bind (k b) f)
  | WaitForSlot d k => WaitForSlot d (bind k f)
  | Post q k => Post q (fun r => bind (k r) f)
  | SetSlot i v k => SetSlot i v (bind k f)
  | SaveProgress k => SaveProgress (bind k f)
  | Ui c t m k => Ui c t m (bind k f)
  end.

Notation "'let*' x ':=' p 'in' q" := (bind p (fun x => q))
  (at level 10, x name, p at level 100, q at level 200).

(** ** Translation client: [call_api_translate] *)

(** A value of [config_data] that comes from [CONFIG_FILE] as [json.load]
    read it: [null], a truth value, an integer, a float (all the code does
    with it is to compare it with 0, so it is given by the outcome of that
    comparison), a string, or an array or object. *)
Inductive Value : Type :=
| VNone
| VBool (b : bool)
| VInt (z : Z)
| VFloat (positive : bool)
| VStr (s : str)
| VOther.

(** [v > 0].  [None] is the [TypeError] of comparing [None], a string, a
    list or a dict with an integer; [True] and [False] compare as 1 and
    0. *)
Definition py_gt_zero (v : Value) : option bool :=
  match v with
  | VNone | VStr _ | VOther => None
  | VBool b => Some b
  | VInt z => Some (bool_decide (0 < z)%Z)
  | VFloat positive => Some positive
  end.

(** The entries of [config_data] that the translation core reads.
    [threads], [batch_size] and [delay] are set by [start_process] from the
    typed fields of the main window before every job, so they are numbers;
    [stream] stands for the truth of [settings['stream']]; [top_k] is
    whatever [load_config] found in the file, unless the settings window
    has replaced it by an integer.  [base_url] is a string set by
    [start_process], and [api_key], [model], [system_prompt],
    [temperature], [max_tokens] and [top_p] are only copied into the
    request: none of them decides what the code below does. *)
Record Settings : Type := {
  threads : Z;
  batch_size : Z;
  delay : Z;
  stream : bool;
  top_k : Value
}.

Definition reminder : str :=
  nl ++ nl ++ lit "REMINDER: Format 'ID:::TranslatedText'.".

(** The loop over [response.iter_lines()], lines 142-157.  The result is
    [full_content], or [None] when an exception leaves the loop. *)
Fixpoint stream_loop (lines : list frame) (full_content : str)
  : prog (option str) :=
  match lines with
  | [] => Ret (Some full_content)
  | FrameRaise :: _ => Ret None
  | FrameLine text delta :: rest =>
      IsSet (fun stopped =>
        if stopped then Ret (Some full_content)
        else
          match text with
          | None => Ret None
          | Some [] => stream_loop rest full_content
          | Some line =>
              let decoded := py_strip line in
              if startswith (lit "data: ") decoded then
                let data_str := drop 6 decoded in
                if decide (data_str = lit "[DONE]")
                then Ret (Some full_content)
                else
                  match delta with
                  | Some content => stream_loop rest (full_content ++ content)
                  | None => stream_loop rest full_content
                  end
              else stream_loop rest full_content
          end)
  end.

(** The body of [try:], lines 132-183; [None] when it raises. *)
Definition try_block (batch_lines : list str) (settings : Settings)
    (prompt : str) : prog (option (list str)) :=
  Post prompt (fun response =>
    match response with
    | PostRaises => Ret None
    | HttpResponse status_code content lines =>
        if decide (status_code <> 200%Z) then Ret (Some batch_lines)
        else
          let* c := (if stream settings then stream_loop lines []
                     else Ret content) in
          Ret (full_content ← c;
               translated_map ← parse_response full_content;
               reconcile translated_map batch_lines)
    end).

(** Lines 103-187.  The prompt, the call of [wait_for_slot] and the
    payload (lines 105-129) come before [try:]: the comparison
    [settings.get('top_k', -1) > 0] of line 128 raises out of the function
    when [top_k] is not a number ([config_data] always has the key, so the
    default of [get] is never used).  What the body of [try] raises is
    caught on line 185.  [log_callback] is the widget update of the worker;
    it touches nothing the core reads and is taken to return. *)
Definition call_api_translate (batch_lines : list str) (settings : Settings)
  : prog (list str) :=
  IsSet (fun stopped =>
    if stopped then Ret batch_lines
    else
      let prompt := py_join nl batch_lines ++ reminder in
      WaitForSlot (delay settings)
        match py_gt_zero (top_k settings) with
        | None => Raise
        | Some _ =>
            let* r := try_block batch_lines settings prompt in
            match r with
            | Some results => Ret results
            | None => Ret batch_lines
            end
        end).

(** ** Worker: [worker_process] *)

Definition ceil_div (a b : nat) : nat := (a + b - 1) / b.

(** [range(0, stop, step)]: [None] is the [ValueError] of a zero step. *)
Definition py_range0 (stop : nat) (step : Z) : option (list nat) :=
  if decide (step = 0%Z) then None
  else if decide (step < 0)%Z then Some []
  else Some ((fun k => k * Z.to_nat step) <$> seq 0 (ceil_div stop (Z.to_nat step))).

(** [xs[i:i+n]] *)
Definition py_slice {A : Type} (i n : nat) (xs : list A) : list A :=
  take n (drop i xs).

(** [for idx, result_line in zip(...): shared_output_lines[idx] = result_line] *)
Fixpoint write_slots {A : Type} (pairs : list (nat * str)) (k : prog A)
  : prog A :=
  match pairs with
  | [] => k
  | (idx, result_line) :: rest => SetSlot idx result_line (write_slots rest k)
  end.

Section Worker.
Variable settings : Settings.
Variable local_lines : list str.
Variable local_indices : list nat.

Definition total_items : nat := length local_lines.

(** The [for i in range(0, total_items, batch_size)] loop, lines 206-225,
    over the values of [i] still to come; [k] is what follows the loop. *)
Fixpoint worker_loop (starts : list nat) (processed : nat) (k : prog unit)
  : prog unit :=
  match starts with
  | [] => k
  | i :: rest =>
      IsSet (fun stopped =>
        if stopped then Ui processed total_items MsgStopped k
        else
          let n := Z.to_nat (batch_size settings) in
          let batch_lines := py_slice i n local_lines in
          let batch_indices := py_slice i n local_indices in
          let* translated_batch := call_api_translate batch_lines settings in
          write_slots (zip batch_indices translated_batch)
            (SaveProgress
               (let processed' := processed + length batch_lines in
                Ui processed' total_items MsgBatch
                  (worker_loop rest processed' k))))
  end.
End Worker.

Definition worker_process (chunk_data : list (str * nat))
    (settings : Settings) : prog unit :=
  let local_lines := chunk_data.*1 in
  let local_indices := chunk_data.*2 in
  let total := length local_lines in
  let start_idx := hd 0 local_indices in
  let end_idx := List.last local_indices 0 in
  Ui 0 total (MsgReady start_idx end_idx)
    match py_range0 total (batch_size settings) with
    | None => Raise
    | Some starts =>
        worker_loop settings local_lines local_indices starts 0
          (Ui total total MsgFinished (Ret tt))
    end.

(** ** Checkpoint writer: [save_progress_file]

    The two files of a job and the lock that guards the checkpoint. *)

Record Files : Type := {
  file_write_lock : bool;          (* held? *)
  temp_file : option str;          (* TEMP_OUTPUT_FILE, [None]: absent *)
  output_file : option str         (* OUTPUT_FILE *)
}.

Inductive file_op : Type :=
| OpAcquire              (* entering [with file_write_lock] *)
| OpOpenW                (* [open(TEMP_OUTPUT_FILE, 'w')] *)
| OpWrite (data : str)   (* [f.write(data)] *)
| OpRelease.             (* leaving [with file_write_lock] *)

(** One step on the files.  [None] when the step cannot be taken: the lock
    is held by another thread, or the checkpoint is touched outside the
    critical section, which is what [file_write_lock] is there to exclude.
    The file system itself is taken to work: [open] and [f.write] succeed
    (every string of this development can be encoded as UTF-8; a full disk
    or a missing permission is not modelled). *)
Definition file_step (op : file_op) (fs : Files) : option Files :=
  match op with
  | OpAcquire =>
      if file_write_lock fs then None
      else Some {| file_write_lock := true; temp_file := temp_file fs;
                   output_file := output_file fs |}
  | OpOpenW =>
      if file_write_lock fs
      then Some {| file_write_lock := true; temp_file := Some [];
                   output_file := output_file fs |}
      else None
  | OpWrite data =>
      if file_write_lock fs
      then written ← temp_file fs;
           Some {| file_write_lock := true; temp_file := Some (written ++ data);
                   output_file := output_file fs |}
      else None
  | OpRelease =>
      if file_write_lock fs
      then Some {| file_write_lock := false; temp_file := temp_file fs;
                   output_file := output_file fs |}
      else None
  end.

Fixpoint file_steps (ops : list file_op) (fs : Files) : option Files :=
  match ops with
  | [] => Some fs
  | op :: rest => fs' ← file_step op fs; file_steps rest fs'
  end.

Definition save_progress_ops (shared_output_lines : list str) : list file_op :=
  OpAcquire :: OpOpenW
    :: ((fun line => OpWrite (line ++ nl)) <$> shared_output_lines)
    ++ [OpRelease].

Definition save_progress_file (shared_output_lines : list str) (fs : Files)
  : option Files :=
  file_steps (save_progress_ops shared_output_lines) fs.

(** What a file opened for reading in text mode hands over (universal
    newlines): a carriage return followed by a line feed, and a carriage
    return on its own, both come out as one line feed.  [after_cr] says
    that the character before was a carriage return. *)
Fixpoint universal_from (after_cr : bool) (content : str) : str :=
  match content with
  | [] => []
  | c :: rest =>
      if decide (c = carriage_return) then newline :: universal_from true rest
      else if decide (c = newline)
           then (if after_cr then universal_from false rest
                 else newline :: universal_from false rest)
           else c :: universal_from false rest
  end.

Definition universal_newlines (content : str) : str :=
  universal_from false content.

(** The pieces of a text between line feeds; the last one counts only when
    it is not empty. *)
Fixpoint file_lines_from (cur : str) (content : str) : list str :=
  match content with
  | [] => match cur with [] => [] | _ => [rev cur] end
  | c :: rest =>
      if decide (c = newline) then rev cur :: file_lines_from [] rest
      else file_lines_from (c :: cur) rest
  end.

(** The lines of a text file, as reading it back in text mode gives
    them, without their terminators. *)
Definition file_lines (content : str) : list str :=
  file_lines_from [] (universal_newlines content).

(** ** The threads of a job

    The state shared by the threads: the globals [stop_event] and
    [shared_output_lines] and the files.  [checkpoints] records what the
    calls of [save_progress_file] of this job wrote, newest first. *)

Record Shared : Type := {
  stop_event : bool;
  shared_output_lines : list str;
  files : Files;
  checkpoints : list str
}.

(** A worker thread: the rest of its program and what its progress widget
    has received, newest first. *)
Record Thread : Type := {
  todo : prog unit;
  widget : list (nat * nat * UiMsg)
}.

(** One interaction of a thread.  [input] answers a pending [Post].
    An out-of-range subscript raises [IndexError].  A call of
    [save_progress_file] is one step: it writes the buffer as it is when
    the step is taken, and what a flush writes while another worker
    assigns a slot under its feet is not modelled. *)
Definition thread_step (input : Response) (sh : Shared) (th : Thread)
  : option (Shared * Thread) :=
  match todo th with
  | Ret _ | Raise => None
  | IsSet k =>
      Some (sh, {| todo := k (stop_event sh); widget := widget th |})
  | WaitForSlot _ k => Some (sh, {| todo := k; widget := widget th |})
  | Post _ k => Some (sh, {| todo := k input; widget := widget th |})
  | SetSlot idx v k =>
      if decide (idx < length (shared_output_lines sh))
      then Some ({| stop_event := stop_event sh;
                    shared_output_lines := <[idx := v]> (shared_output_lines sh);
                    files := files sh;
                    checkpoints := checkpoints sh |},
                 {| todo := k; widget := widget th |})
      else Some (sh, {| todo := Raise; widget := widget th |})
  | SaveProgress k =>
      fs ← save_progress_file (shared_output_lines sh) (files sh);
      Some ({| stop_event := stop_event sh;
               shared_output_lines := shared_output_lines sh;
               files := fs;
               checkpoints := default [] (temp_file fs) :: checkpoints sh |},
            {| todo := k; widget := widget th |})
  | Ui current total msg k =>
      Some (sh, {| todo := k; widget := (current, total, msg) :: widget th |})
  end.

Record Job : Type := {
  shared : Shared;
  pool : list Thread
}.

(** What can happen while a job runs: the user presses STOP
    ([stop_process]), or thread number [w] takes its next step. *)
Inductive Event : Type :=
| EvStop
| EvRun (w : nat) (input : Response).

Definition step (e : Event) (j : Job) : option Job :=
  match e with
  | EvStop =>
      Some {| shared := {| stop_event := true;
                           shared_output_lines := shared_output_lines (shared j);
                           files := files (shared j);
                           checkpoints := checkpoints (shared j) |};
              pool := pool j |}
  | EvRun w input =>
      th ← pool j !! w;
      '(sh, th') ← thread_step input (shared j) th;
      Some {| shared := sh; pool := <[w := th']> (pool j) |}
  end.

Fixpoint exec (events : list Event) (j : Job) : option Job :=
  match events with
  | [] => Some j
  | e :: rest => j' ← step e j; exec rest j'
  end.

(** ** Coordinator: [MainApp.run_logic] *)

(** The lines of a text, each with its line feed. *)
Fixpoint readlines_from (cur : str) (content : str) : list str :=
  match content with
  | [] => match cur with [] => [] | _ => [rev cur] end
  | c :: rest =>
      if decide (c = newline) then rev (c :: cur) :: readlines_from [] rest
      else readlines_from (c :: cur) rest
  end.

(** [f.readlines()] on a file opened with [open(path, 'r')]: the lines of
    the text after the translation of the line ends, each with its
    terminator.  [content] is the text of the file as decoded; a file that
    cannot be opened or is not UTF-8 makes [open] or [readlines] raise, and
    [run_logic] then ends in its [except] branch. *)
Definition readlines (content : str) : list str :=
  readlines_from [] (universal_newlines content).

(** [raw = [l.strip() for l in f.readlines()]] *)
Definition read_raw (content : str) : list str := py_strip <$> readlines content.

(** Lines 630-635: the first value of one slot. *)
Definition init_slot (line : str) : option str :=
  if py_in delim line then
    o_id ← py_strip <$> py_item (py_split delim line) 0;
    Some (o_id ++ delim)
  else Some line.

Definition has_header (raw : list str) : bool :=
  match raw with
  | [] => false
  | first :: _ => startswith (lit "0:::") first
  end.

Definition start_off (raw : list str) : nat := if has_header raw then 1 else 0.

(** Lines 639-641 *)
Definition data_points (raw : list str) : list (str * nat) :=
  imap (fun i line => (line, start_off raw + i)) (drop (start_off raw) raw).

(** [math.ceil(total / n_threads)] of line 645.  The division is a float
    division: the quotient of the two integers rounded to the nearest
    float, ties to even.  The smallest positive float is [2^-1074], so a
    quotient of at most [2^-1075] is rounded to [0.0]; any other quotient
    below 1 is rounded to a float in (0, 1].  From 1 on, the rounded
    quotient has the ceiling of the exact one as long as [total] is below
    [2^53], which the length of a list in memory always is. *)
Definition ceil_quotient (total : nat) (n_threads : Z) : nat :=
  if decide (Z.of_nat total * 2 ^ 1075 <= n_threads)%Z then 0
  else ceil_div total (Z.to_nat n_threads).

(** Lines 643-650. *)
Definition make_chunks {A : Type} (n : Z) (data : list A)
  : option (list (list A)) :=
  let total := length data in
  let n_threads := Z.max 1 n in
  let chunk_size := ceil_quotient total n_threads in
  match py_range0 total (Z.of_nat chunk_size) with
  | None => None
  | Some starts =>
      let chunks := (fun i => py_slice i chunk_size data) <$> starts in
      Some (filter (fun c : list A => length c <> 0) chunks)
  end.

(** The job as [run_logic] starts it, up to [t.start()] of every worker,
    for an input file with the text [content].  [None]: an exception ends
    [run_logic] before any thread exists. *)
Definition run_logic (content : str) (config_data : Settings) (fs : Files)
  : option Job :=
  let raw := read_raw content in
  slots ← mapM init_slot raw;
  chunks ← make_chunks (threads config_data) (data_points raw);
  Some {| shared := {| stop_event := false;
                       shared_output_lines := slots;
                       files := fs;
                       checkpoints := [] |};
          pool := (fun chunk => {| todo := worker_process chunk config_data;
                                   widget := [] |}) <$> chunks |}.

(** [t.join()] has returned for every thread. *)
Definition finished (th : Thread) : bool :=
  match todo th with
  | Ret _ | Raise => true
  | _ => false
  end.

Definition joined (j : Job) : bool := forallb finished (pool j).

(** Lines 669-674, once every [join] has returned: [OUTPUT_FILE] is removed
    and the checkpoint copied over it, unless [stop_event] is set. *)
Definition promote (j : Job) : option Files :=
  if joined j then
    if stop_event (shared j) then Some (files (shared j))
    else Some {| file_write_lock := file_write_lock (files (shared j));
                 temp_file := temp_file (files (shared j));
                 output_file := temp_file (files (shared j)) |}
  else None.

(** The shape the fallback pattern accepts: digits, white space, one
    separator among the six of the class, anything. *)
Definition fallback_shape (line : str) : Prop :=
  exists (ds ws : str) (c : ascii) (rest : str),
    line = ds ++ ws ++ c :: rest
    /\ ds <> []
    /\ Forall (fun d => is_digit d = true) ds
    /\ Forall (fun w => is_space w = true) ws
    /\ c ∈ lit "|:>.)]".

(** The shape as the specification words it: an integer directly followed
    by one separator among five. *)
Definition spec_fallback_shape (line : str) : Prop :=
  exists (ds : str) (c : ascii) (rest : str),
    line = ds ++ c :: rest
    /\ ds <> []
    /\ Forall (fun d => is_digit d = true) ds
    /\ c ∈ lit "|:>.]".

(** The line adds an entry to whatever mapping the parser has built. *)
Definition adds_entry (line : str) : Prop :=
  exists k v : str, forall m : gmap str str,
    parse_line m line = Some (<[k := v]> m).

(** The line leaves the mapping as it is, and nothing is raised. *)
Definition discarded (line : str) : Prop :=
  forall m : gmap str str, parse_line m line = Some m.

(** ** Running one program against a given outside

    The outside as one call sees it: the value of [stop_event] at each of
    its polls, counted from 0, and the answer to its request. *)
Record Outside : Type := {
  flag_at : nat -> bool;
  response : Response
}.

(** The value a program returns and the number of polls it has made, for
    the answers of [env]; [None] when it raises.  Writes to the shared
    state are not looked at here. *)
Fixpoint run {A : Type} (env : Outside) (polls : nat) (p : prog A)
  : option (A * nat) :=
  match p with
  | Ret a => Some (a, polls)
  | Raise => None
  | IsSet k => run env (S polls) (k (flag_at env polls))
  | WaitForSlot _ k => run env polls k
  | Post _ k => run env polls (k (response env))
  | SetSlot _ _ k => run env polls k
  | SaveProgress k => run env polls k
  | Ui _ _ _ k => run env polls k
  end.



(** The text of a checkpoint: every slot followed by a line feed. *)
Definition checkpoint_text (slots : list str) : str :=
  concat ((fun line => line ++ nl) <$> slots).

(** ** What a program can do

    Predicates over all the runs of a program, by recursion on its tree. *)

(** A string without line feed. *)
Definition clean (s : str) : Prop := Forall (fun c => c <> newline) s.

(** Every write [shared_output_lines[idx] = v] of [p] satisfies [P idx v]. *)
Fixpoint writes_in {A : Type} (P : nat -> str -> Prop) (p : prog A) : Prop :=
  match p with
  | Ret _ | Raise => True
  | IsSet k => forall b, writes_in P (k b)
  | WaitForSlot _ k => writes_in P k
  | Post _ k => forall r, writes_in P (k r)
  | SetSlot idx v k => P idx v /\ writes_in P k
  | SaveProgress k => writes_in P k
  | Ui _ _ _ k => writes_in P k
  end.

(** [p] only polls, waits and posts, and every value it returns
    satisfies [Q]. *)
Fixpoint answers {A : Type} (Q : A -> Prop) (p : prog A) : Prop :=
  match p with
  | Ret a => Q a
  | Raise => True
  | IsSet k => forall b, answers Q (k b)
  | WaitForSlot _ k => answers Q k
  | Post _ k => forall r, answers Q (k r)
  | SetSlot _ _ _ | SaveProgress _ | Ui _ _ _ _ => False
  end.

(** [wrote] holds the indices written so far.  Whenever [p] reports
    [MsgStopped] with [current] items processed, everything written so far
    lies among the first [current] indices of [ix], and nothing is written
    afterwards. *)
Fixpoint stop_ok {A : Type} (ix wrote : list nat) (p : prog A) : Prop :=
  match p with
  | Ret _ | Raise => True
  | IsSet k => forall b, stop_ok ix wrote (k b)
  | WaitForSlot _ k => stop_ok ix wrote k
  | Post _ k => forall r, stop_ok ix wrote (k r)
  | SetSlot idx _ k => stop_ok ix (idx :: wrote) k
  | SaveProgress k => stop_ok ix wrote k
  | Ui current _ msg k =>
      (msg = MsgStopped ->
       wrote ⊆ take current ix /\ writes_in (fun _ _ => False) k)
      /\ stop_ok ix wrote k
  end.

(** Every text of the mapping is free of line feeds. *)
Definition map_clean (m : gmap str str) : Prop :=
  forall k v, m !! k = Some v -> clean v.

(** The results have the length of the batch, and no line feed when the
    batch has none. *)
Definition results_ok (batch results : list str) : Prop :=
  length results = length batch
  /\ (Forall clean batch -> Forall clean results).

(** ** Invariant of a running job

    [init] is the output buffer as [run_logic] fills it, [owned] gives, for
    each worker, the indices of its chunk, [fs0] is the state of the files
    when the job starts. *)

(** What holds of one worker with chunk indices [ix]: it writes only to
    its own indices, and only text without line feed; the indices it has
    not written yet hold their first value; and once it has reported
    [MsgStopped] with [c] items processed it has written among its first
    [c] indices only and will not write again. *)
Definition thread_inv (init buf : list str) (ix : list nat) (th : Thread)
  : Prop :=
  writes_in (fun i v => i ∈ ix /\ clean v) (todo th)
  /\ exists wrote : list nat,
      stop_ok ix wrote (todo th)
      /\ (forall i, i ∈ ix -> i ∉ wrote -> buf !! i = init !! i)
      /\ (forall c t, (c, t, MsgStopped) ∈ widget th ->
          wrote ⊆ take c ix /\ writes_in (fun _ _ => False) (todo th)).

(** What a checkpoint of the job looks like: the text of a buffer of the
    right length that agrees with [init] outside the chunks. *)
Definition checkpoint_inv (init : list str) (owned : list (list nat))
    (text : str) : Prop :=
  exists slots : list str,
    text = checkpoint_text slots
    /\ length slots = length init
    /\ Forall clean slots
    /\ (forall i, i ∉ concat owned -> slots !! i = init !! i).

Record job_inv (init : list str) (owned : list (list nat)) (fs0 : Files)
    (j : Job) : Prop := {
  inv_length : length (shared_output_lines (shared j)) = length init;
  inv_clean : Forall clean (shared_output_lines (shared j));
  inv_pool : length (pool j) = length owned;
  inv_threads :
    forall w ix th, owned !! w = Some ix -> pool j !! w = Some th ->
      thread_inv init (shared_output_lines (shared j)) ix th;
  inv_unowned :
    forall i, i ∉ concat owned ->
      shared_output_lines (shared j) !! i = init !! i;
  inv_lock : file_write_lock (files (shared j)) = false;
  inv_output : output_file (files (shared j)) = output_file fs0;
  inv_temp :
    temp_file (files (shared j))
    = match checkpoints (shared j) with
      | [] => temp_file fs0
      | text :: _ => Some text
      end;
  inv_checkpoints :
    Forall (checkpoint_inv init owned) (checkpoints (shared j))
}.

(** ** Sample jobs *)

(** An input file with the given lines. *)
Definition file_of (lines : list string) : str := checkpoint_text (lit <$> lines).

Definition sample_files : Files :=
  {| file_write_lock := false; temp_file := None;
     output_file := Some (lit "previous output") |}.

Definition sample_settings (n batch : Z) (streaming : bool) : Settings :=
  {| threads := n; batch_size := batch; delay := 1300; stream := streaming;
     top_k := VInt (-1) |}.

(** A successful answer with the given text, not streamed. *)
Definition answer (text : string) : Response :=
  HttpResponse 200 (Some (lit text)) [].

(** A successful streamed answer: one server-sent event per piece. *)
Definition streamed (pieces : list str) : Response :=
  HttpResponse 200 None
    ((fun piece => FrameLine (Some (lit "data: {..}")) (Some piece)) <$> pieces).

Definition no_job : Job :=
  {| shared := {| stop_event := false; shared_output_lines := [];
                  files := sample_files; checkpoints := [] |};
     pool := [] |}.

Definition polling {A : Type} (p : prog A) : bool :=
  match p with
  | IsSet _ => true
  | _ => false
  end.

(** Two data lines, one worker, batches of one line. *)
Definition two_lines : str := file_of ["1:::Hello"; "2:::World"]%string.
Definition two_lines_job : Job :=
  default no_job (run_logic two_lines (sample_settings 1 1 false) sample_files).
Definition stop_after_first_batch : list Event :=
  replicate 8 (EvRun 0 (answer "1:::Xin chao")) ++ [EvStop]
  ++ replicate 2 (EvRun 0 PostRaises).
Definition two_lines_stopped : Job :=
  default no_job (exec stop_after_first_batch two_lines_job).

(** The same file and settings, but with [null] for [top_k] in the
    configuration file; the worker has taken the four steps it can take. *)
Definition null_top_k_job : Job :=
  default no_job
    (run_logic two_lines
       {| threads := 1; batch_size := 1; delay := 1300; stream := false;
          top_k := VNone |} sample_files).
Definition null_top_k_dead : Job :=
  default no_job (exec (replicate 4 (EvRun 0 PostRaises)) null_top_k_job).

(** A translated text with a carriage return inside, and the answer that
    carries it. *)
Definition broken_text : str :=
  lit "1:::Xin" ++ carriage_return :: lit "chao".
Definition broken_answer : Response := HttpResponse 200 (Some broken_text) [].

(** A header and one data line, one worker. *)
Definition with_header : str := file_of ["0:::Key:::Text"; "7:::Hello"]%string.
Definition with_header_job : Job :=
  default no_job (run_logic with_header (sample_settings 1 50 false) sample_files).
Definition with_header_done : Job :=
  default no_job
    (exec (replicate 9 (EvRun 0 (answer "7:::Xin chao"))) with_header_job).

(** ** Rate limiter: [wait_for_slot]

    The threads that call [wait_for_slot], one step per line of the
    function.  Time is a number of clock units; the clock only moves
    forward, [time.time()] reads it and [time.sleep(x)] returns once [x]
    units have passed. *)

(** Where a thread is in [wait_for_slot]. *)
Inductive limiter_pc : Type :=
| Idle                          (* outside the function *)
| Locked                        (* holds [request_lock], before line 89 *)
| Checked (current_time : Z)    (* line 89 done *)
| Sleeping (wake : Z)           (* in [time.sleep], line 92 *)
| Stamping                      (* before line 93 *)
| Releasing.                    (* line 93 done, lock still held *)

(** [grants] records the values given to [last_request_time] by the calls
    so far, newest first. *)
Record Limiter : Type := {
  now : Z;
  last_request_time : Z;
  request_lock : option nat;
  callers : list limiter_pc;
  grants : list Z
}.

Inductive LimiterEvent : Type :=
| Tick (elapsed : Z)      (* the clock moves forward *)
| Call (t : nat).         (* thread [t] takes its next step *)

Definition set_pc (s : Limiter) (t : nat) (pc : limiter_pc) : Limiter :=
  {| now := now s; last_request_time := last_request_time s;
     request_lock := request_lock s;
     callers := <[t := pc]> (callers s); grants := grants s |}.

(** One step with minimum delay [delay_sec]; [None] when the step cannot
    be taken (the lock is held by another thread, the sleep is not over,
    the clock would go back). *)
Definition wait_for_slot_step (delay_sec : Z) (e : LimiterEvent) (s : Limiter)
  : option Limiter :=
  match e with
  | Tick elapsed =>
      if decide (0 <= elapsed)%Z
      then Some {| now := now s + elapsed;
                   last_request_time := last_request_time s;
                   request_lock := request_lock s;
                   callers := callers s; grants := grants s |}
      else None
  | Call t =>
      pc ← callers s !! t;
      match pc with
      | Idle =>
          match request_lock s with
          | Some _ => None
          | None =>
              Some {| now := now s; last_request_time := last_request_time s;
                      request_lock := Some t;
                      callers := <[t := Locked]> (callers s);
                      grants := grants s |}
          end
      | Locked => Some (set_pc s t (Checked (now s)))
      | Checked current_time =>
          let elapsed := (current_time - last_request_time s)%Z in
          if decide (elapsed < delay_sec)%Z
          then Some (set_pc s t (Sleeping (now s + (delay_sec - elapsed))))
          else Some (set_pc s t Stamping)
      | Sleeping wake =>
          if decide (wake <= now s)%Z then Some (set_pc s t Stamping) else None
      | Stamping =>
          Some {| now := now s; last_request_time := now s;
                  request_lock := request_lock s;
                  callers := <[t := Releasing]> (callers s);
                  grants := now s :: grants s |}
      | Releasing =>
          Some {| now := now s; last_request_time := last_request_time s;
                  request_lock := None;
                  callers := <[t := Idle]> (callers s);
                  grants := grants s |}
      end
  end.

Fixpoint wait_for_slot_exec (delay_sec : Z) (es : list LimiterEvent) (s : Limiter)
  : option Limiter :=
  match es with
  | [] => Some s
  | e :: rest => s' ← wait_for_slot_step delay_sec e s; wait_for_slot_exec delay_sec rest s'
  end.

(** No call in progress and none recorded. *)
Definition limiter_idle (s : Limiter) : Prop :=
  request_lock s = None /\ Forall (fun pc => pc = Idle) (callers s)
  /\ grants s = [].

(** Every grant is at least [d] after, and not before, all older ones. *)
Fixpoint spaced (d : Z) (gs : list Z) : Prop :=
  match gs with
  | [] => True
  | g :: older =>
      Forall (fun g' => (g' + d <= g)%Z /\ (g' <= g)%Z) older /\ spaced d older
  end.

(** What a thread inside the critical section knows. *)
Definition pc_inv (d : Z) (s : Limiter) (pc : limiter_pc) : Prop :=
  match pc with
  | Idle | Locked | Releasing => True
  | Checked current_time => (current_time <= now s)%Z
  | Sleeping wake => (last_request_time s + d <= wake)%Z
  | Stamping => (last_request_time s + d <= now s)%Z
  end.

Record limiter_inv (d : Z) (s : Limiter) : Prop := {
  lim_holder :
    forall t pc, callers s !! t = Some pc -> pc <> Idle ->
                 request_lock s = Some t;
  lim_pc : forall t pc, callers s !! t = Some pc -> pc_inv d s pc;
  lim_last :
    match grants s with
    | [] => True
    | g :: _ => last_request_time s = g
    end;
  lim_past : Forall (fun g => (g <= now s)%Z) (grants s);
  lim_spaced : spaced d (grants s)
}.

(** Two threads, minimum delay 1300: the first call finds the slot free,
    the second one has to sleep. *)
Definition two_callers : Limiter :=
  {| now := 0; last_request_time := 0; request_lock := None;
     callers := [Idle; Idle]; grants := [] |}.

Definition two_calls : list LimiterEvent :=
  [Tick 5000; Call 0; Call 0; Call 0; Call 0; Call 0;
   Tick 100; Call 1; Call 1; Call 1; Tick 1200; Call 1; Tick 3; Call 1; Call 1].

Definition after_two_calls : Limiter :=
  default two_callers (wait_for_slot_exec 1300 two_calls two_callers).

(** ** What the slots of a job can hold *)



(** [p] neither writes a slot nor saves a checkpoint. *)
Fixpoint touches_nothing {A : Type} (p : prog A) : Prop :=
  match p with
  | Ret _ | Raise => True
  | IsSet k => forall b, touches_nothing (k b)
  | WaitForSlot _ k => touches_nothing k
  | Post _ k => forall r, touches_nothing (k r)
  | SetSlot _ _ _ | SaveProgress _ => False
  | Ui _ _ _ k => touches_nothing k
  end.

(** Two data lines, one worker, a batch size of zero: the worker ends at
    once. *)
Definition zero_batch_job : Job :=
  default no_job (run_logic two_lines (sample_settings 1 0 false) sample_files).
Definition zero_batch_done : Job :=
  default no_job (exec [EvRun 0 PostRaises] zero_batch_job).

(** ** Progress reports *)

(** Every report [ui_callback(current, total, msg)] of [p] satisfies [P]. *)
Fixpoint reports {A : Type} (P : nat -> nat -> UiMsg -> Prop) (p : prog A)
  : Prop :=
  match p with
  | Ret _ | Raise => True
  | IsSet k => forall b, reports P (k b)
  | WaitForSlot _ k => reports P k
  | Post _ k => forall r, reports P (k r)
  | SetSlot _ _ k => reports P k
  | SaveProgress k => reports P k
  | Ui current total msg k => P current total msg /\ reports P k
  end.

(** Whenever [p] returns, the newest report ([last] when [p] has made
    none) satisfies [Q]. *)
Fixpoint returns_after {A : Type} (Q : option (nat * nat * UiMsg) -> Prop)
    (last : option (nat * nat * UiMsg)) (p : prog A) : Prop :=
  match p with
  | Ret _ => Q last
  | Raise => True
  | IsSet k => forall b, returns_after Q last (k b)
  | WaitForSlot _ k => returns_after Q last k
  | Post _ k => forall r, returns_after Q last (k r)
  | SetSlot _ _ k => returns_after Q last k
  | SaveProgress k => returns_after Q last k
  | Ui current total msg k => returns_after Q (Some (current, total, msg)) k
  end.

(** What holds of the reports of a worker with [total] lines. *)
Definition report_inv (total : nat) (th : Thread) : Prop :=
  Forall (fun r : nat * nat * UiMsg => r.1.1 <= r.1.2 /\ r.1.2 = total)
    (widget th)
  /\ reports (fun c t _ => c <= t /\ t = total) (todo th)
  /\ returns_after (fun last => last = Some (total, total, MsgFinished))
       (head (widget th)) (todo th).

(** The stopped sample job, once its worker has returned. *)
Definition two_lines_returned : Job :=
  default no_job
    (exec (stop_after_first_batch ++ [EvRun 0 PostRaises]) two_lines_job).

(** ** Streamed answers *)

(** A line of a streamed body that carries a piece of the answer: not
    empty, and once trimmed it starts with ["data: "] and is not the end
    marker. *)
Definition is_data (line : str) : Prop :=
  line <> []
  /\ startswith (lit "data: ") (py_strip line) = true
  /\ drop 6 (py_strip line) <> lit "[DONE]".

(** The end marker of a streamed body, white space around it allowed. *)
Definition is_done (line : str) : Prop :=
  line <> [] /\ py_strip line = lit "data: [DONE]".

(** The frames of the lines [events], each with its piece of content. *)
Definition data_frames (events : list (str * str)) : list frame :=
  (fun e : str * str => FrameLine (Some e.1) (Some e.2)) <$> events.

(** What else holds of the rate limiter once started with
    [last_request_time] in the past: the lock is held by a thread inside
    the function, [last_request_time] is never in the future, and a thread
    that has read the clock read it after [last_request_time] was set. *)
Record limiter_clock (s : Limiter) : Prop := {
  lim_locked :
    forall u, request_lock s = Some u ->
              exists pc, callers s !! u = Some pc /\ pc <> Idle;
  lim_last_past : (last_request_time s <= now s)%Z;
  lim_checked :
    forall t ct, callers s !! t = Some (Checked ct) ->
                 (last_request_time s <= ct)%Z
}.

(** From [s], some steps of thread [t] and of the clock bring [t] to the
    end of the critical section; nothing else changes hands. *)
Definition gets_through (d : Z) (s : Limiter) (t : nat) : Prop :=
  exists (es : list LimiterEvent) (s1 : Limiter),
    wait_for_slot_exec d es s = Some s1
    /\ callers s1 = <[t := Releasing]> (callers s)
    /\ request_lock s1 = request_lock s.

(** ** Requests *)

(** Every request of [p] comes after a call [wait_for_slot(d)] of its own:
    [ready] says that such a call has been made and not used yet. *)
Fixpoint throttled {A : Type} (d : Z) (ready : bool) (p : prog A) : Prop :=
  match p with
  | Ret _ | Raise => True
  | IsSet k => forall b, throttled d ready (k b)
  | WaitForSlot d' k => d' = d /\ throttled d true k
  | Post _ k => ready = true /\ forall r, throttled d false (k r)
  | SetSlot _ _ k => throttled d ready k
  | SaveProgress k => throttled d ready k
  | Ui _ _ _ k => throttled d ready k
  end.

(** No path of [p] holds more than [n] requests. *)
Fixpoint posts_at_most {A : Type} (n : nat) (p : prog A) : Prop :=
  match p with
  | Ret _ | Raise => True
  | IsSet k => forall b, posts_at_most n (k b)
  | WaitForSlot _ k => posts_at_most n k
  | Post _ k =>
      match n with
      | 0 => False
      | S n' => forall r, posts_at_most n' (k r)
      end
  | SetSlot _ _ k => posts_at_most n k
  | SaveProgress k => posts_at_most n k
  | Ui _ _ _ k => posts_at_most n k
  end.

(** The user message of every request of [p] satisfies [Q]. *)
Fixpoint prompts {A : Type} (Q : str -> Prop) (p : prog A) : Prop :=
  match p with
  | Ret _ | Raise => True
  | IsSet k => forall b, prompts Q (k b)
  | WaitForSlot _ k => prompts Q k
  | Post prompt k => Q prompt /\ forall r, prompts Q (k r)
  | SetSlot _ _ k => prompts Q k
  | SaveProgress k => prompts Q k
  | Ui _ _ _ k => prompts Q k
  end.

(** ** Configuration: [load_config] *)

(** What [CONFIG_FILE] can be: absent; present but not readable as a JSON
    object ([open], [json.load] or [loaded.items()] raises, before any key
    is set); or a JSON object, given by its members in order. *)
Inductive ConfigFile (V : Type) : Type :=
| NoFile
| Unreadable
| JsonObject (members : list (str * V)).

Arguments NoFile {V}.
Arguments Unreadable {V}.
Arguments JsonObject {V} members.

(** [config_data] after [load_config()]. *)
Definition load_config {V : Type} (config_data : gmap str V)
    (file : ConfigFile V) : gmap str V :=
  match file with
  | JsonObject members =>
      foldl (fun cfg kv => <[kv.1 := kv.2]> cfg) config_data members
  | NoFile | Unreadable => config_data
  end.

(** ** The list of models: [SearchableComboBox.filter_list] *)

(** [str.lower] on one character of the range: the letters A to Z and the
    capital letters of Latin-1 (0xC0 to 0xDE but the multiplication sign
    0xD7) move up by 32, every other character stays. *)
Definition lower_char (c : ascii) : ascii :=
  let n := code c in
  if ((65 <=? n) && (n <=? 90))
     || ((192 <=? n) && (n <=? 222) && negb (n =? 215))
  then ascii_of_nat (n + 32)
  else c.

(** [s.lower()] *)
Definition py_lower (s : str) : str := lower_char <$> s.

(** The values [filter_list] hands to [populate_list] when the search
    field holds [query]. *)
Definition filter_list (values : list str) (query : str) : list str :=
  List.filter (fun v => py_in (py_lower query) (py_lower v)) values.

(** ** After STOP *)

(** If [stop_event] is set and stays set, [p] sends at most [posts]
    requests and writes at most [saves] checkpoints before it ends. *)
Fixpoint stop_bound {A : Type} (posts saves : nat) (p : prog A) : Prop :=
  match p with
  | Ret _ | Raise => True
  | IsSet k => stop_bound posts saves (k true)
  | WaitForSlot _ k => stop_bound posts saves k
  | Post _ k =>
      match posts with
      | 0 => False
      | S n => forall r, stop_bound n saves (k r)
      end
  | SetSlot _ _ k => stop_bound posts saves k
  | SaveProgress k =>
      match saves with
      | 0 => False
      | S n => stop_bound posts n k
      end
  | Ui _ _ _ k => stop_bound posts saves k
  end.

(** [Q] holds of [p] and of every state [p] can get to. *)
Fixpoint everywhere {A : Type} (Q : prog A -> Prop) (p : prog A) : Prop :=
  Q p
  /\ match p with
     | Ret _ | Raise => True
     | IsSet k => forall b, everywhere Q (k b)
     | WaitForSlot _ k => everywhere Q k
     | Post _ k => forall r, everywhere Q (k r)
     | SetSlot _ _ k => everywhere Q k
     | SaveProgress k => everywhere Q k
     | Ui _ _ _ k => everywhere Q k
     end.

(** ** A [top_k] that is not a number *)



(** ** Line ends of the input file *)

(** A text file with the given lines, each followed by [ending]. *)
Definition text_with (ending : str) (lines : list str) : str :=
  concat ((fun line => line ++ ending) <$> lines).

(** * Properties *)

(** ** Strings *)

Section StringFacts.

Lemma startswith_app (p s : str) : startswith p s = true -> s = p ++ drop (length p) s.
Proof.
  revert s. induction p as [|a p IH]; intros [|b s] H; simpl in *; try done.
  case_decide; [|done]. subst. f_equal. by apply IH.
Qed.

Lemma startswith_prefix (p s : str) : startswith p (p ++ s) = true.
Proof. induction p as [|a p IH]; simpl; [done|]. by rewrite decide_True. Qed.

Lemma cut_app (sep s a b : str) : cut sep s = Some (a, b) -> s = a ++ sep ++ b.
Proof.
  revert a b. induction s as [|c s IH]; intros a b; simpl.
  - destruct (startswith sep []) eqn:E; [|done].
    intros [= <- <-]. destruct sep; simpl in *; done.
  - destruct (startswith sep (c :: s)) eqn:E.
    + intros [= <- <-]. simpl. by apply startswith_app.
    + destruct (cut sep s) as [[a' b']|] eqn:C; [|done].
      intros [= <- <-]. simpl. f_equal. by apply IH.
Qed.

Lemma cut_length (sep s a b : str) :
  cut sep s = Some (a, b) -> length s = length a + length sep + length b.
Proof. intros H%cut_app. subst. rewrite !length_app. lia. Qed.

Lemma py_in_cut (sep s : str) : py_in sep s = true <-> exists a b, cut sep s = Some (a, b).
Proof.
  unfold py_in. destruct (cut sep s) as [[a b]|]; split; try done; eauto.
  intros (? & ? & ?); done.
Qed.

Lemma split_rounds_no_sep n (sep s : str) :
  py_in sep s = false -> split_rounds n sep s = [s].
Proof. unfold py_in. destruct n; simpl; [done|]. by destruct (cut sep s) as [[??]|]. Qed.

Lemma py_split_cut (sep s a b : str) :
  sep <> [] -> cut sep s = Some (a, b) ->
  py_split sep s = a :: split_rounds (length s - 1) sep b.
Proof.
  intros Hsep H. unfold py_split. pose proof (cut_length _ _ _ _ H) as L.
  destruct (length s) as [|n] eqn:E.
  - destruct sep; [done|]. simpl in L. lia.
  - simpl. rewrite H. by rewrite Nat.sub_0_r.
Qed.

Lemma py_split_no_sep (sep s : str) : py_in sep s = false -> py_split sep s = [s].
Proof. apply split_rounds_no_sep. Qed.

Lemma delim_nonempty : delim <> [].
Proof. done. Qed.

End StringFacts.


(** ** Reconciliation *)

Lemma reconcile_line_cut (m : gmap str str) (line a b : str) :
  cut delim line = Some (a, b) ->
  py_in delim b = false ->
  reconcile_line m line
  = Some (py_strip a ++ delim ++ default (py_strip b) (m !! py_strip a)).
Proof.
  intros Hcut Hb. unfold reconcile_line.
  rewrite (py_split_cut _ _ _ _ delim_nonempty Hcut).
  rewrite (split_rounds_no_sep _ _ _ Hb).
  assert (py_in delim line = true) as -> by (apply py_in_cut; eauto).
  done.
Qed.

Lemma reconcile_line_bare (m : gmap str str) (line : str) :
  py_in delim line = false ->
  reconcile_line m line
  = Some (py_strip line ++ delim ++ default line (m !! py_strip line)).
Proof.
  intros H. unfold reconcile_line. rewrite (py_split_no_sep _ _ H), H. done.
Qed.

(** C1, as amended.  For a batch line [a ++ ":::" ++ b] with a single
    delimiter whose trimmed id [a] is missing from the mapping, the
    reconciled line is the trimmed id, the delimiter and the trimmed text
    [b]; it is never empty, and it is the original line itself when the id
    and the text carry no white space at their ends. *)
Theorem reconcile_missing_id (m : gmap str str) (line a b : str) :
  cut delim line = Some (a, b) ->
  py_in delim b = false ->
  m !! py_strip a = None ->
  reconcile_line m line = Some (py_strip a ++ delim ++ py_strip b)
  /\ py_strip a ++ delim ++ py_strip b <> []
  /\ (py_strip a = a -> py_strip b = b ->
      reconcile_line m line = Some line).
Proof.
  intros Hcut Hb Hm.
  rewrite (reconcile_line_cut m _ _ _ Hcut Hb), Hm. simpl.
  split; [done|]. split.
  - intros E. apply (f_equal length) in E. rewrite !length_app in E.
    simpl in E. lia.
  - intros -> ->. by rewrite (cut_app _ _ _ _ Hcut).
Qed.

Lemma reconcile_missing_id_witness :
  reconcile_line ∅ (lit "1:::Hello")
  = Some (py_strip (lit "1") ++ delim ++ py_strip (lit "Hello"))
  /\ py_strip (lit "1") ++ delim ++ py_strip (lit "Hello") <> []
  /\ (py_strip (lit "1") = lit "1" -> py_strip (lit "Hello") = lit "Hello" ->
      reconcile_line ∅ (lit "1:::Hello") = Some (lit "1:::Hello")).
Proof.
  apply (reconcile_missing_id ∅ (lit "1:::Hello") (lit "1") (lit "Hello"));
    reflexivity.
Defined.

(** C1 as stated fails: white space next to the delimiter is trimmed, so
    the reconciled line of a missing id differs from the batch line. *)
Lemma reconcile_missing_id_trims :
  cut delim (lit "1::: Hello") = Some (lit "1", lit " Hello")
  /\ (∅ : gmap str str) !! lit "1" = None
  /\ reconcile_line ∅ (lit "1::: Hello") = Some (lit "1:::Hello")
  /\ reconcile_line ∅ (lit "1::: Hello") <> Some (lit "1::: Hello").
Proof. repeat split; try reflexivity. vm_compute. discriminate. Qed.

(** The text after a second delimiter is lost (line 181 splits without a
    bound, line 169 splits once). *)
Lemma reconcile_second_delimiter :
  reconcile_line ∅ (lit "3:::a:::b") = Some (lit "3:::a").
Proof. reflexivity. Qed.


(** ** Response parser *)

Lemma take_drop_while (p : ascii -> bool) (s : str) :
  take_while p s ++ drop_while p s = s.
Proof. induction s as [|c s IH]; simpl; [done|]. destruct (p c); simpl; by f_equal. Qed.

Lemma take_while_Forall (p : ascii -> bool) (s : str) :
  Forall (fun c => p c = true) (take_while p s).
Proof.
  induction s as [|c s IH]; simpl; [constructor|].
  destruct (p c) eqn:E; by constructor.
Qed.

Lemma take_while_app (p : ascii -> bool) (s t : str) :
  Forall (fun c => p c = true) s ->
  take_while p (s ++ t) = s ++ take_while p t.
Proof. induction 1 as [|c s Hc _ IH]; simpl; [done|]. by rewrite Hc, IH. Qed.

Lemma drop_while_app (p : ascii -> bool) (s t : str) :
  Forall (fun c => p c = true) s ->
  drop_while p (s ++ t) = drop_while p t.
Proof. induction 1 as [|c s Hc _ IH]; simpl; [done|]. by rewrite Hc, IH. Qed.

Lemma drop_while_head (p : ascii -> bool) (s : str) (c : ascii) (t : str) :
  drop_while p s = c :: t -> p c = false.
Proof.
  induction s as [|d s IH]; simpl; [done|].
  destruct (p d) eqn:E; [done|]. by intros [= <- <-].
Qed.

Lemma ascii_all (P : ascii -> bool) :
  forallb (fun n => P (ascii_of_nat n)) (seq 0 256) = true ->
  forall c, P c = true.
Proof.
  intros H c. rewrite forallb_forall in H.
  rewrite <- (ascii_nat_embedding c). apply H.
  apply in_seq. pose proof (nat_ascii_bounded c). lia.
Qed.

Lemma is_sep_not_digit (c : ascii) : is_sep c = true -> is_digit c = false.
Proof.
  intros H.
  pose proof (ascii_all (fun c => negb (is_sep c && is_digit c)) eq_refl c) as E.
  simpl in E. rewrite H in E. by destruct (is_digit c).
Qed.

Lemma is_sep_not_space (c : ascii) : is_sep c = true -> is_space c = false.
Proof.
  intros H.
  pose proof (ascii_all (fun c => negb (is_sep c && is_space c)) eq_refl c) as E.
  simpl in E. rewrite H in E. by destruct (is_space c).
Qed.

Lemma is_space_not_digit (c : ascii) : is_space c = true -> is_digit c = false.
Proof.
  intros H.
  pose proof (ascii_all (fun c => negb (is_space c && is_digit c)) eq_refl c) as E.
  simpl in E. rewrite H in E. by destruct (is_digit c).
Qed.

Lemma is_sep_elem (c : ascii) : is_sep c = true <-> c ∈ lit "|:>.)]".
Proof.
  unfold is_sep. rewrite existsb_exists. split.
  - intros (x & Hx & E). apply Ascii.eqb_eq in E. subst. by apply list_elem_of_In.
  - intros H. exists c. split; [by apply list_elem_of_In|]. apply Ascii.eqb_refl.
Qed.

Lemma fallback_match_shape (line ds ws : str) (c : ascii) (rest : str) :
  line = ds ++ ws ++ c :: rest ->
  ds <> [] ->
  Forall (fun d => is_digit d = true) ds ->
  Forall (fun w => is_space w = true) ws ->
  is_sep c = true ->
  fallback_match line
  = Some (ds, take_while not_newline (drop_while is_space rest)).
Proof.
  intros -> Hne Hds Hws Hc. unfold fallback_match.
  assert (take_while is_digit (ws ++ c :: rest) = []) as Hstop.
  { destruct Hws as [|w ws Hw _]; simpl.
    - by rewrite (is_sep_not_digit _ Hc).
    - by rewrite (is_space_not_digit _ Hw). }
  assert (drop_while is_digit (ws ++ c :: rest) = ws ++ c :: rest) as Hstop'.
  { destruct Hws as [|w ws Hw _]; simpl.
    - by rewrite (is_sep_not_digit _ Hc).
    - by rewrite (is_space_not_digit _ Hw). }
  rewrite (take_while_app _ _ _ Hds), (drop_while_app _ _ _ Hds).
  rewrite Hstop, Hstop', app_nil_r.
  rewrite (drop_while_app _ _ _ Hws). simpl.
  rewrite (is_sep_not_space _ Hc), Hc.
  destruct ds; done.
Qed.

Lemma fallback_match_Some (line g1 g2 : str) :
  fallback_match line = Some (g1, g2) -> fallback_shape line.
Proof.
  unfold fallback_match.
  destruct (take_while is_digit line) as [|d ds] eqn:Hds; [done|].
  destruct (drop_while is_space (drop_while is_digit line)) as [|c rest] eqn:Hr;
    [done|].
  destruct (is_sep c) eqn:Hc; [|done]. intros _.
  exists (d :: ds), (take_while is_space (drop_while is_digit line)), c, rest.
  split; [|split; [done|split; [|split]]].
  - rewrite <- Hr, <- Hds, take_drop_while. by rewrite take_drop_while.
  - rewrite <- Hds. apply take_while_Forall.
  - apply take_while_Forall.
  - by apply is_sep_elem.
Qed.

Lemma fallback_match_iff (line : str) :
  is_Some (fallback_match line) <-> fallback_shape line.
Proof.
  split.
  - intros [[g1 g2] H]. by eapply fallback_match_Some.
  - intros (ds & ws & c & rest & E & Hne & Hds & Hws & Hc).
    apply is_sep_elem in Hc.
    by rewrite (fallback_match_shape line ds ws c rest E Hne Hds Hws Hc).
Qed.

Lemma adds_entry_not_discarded (line : str) :
  adds_entry line -> discarded line -> False.
Proof.
  intros (k & v & Ha) Hd. specialize (Ha ∅). rewrite (Hd ∅) in Ha.
  assert ((∅ : gmap str str) !! k = (<[k := v]> (∅ : gmap str str)) !! k) as E
    by congruence.
  by rewrite lookup_empty, lookup_insert_eq in E.
Qed.

(** C5, as amended.  A payload line without [":::"] adds an entry exactly
    when it is an integer, optional white space, one separator among
    [| : > . ) ]] and free text; the key is the integer.  Any other such
    line is discarded and nothing is raised. *)
Theorem parse_line_fallback (line : str) :
  py_in delim line = false ->
  (adds_entry line <-> fallback_shape line)
  /\ (fallback_shape line ->
      exists v : str, forall m : gmap str str,
        parse_line m line = Some (<[take_while is_digit line := v]> m))
  /\ (~ fallback_shape line -> discarded line).
Proof.
  intros Hin.
  assert (forall m, parse_line m line
            = match fallback_match line with
              | Some (g1, g2) => Some (<[g1 := py_strip g2]> m)
              | None => Some m
              end) as Hp.
  { intros m. unfold parse_line. by rewrite Hin. }
  assert (fallback_shape line ->
          exists v : str, forall m : gmap str str,
            parse_line m line = Some (<[take_while is_digit line := v]> m)) as Hk.
  { intros (ds & ws & c & rest & E & Hne & Hds & Hws & Hc).
    apply is_sep_elem in Hc.
    eexists. intros m. rewrite Hp.
    rewrite (fallback_match_shape line ds ws c rest E Hne Hds Hws Hc).
    rewrite E, (take_while_app _ _ _ Hds).
    assert (take_while is_digit (ws ++ c :: rest) = []) as ->; [|by rewrite app_nil_r].
    destruct Hws as [|w ws Hw _]; simpl.
    - by rewrite (is_sep_not_digit _ Hc).
    - by rewrite (is_space_not_digit _ Hw). }
  assert (~ fallback_shape line -> discarded line) as Hd.
  { intros Hn m. rewrite Hp.
    destruct (fallback_match line) as [[g1 g2]|] eqn:E; [|done].
    destruct Hn. by eapply fallback_match_Some. }
  split; [|by split].
  split.
  - intros Ha. destruct (fallback_match line) as [[g1 g2]|] eqn:E.
    + by eapply fallback_match_Some.
    + destruct (adds_entry_not_discarded line Ha). intros m. apply Hp.
  - intros Hs. destruct (Hk Hs) as [v Hv]. by exists (take_while is_digit line), v.
Qed.

Lemma parse_line_fallback_witness :
  (adds_entry (lit "12 | Xin chao") <-> fallback_shape (lit "12 | Xin chao"))
  /\ (fallback_shape (lit "12 | Xin chao") ->
      exists v : str, forall m : gmap str str,
        parse_line m (lit "12 | Xin chao")
        = Some (<[take_while is_digit (lit "12 | Xin chao") := v]> m))
  /\ (~ fallback_shape (lit "12 | Xin chao") -> discarded (lit "12 | Xin chao")).
Proof. apply (parse_line_fallback (lit "12 | Xin chao")). reflexivity. Defined.

(** C5 as stated fails: the class of the pattern also holds [")"], which
    is not among the five separators of the claim. *)
Lemma parse_line_paren_separator :
  py_in delim (lit "1) Hello") = false
  /\ (forall m : gmap str str,
        parse_line m (lit "1) Hello") = Some (<[lit "1" := lit "Hello"]> m))
  /\ adds_entry (lit "1) Hello")
  /\ ~ spec_fallback_shape (lit "1) Hello").
Proof.
  split; [reflexivity|]. split; [intros m; reflexivity|]. split.
  - exists (lit "1"), (lit "Hello"). intros m. reflexivity.
  - intros (ds & c & rest & E & Hne & Hds & Hc).
    destruct ds as [|d1 [|d2 ds]]; [done| |].
    + injection E as _ <- _. vm_compute in Hc.
      repeat (apply elem_of_cons in Hc as [Hc|Hc]; [discriminate|]).
      by apply elem_of_nil in Hc.
    + injection E as _ <- _. apply Forall_cons in Hds as [_ Hds].
      apply Forall_cons in Hds as [Hds _]. vm_compute in Hds. discriminate.
Qed.


(** ** Translation client *)

Lemma run_bind {A B : Type} (env : Outside) (p : prog A) (f : A -> prog B) :
  forall n,
    run env n (bind p f)
    = match run env n p with
      | Some (a, n') => run env n' (f a)
      | None => None
      end.
Proof.
  induction p as [a| |k IH|d k IH|q k IH|i v k IH|k IH|c t m k IH];
    intros n; simpl; auto.
Qed.

Lemma split_rounds_nonempty n (sep s : str) : split_rounds n sep s <> [].
Proof. destruct n; simpl; [done|]. by destruct (cut sep s) as [[??]|]. Qed.

Lemma reconcile_line_total (m : gmap str str) (line : str) :
  is_Some (reconcile_line m line).
Proof.
  destruct (py_in delim line) eqn:E.
  - apply py_in_cut in E as (a & b & Hcut). unfold reconcile_line.
    rewrite (py_split_cut _ _ _ _ delim_nonempty Hcut).
    assert (py_in delim line = true) as -> by (apply py_in_cut; eauto).
    pose proof (split_rounds_nonempty (length line - 1) delim b) as Hne.
    destruct (split_rounds (length line - 1) delim b); [done|]. simpl. eauto.
  - rewrite (reconcile_line_bare _ _ E). eauto.
Qed.



Lemma reconcile_Forall2 (m : gmap str str) (batch results : list str) :
  reconcile m batch = Some results ->
  Forall2 (fun line r => reconcile_line m line = Some r) batch results.
Proof.
  revert results. induction batch as [|line batch IH]; intros results; simpl.
  - intros [= <-]. constructor.
  - destruct (reconcile_line m line) as [r|] eqn:E; [|done]. simpl.
    destruct (reconcile m batch) as [rs|]; [|done]. simpl.
    intros [= <-]. constructor; auto.
Qed.

Lemma reconcile_total (m : gmap str str) (batch : list str) :
  is_Some (reconcile m batch).
Proof.
  induction batch as [|line batch [rs IH]]; simpl; [eauto|].
  destruct (reconcile_line_total m line) as [r ->]. rewrite IH. simpl. eauto.
Qed.



(** C3 fails on the code.  When [CONFIG_FILE] gives [null] for [top_k],
    the comparison of line 128 raises [TypeError]; it stands before [try:],
    so no handler catches it and [call_api_translate] raises instead of
    returning the batch, whatever the batch, the other settings and the
    network are.  The worker that made the call ends there: in the sample
    job its thread dies at the first batch, before any slot is written and
    any checkpoint saved. *)
Theorem call_api_translate_propagates (batch : list str) (n b d : Z)
    (s : bool) (r : Response) (polls : nat) :
  run {| flag_at := fun _ => false; response := r |} polls
    (call_api_translate batch
       {| threads := n; batch_size := b; delay := d; stream := s;
          top_k := VNone |})
  = None
  /\ (todo <$> pool null_top_k_dead) = [Raise]
  /\ shared_output_lines (shared null_top_k_dead)
     = shared_output_lines (shared null_top_k_job)
  /\ checkpoints (shared null_top_k_dead) = [].
Proof. split; [reflexivity|]. split; [reflexivity|]. split; reflexivity. Qed.


(** ** Checkpoint writer *)

Lemma file_steps_app (ops1 ops2 : list file_op) (fs : Files) :
  file_steps (ops1 ++ ops2) fs
  = match file_steps ops1 fs with
    | Some fs1 => file_steps ops2 fs1
    | None => None
    end.
Proof.
  revert fs. induction ops1 as [|op ops1 IH]; intros fs; simpl; [done|].
  destruct (file_step op fs); simpl; auto.
Qed.

Lemma file_steps_writes (slots : list str) (written : str) (out : option str) :
  file_steps ((fun line => OpWrite (line ++ nl)) <$> slots)
    {| file_write_lock := true; temp_file := Some written; output_file := out |}
  = Some {| file_write_lock := true;
            temp_file := Some (written ++ checkpoint_text slots);
            output_file := out |}.
Proof.
  revert written. induction slots as [|line slots IH]; intros written; simpl.
  - by rewrite app_nil_r.
  - rewrite IH. unfold checkpoint_text. simpl. by rewrite <- !app_assoc.
Qed.

Lemma save_progress_file_free (slots : list str) (fs : Files) :
  file_write_lock fs = false ->
  save_progress_file slots fs
  = Some {| file_write_lock := false;
            temp_file := Some (checkpoint_text slots);
            output_file := output_file fs |}.
Proof.
  intros Hfree. unfold save_progress_file, save_progress_ops. simpl.
  rewrite Hfree. simpl. rewrite file_steps_app, file_steps_writes. done.
Qed.

Lemma save_progress_file_held (slots : list str) (fs : Files) :
  file_write_lock fs = true -> save_progress_file slots fs = None.
Proof.
  intros Hheld. unfold save_progress_file, save_progress_ops. simpl.
  by rewrite Hheld.
Qed.

Lemma file_lines_from_line (cur line rest : str) :
  newline ∉ line ->
  file_lines_from cur (line ++ nl ++ rest)
  = (rev cur ++ line) :: file_lines_from [] rest.
Proof.
  revert cur. unfold nl.
  induction line as [|c line IH]; intros cur Hnl; simpl.
  - destruct (decide (newline = newline)); [|done]. by rewrite app_nil_r.
  - destruct (decide (c = newline)) as [->|Hc]; [destruct Hnl; left|].
    rewrite IH; [|intros ?; apply Hnl; by right].
    simpl. by rewrite <- app_assoc.
Qed.

(** A text without carriage return is read as it is. *)
Lemma universal_from_line (line rest : str) :
  carriage_return ∉ line ->
  universal_from false (line ++ nl ++ rest)
  = line ++ nl ++ universal_from false rest.
Proof.
  unfold nl. induction line as [|c line IH]; intros Hcr.
  - reflexivity.
  - assert (carriage_return ∉ line) as Hcr' by (intros ?; apply Hcr; by right).
    specialize (IH Hcr').
    change ((c :: line) ++ [newline] ++ rest)
      with (c :: (line ++ [newline] ++ rest)).
    cbn [universal_from].
    destruct (decide (c = carriage_return)) as [->|Hc]; [destruct Hcr; left|].
    destruct (decide (c = newline)) as [->|?]; by rewrite IH.
Qed.

Lemma universal_newlines_clear (s : str) :
  carriage_return ∉ s -> universal_newlines s = s.
Proof.
  unfold universal_newlines. induction s as [|c s IH]; intros Hcr; simpl.
  - reflexivity.
  - destruct (decide (c = carriage_return)) as [->|Hc]; [destruct Hcr; left|].
    assert (carriage_return ∉ s) as Hcr' by (intros ?; apply Hcr; by right).
    destruct (decide (c = newline)) as [->|?]; by rewrite (IH Hcr').
Qed.

Lemma checkpoint_text_clear (slots : list str) :
  Forall (fun line => carriage_return ∉ line) slots ->
  carriage_return ∉ checkpoint_text slots.
Proof.
  unfold checkpoint_text. induction 1 as [|line slots Hline _ IH]; simpl.
  - apply not_elem_of_nil.
  - rewrite !elem_of_app. intros [[H|H]|H]; [done| |done].
    unfold nl in H. apply list_elem_of_singleton in H. discriminate H.
Qed.

Lemma file_lines_checkpoint (slots : list str) :
  Forall (fun line => newline ∉ line) slots ->
  Forall (fun line => carriage_return ∉ line) slots ->
  file_lines (checkpoint_text slots) = slots.
Proof.
  intros Hnl Hcr. unfold file_lines.
  rewrite (universal_newlines_clear _ (checkpoint_text_clear _ Hcr)).
  clear Hcr. unfold checkpoint_text.
  induction Hnl as [|line slots Hline _ IH]; simpl; [done|].
  rewrite <- app_assoc, (file_lines_from_line [] line _ Hline). simpl.
  f_equal. exact IH.
Qed.

Lemma file_lines_checkpoint_head (line : str) (slots : list str) :
  newline ∉ line -> carriage_return ∉ line ->
  file_lines (checkpoint_text (line :: slots)) !! 0 = Some line.
Proof.
  intros Hline Hcr. unfold file_lines, universal_newlines, checkpoint_text.
  rewrite fmap_cons. cbn [concat].
  rewrite <- app_assoc, (universal_from_line _ _ Hcr).
  by rewrite (file_lines_from_line [] line _ Hline).
Qed.


(** ** Partitioner *)

Lemma ceil_div_lt (a b k : nat) : 0 < b -> k < ceil_div a b <-> k * b < a.
Proof.
  intros Hb. unfold ceil_div.
  pose proof (Nat.div_mod_eq (a + b - 1) b) as E.
  pose proof (Nat.mod_upper_bound (a + b - 1) b ltac:(lia)) as Hr.
  split; intros H; nia.
Qed.

Lemma ceil_div_pos (a b : nat) : 0 < b -> 0 < a -> 0 < ceil_div a b.
Proof. intros Hb Ha. apply (ceil_div_lt a b 0 Hb). lia. Qed.

Lemma ceil_div_cover (a b : nat) : 0 < b -> a <= ceil_div a b * b.
Proof.
  intros Hb. destruct (decide (ceil_div a b * b < a)) as [H|H]; [|lia].
  apply ceil_div_lt in H; [lia|done].
Qed.

Lemma ceil_div_ceil_div (a n : nat) :
  0 < n -> 0 < a -> ceil_div a (ceil_div a n) <= n.
Proof.
  intros Hn Ha. pose proof (ceil_div_pos a n Hn Ha) as Hc.
  destruct (decide (n < ceil_div a (ceil_div a n))) as [H|H]; [|lia].
  apply ceil_div_lt in H; [|done].
  pose proof (ceil_div_cover a n Hn). lia.
Qed.

Lemma py_range0_pos (stop step : nat) :
  0 < step ->
  py_range0 stop (Z.of_nat step)
  = Some ((fun k => k * step) <$> seq 0 (ceil_div stop step)).
Proof.
  intros Hs. unfold py_range0.
  rewrite decide_False by lia. rewrite decide_False by lia.
  by rewrite Nat2Z.id.
Qed.

Lemma py_range0_zero (stop : nat) : py_range0 stop 0 = None.
Proof. done. Qed.

Lemma take_add_drop {A : Type} (l : list A) (n k : nat) :
  take (n + k) l = take n l ++ take k (drop n l).
Proof.
  revert l. induction n as [|n IH]; intros [|x l]; simpl; try done.
  - by rewrite take_nil.
  - by rewrite IH.
Qed.

Lemma concat_slices {A : Type} (data : list A) (cs : nat) (m a : nat) :
  concat ((fun k => py_slice (k * cs) cs data) <$> seq a m)
  = take (m * cs) (drop (a * cs) data).
Proof.
  revert a. induction m as [|m IH]; intros a; simpl; [done|].
  rewrite IH. unfold py_slice. rewrite take_add_drop, drop_drop.
  do 3 f_equal. lia.
Qed.

Lemma slices_nonempty {A : Type} (data : list A) (cs m : nat) :
  0 < cs -> (forall k, k < m -> k * cs < length data) ->
  Forall (fun c : list A => length c <> 0)
    ((fun k => py_slice (k * cs) cs data) <$> seq 0 m).
Proof.
  intros Hcs Hm. apply Forall_fmap, Forall_forall. intros k Hk.
  apply elem_of_seq in Hk. simpl. unfold py_slice.
  rewrite length_take, length_drop. specialize (Hm k). lia.
Qed.

Lemma filter_all {A : Type} (P : A -> Prop) `{!forall x, Decision (P x)}
    (l : list A) :
  Forall P l -> filter P l = l.
Proof.
  induction 1 as [|x l Hx _ IH]; [done|].
  rewrite filter_cons_True by done. by rewrite IH.
Qed.

Lemma ceil_quotient_exact (total : nat) (n_threads : Z) :
  (n_threads < Z.of_nat total * 2 ^ 1075)%Z ->
  ceil_quotient total n_threads = ceil_div total (Z.to_nat n_threads).
Proof. intros Hb. unfold ceil_quotient. by rewrite decide_False by lia. Qed.

Lemma ceil_quotient_zero (total : nat) (n_threads : Z) :
  (Z.of_nat total * 2 ^ 1075 <= n_threads)%Z ->
  ceil_quotient total n_threads = 0.
Proof. intros Hb. unfold ceil_quotient. by rewrite decide_True. Qed.

(** The quotient of line 645 is rounded to zero, and [range] raises, when
    there are [2^1075] times more threads than entries; an empty list is
    one case of it. *)
Lemma make_chunks_raises {A : Type} (n : Z) (data : list A) :
  (Z.of_nat (length data) * 2 ^ 1075 <= Z.max 1 n)%Z ->
  make_chunks n data = None.
Proof.
  intros Hb. unfold make_chunks. by rewrite (ceil_quotient_zero _ _ Hb).
Qed.

Lemma make_chunks_bound {A : Type} (n : Z) (data : list A)
    (chunks : list (list A)) :
  make_chunks n data = Some chunks ->
  (Z.max 1 n < Z.of_nat (length data) * 2 ^ 1075)%Z.
Proof.
  intros E.
  destruct (decide (Z.of_nat (length data) * 2 ^ 1075 <= Z.max 1 n)%Z)
    as [Hb|Hb]; [|lia].
  by rewrite (make_chunks_raises _ _ Hb) in E.
Qed.

Lemma bound_nonempty {A : Type} (n : Z) (data : list A) :
  (Z.max 1 n < Z.of_nat (length data) * 2 ^ 1075)%Z -> 0 < length data.
Proof. intros Hb. destruct data; simpl in *; lia. Qed.

(** The chunks in closed form, when the quotient is not rounded to zero. *)
Lemma make_chunks_nonempty {A : Type} (n : Z) (data : list A) :
  (Z.max 1 n < Z.of_nat (length data) * 2 ^ 1075)%Z ->
  let cs := ceil_div (length data) (Z.to_nat (Z.max 1 n)) in
  make_chunks n data
  = Some ((fun k => py_slice (k * cs) cs data)
            <$> seq 0 (ceil_div (length data) cs)).
Proof.
  intros Hb cs. unfold make_chunks. rewrite (ceil_quotient_exact _ _ Hb).
  fold cs.
  pose proof (bound_nonempty n data Hb) as Hlen.
  assert (0 < cs) as Hcs by (apply ceil_div_pos; lia).
  rewrite (py_range0_pos _ _ Hcs). f_equal.
  rewrite <- list_fmap_compose. apply filter_all.
  apply (slices_nonempty data cs _ Hcs).
  intros k Hk. by apply ceil_div_lt in Hk.
Qed.

(** The claim of C2 holds whenever the quotient is not rounded to zero. *)
Lemma make_chunks_spec {A : Type} (n : Z) (data : list A) :
  (Z.max 1 n < Z.of_nat (length data) * 2 ^ 1075)%Z ->
  let workers := Z.to_nat (Z.max 1 n) in
  let cs := ceil_div (length data) workers in
  exists chunks : list (list A),
    make_chunks n data = Some chunks
    /\ concat chunks = data
    /\ length chunks <= workers
    /\ Forall (fun c => c <> []) chunks
    /\ (forall k c, chunks !! k = Some c ->
        if decide (S k < length chunks) then length c = cs
        else 1 <= length c <= cs)
    /\ (length data < workers ->
        length chunks = length data /\ Forall (fun c => length c = 1) chunks).
Proof.
  intros Hne workers cs.
  pose proof (bound_nonempty n data Hne) as Hlen.
  assert (0 < workers) as Hw by (unfold workers; lia).
  assert (0 < cs) as Hcs by (apply ceil_div_pos; lia).
  pose proof (make_chunks_nonempty n data Hne) as E. simpl in E.
  fold workers in E. fold cs in E.
  eexists. split; [exact E|].
  set (m := ceil_div (length data) cs) in *.
  assert (forall k c,
            ((fun k => py_slice (k * cs) cs data) <$> seq 0 m) !! k = Some c ->
            k < m /\ c = py_slice (k * cs) cs data) as Hget.
  { intros k c Hk. rewrite list_lookup_fmap in Hk.
    destruct (seq 0 m !! k) as [k'|] eqn:Hs; [|done].
    apply lookup_seq in Hs as [-> ?]. simpl in Hk. by injection Hk as <-. }
  assert (forall k, k < m -> k * cs < length data) as Hm.
  { intros k Hk. by apply ceil_div_lt in Hk. }
  split; [|split; [|split; [|split]]].
  - rewrite concat_slices. simpl. rewrite drop_0.
    apply take_ge. apply ceil_div_cover. done.
  - rewrite length_fmap, length_seq. apply ceil_div_ceil_div; done.
  - apply Forall_forall. intros c Hc.
    apply list_elem_of_lookup in Hc as [k Hk].
    apply Hget in Hk as [Hk ->]. specialize (Hm k Hk).
    intros E0. apply (f_equal length) in E0. unfold py_slice in E0.
    rewrite length_take, length_drop in E0. simpl in E0. lia.
  - intros k c Hk. apply Hget in Hk as [Hk ->].
    rewrite length_fmap, length_seq. unfold py_slice.
    rewrite length_take, length_drop. pose proof (Hm k Hk) as Hk1.
    case_decide as Hlast.
    + pose proof (Hm (S k) Hlast). lia.
    + lia.
  - intros Hfew.
    assert (cs = 1) as Hone.
    { destruct (decide (cs < 2)) as [|Hbig]; [lia|].
      assert (1 < ceil_div (length data) workers) as H1 by (fold cs; lia).
      apply ceil_div_lt in H1; [lia|done]. }
    assert (m = length data) as Hmlen.
    { unfold m. rewrite Hone. unfold ceil_div.
      replace (length data + 1 - 1) with (length data) by lia.
      apply Nat.div_1_r. }
    rewrite length_fmap, length_seq. split; [done|].
    apply Forall_forall. intros c Hc.
    apply list_elem_of_lookup in Hc as [k Hk].
    apply Hget in Hk as [Hk ->]. unfold py_slice.
    rewrite length_take, length_drop. specialize (Hm k Hk). lia.
Qed.

Lemma make_chunks_nil {A : Type} (n : Z) :
  make_chunks n ([] : list A) = None.
Proof. apply make_chunks_raises. simpl. lia. Qed.

(** C2 fails on the code for [T = 0]: the chunk size is then 0 and
    [range(0, 0, 0)] raises [ValueError], whatever the worker count. *)
Theorem make_chunks_empty_raises {A : Type} (n : Z) :
  make_chunks n ([] : list A) = None.
Proof. apply make_chunks_nil. Qed.


(** ** Programs *)

Lemma answers_bind {A B : Type} (Q : A -> Prop) (R : B -> Prop)
    (p : prog A) (f : A -> prog B) :
  answers Q p -> (forall a, Q a -> answers R (f a)) -> answers R (bind p f).
Proof.
  induction p as [a| |k IH|d k IH|q k IH|i v k IH|k IH|c t m k IH];
    simpl; intros Hp Hf; try done; auto.
Qed.

Lemma answers_mono {A : Type} (Q R : A -> Prop) (p : prog A) :
  answers Q p -> (forall a, Q a -> R a) -> answers R p.
Proof.
  induction p as [a| |k IH|d k IH|q k IH|i v k IH|k IH|c t m k IH];
    simpl; intros Hp Hf; try done; auto.
Qed.

Lemma writes_in_bind {A B : Type} (P : nat -> str -> Prop) (Q : A -> Prop)
    (p : prog A) (f : A -> prog B) :
  answers Q p -> (forall a, Q a -> writes_in P (f a)) ->
  writes_in P (bind p f).
Proof.
  induction p as [a| |k IH|d k IH|q k IH|i v k IH|k IH|c t m k IH];
    simpl; intros Hp Hf; try done; auto.
Qed.

Lemma stop_ok_bind {A B : Type} (ix wrote : list nat) (Q : A -> Prop)
    (p : prog A) (f : A -> prog B) :
  answers Q p -> (forall a, Q a -> stop_ok ix wrote (f a)) ->
  stop_ok ix wrote (bind p f).
Proof.
  induction p as [a| |k IH|d k IH|q k IH|i v k IH|k IH|c t m k IH];
    simpl; intros Hp Hf; try done; auto.
Qed.

Lemma writes_in_mono {A : Type} (P P' : nat -> str -> Prop) (p : prog A) :
  writes_in P p -> (forall i v, P i v -> P' i v) -> writes_in P' p.
Proof.
  induction p as [a| |k IH|d k IH|q k IH|i v k IH|k IH|c t m k IH];
    simpl; intros Hp Hf; try done; auto.
  destruct Hp. auto.
Qed.

Lemma writes_in_write_slots {A : Type} (P : nat -> str -> Prop)
    (pairs : list (nat * str)) (k : prog A) :
  Forall (fun iv => P iv.1 iv.2) pairs -> writes_in P k ->
  writes_in P (write_slots pairs k).
Proof.
  induction 1 as [|[i v] pairs Hiv _ IH]; simpl; auto.
Qed.

Lemma stop_ok_write_slots {A : Type} (ix : list nat)
    (pairs : list (nat * str)) (k : prog A) :
  forall wrote,
    stop_ok ix (rev pairs.*1 ++ wrote) k ->
    stop_ok ix wrote (write_slots pairs k).
Proof.
  induction pairs as [|[i v] pairs IH]; intros wrote; simpl; [done|].
  intros H. apply IH. by rewrite <- app_assoc in H.
Qed.

(** *** Line feeds *)

Lemma clean_drop_while (p : ascii -> bool) (s : str) :
  clean s -> clean (drop_while p s).
Proof.
  induction 1 as [|c s Hc Hs IH]; simpl; [constructor|].
  destruct (p c); [done|]. by constructor.
Qed.

Lemma clean_take_while (p : ascii -> bool) (s : str) :
  clean s -> clean (take_while p s).
Proof.
  induction 1 as [|c s Hc Hs IH]; simpl; [constructor|].
  destruct (p c); by constructor.
Qed.

Lemma clean_strip (s : str) : clean s -> clean (py_strip s).
Proof.
  intros H. unfold py_strip, py_rstrip, py_lstrip, clean.
  apply Forall_rev, clean_drop_while, Forall_rev. by apply clean_drop_while.
Qed.

Lemma clean_take_not_newline (s : str) : clean (take_while not_newline s).
Proof.
  induction s as [|c s IH]; simpl; [constructor|].
  destruct (not_newline c) eqn:E; constructor; [|done].
  intros ->. unfold not_newline in E. by rewrite Ascii.eqb_refl in E.
Qed.

Lemma clean_delim : clean delim.
Proof. repeat constructor; discriminate. Qed.

Lemma cut_clean (sep s a b : str) :
  cut sep s = Some (a, b) -> clean s -> clean a /\ clean b.
Proof.
  intros Hcut%cut_app Hs. subst. unfold clean in *.
  rewrite !Forall_app in Hs. tauto.
Qed.

Lemma split_rounds_clean (n : nat) (sep s : str) :
  clean s -> Forall clean (split_rounds n sep s).
Proof.
  revert s. induction n as [|n IH]; intros s Hs; simpl; [by repeat constructor|].
  destruct (cut sep s) as [[a b]|] eqn:E; [|by repeat constructor].
  destruct (cut_clean _ _ _ _ E Hs). constructor; auto.
Qed.

Lemma cut_nl_cons (c : ascii) (s : str) :
  cut nl (c :: s)
  = if decide (newline = c) then Some ([], s)
    else match cut nl s with
         | Some (a, b) => Some (c :: a, b)
         | None => None
         end.
Proof. unfold nl. simpl. destruct (decide (newline = c)); done. Qed.

Lemma cut_nl_None (s : str) : cut nl s = None -> clean s.
Proof.
  induction s as [|c s IH]; [intros _; constructor|]. rewrite cut_nl_cons.
  destruct (decide (newline = c)) as [|Hc]; [done|].
  destruct (cut nl s) as [[a b]|] eqn:E; [done|]. intros _.
  constructor; [congruence|]. by apply IH.
Qed.

Lemma cut_nl_Some (s a b : str) : cut nl s = Some (a, b) -> clean a.
Proof.
  revert a. induction s as [|c s IH]; intros a; [done|]. rewrite cut_nl_cons.
  destruct (decide (newline = c)) as [|Hc].
  - intros [= <- _]. constructor.
  - destruct (cut nl s) as [[a' b']|] eqn:E; [|done]. intros [= <- <-].
    constructor; [congruence|]. by apply IH.
Qed.

Lemma split_lines_clean (n : nat) (s : str) :
  length s <= n -> Forall clean (split_rounds n nl s).
Proof.
  revert s. induction n as [|n IH]; intros s Hn; simpl.
  - destruct s; [|simpl in Hn; lia]. by repeat constructor.
  - destruct (cut nl s) as [[a b]|] eqn:E.
    + constructor; [by eapply cut_nl_Some|]. apply IH.
      apply cut_length in E. simpl in E. lia.
    + repeat constructor. by apply cut_nl_None.
Qed.

Lemma map_clean_insert (m : gmap str str) (k v : str) :
  map_clean m -> clean v -> map_clean (<[k := v]> m).
Proof.
  intros Hm Hv k' v'. rewrite lookup_insert.
  case_decide; [by intros [= <-]|]. apply Hm.
Qed.

Lemma parse_line_clean (m m' : gmap str str) (line : str) :
  parse_line m line = Some m' -> clean line -> map_clean m -> map_clean m'.
Proof.
  unfold parse_line. intros H Hline Hm.
  destruct (py_in delim line) eqn:Hin.
  - apply py_in_cut in Hin as (a & b & Hcut).
    unfold py_split1 in H. rewrite Hcut in H. simpl in H.
    injection H as <-. apply map_clean_insert; [done|].
    apply clean_strip. by destruct (cut_clean _ _ _ _ Hcut Hline).
  - destruct (fallback_match line) as [[g1 g2]|] eqn:E.
    + injection H as <-. apply map_clean_insert; [done|].
      apply clean_strip. unfold fallback_match in E.
      destruct (take_while is_digit line); [done|].
      destruct (drop_while is_space (drop_while is_digit line)); [done|].
      destruct (is_sep a0); [|done]. injection E as _ <-.
      apply clean_take_not_newline.
    + by injection H as <-.
Qed.

Lemma parse_lines_clean (lines : list str) :
  forall m m' : gmap str str,
    parse_lines m lines = Some m' -> Forall clean lines -> map_clean m ->
    map_clean m'.
Proof.
  induction lines as [|line lines IH]; intros m m'; simpl.
  - by intros [= <-].
  - destruct (parse_line m line) as [m1|] eqn:E; [|done]. simpl.
    intros H Hl Hm. apply Forall_cons in Hl as [Hline Hlines].
    eapply IH; eauto. by eapply parse_line_clean.
Qed.

Lemma parse_response_clean (full_content : str) (m : gmap str str) :
  parse_response full_content = Some m -> map_clean m.
Proof.
  unfold parse_response, py_split. intros H.
  eapply parse_lines_clean; [exact H| |done].
  by apply split_lines_clean.
Qed.

Lemma reconcile_line_clean (m : gmap str str) (line r : str) :
  reconcile_line m line = Some r -> clean line -> map_clean m -> clean r.
Proof.
  intros H Hline Hm.
  pose proof (split_rounds_clean (length line) delim line Hline) as Hparts.
  fold (py_split delim line) in Hparts. rewrite Forall_forall in Hparts.
  unfold reconcile_line, py_item in H.
  destruct (py_split delim line !! 0) as [p0|] eqn:E0; [|done]. simpl in H.
  assert (clean p0) as Hp0.
  { apply Hparts. by eapply list_elem_of_lookup_2. }
  assert (exists fallback,
            (if py_in delim line then py_strip <$> py_split delim line !! 1
             else Some line) = Some fallback /\ clean fallback)
    as (fallback & Hf & Hfc).
  { destruct (py_in delim line).
    - destruct (py_split delim line !! 1) as [p1|] eqn:E1; [|done].
      exists (py_strip p1). split; [done|]. apply clean_strip.
      apply Hparts. by eapply list_elem_of_lookup_2.
    - eauto. }
  rewrite Hf in H. simpl in H. injection H as <-.
  change (clean (py_strip p0 ++ delim ++ default fallback (m !! py_strip p0))).
  unfold clean. rewrite !Forall_app. split; [by apply clean_strip|].
  split; [apply clean_delim|].
  destruct (m !! py_strip p0) as [v|] eqn:Ev; simpl; [by eapply Hm|done].
Qed.

Lemma reconcile_clean (m : gmap str str) (batch results : list str) :
  reconcile m batch = Some results -> Forall clean batch -> map_clean m ->
  Forall clean results.
Proof.
  intros H%reconcile_Forall2 Hb Hm.
  induction H as [|line r batch results Hr _ IH]; [constructor|].
  apply Forall_cons in Hb as [Hline Hb].
  constructor; [by eapply reconcile_line_clean|auto].
Qed.

(** *** What the translation client can return *)

Lemma stream_loop_answers (lines : list frame) :
  forall acc, answers (fun _ => True) (stream_loop lines acc).
Proof.
  induction lines as [|[|text delta] rest IH]; intros acc; simpl; auto.
  intros []; simpl; [done|].
  destruct text as [[|c line]|]; simpl; auto.
  repeat case_match; simpl; auto.
Qed.

Lemma try_block_answers (batch : list str) (st : Settings) (prompt : str) :
  answers (fun r => forall results, r = Some results -> results_ok batch results)
    (try_block batch st prompt).
Proof.
  unfold try_block. simpl. intros [|sc c ls]; simpl; [done|].
  case_decide; simpl.
  - intros results [= <-]. by split.
  - eapply answers_bind with (Q := fun _ => True).
    + destruct (stream st); [apply stream_loop_answers|done].
    + intros [full_content|] _; simpl; [|done].
      destruct (parse_response full_content) as [m|] eqn:Em; simpl; [|done].
      intros results Hres. split.
      * symmetry. eapply Forall2_length. by apply reconcile_Forall2.
      * intros Hb. eapply reconcile_clean; eauto.
        by eapply parse_response_clean.
Qed.

Lemma call_api_translate_answers (batch : list str) (st : Settings) :
  answers (results_ok batch) (call_api_translate batch st).
Proof.
  unfold call_api_translate. cbn [answers]. intros []; cbn [answers];
    [by split|].
  destruct (py_gt_zero (top_k st)); [|done].
  eapply answers_bind; [apply try_block_answers|].
  intros [results|] H; simpl; [by apply H|by split].
Qed.


(** ** Worker *)

Lemma py_range0_pos_Z (stop : nat) (step : Z) :
  (0 < step)%Z ->
  py_range0 stop step
  = Some ((fun k => k * Z.to_nat step)
            <$> seq 0 (ceil_div stop (Z.to_nat step))).
Proof.
  intros Hs. unfold py_range0.
  rewrite decide_False by lia. by rewrite decide_False by lia.
Qed.

Lemma py_range0_neg (stop : nat) (step : Z) :
  (step < 0)%Z -> py_range0 stop step = Some [].
Proof.
  intros Hs. unfold py_range0.
  rewrite decide_False by lia. by rewrite decide_True by lia.
Qed.

Lemma py_slice_subseteq {A : Type} (i n : nat) (xs : list A) :
  py_slice i n xs ⊆ xs.
Proof.
  unfold py_slice. etrans; [apply subseteq_take|apply subseteq_drop].
Qed.

Lemma py_slice_take {A : Type} (i n : nat) (xs : list A) :
  py_slice i n xs ⊆ take (i + n) xs.
Proof.
  unfold py_slice. rewrite take_add_drop. intros x Hx.
  apply elem_of_app. by right.
Qed.

Lemma zip_fst_subseteq {A B : Type} (l : list A) (k : list B) :
  (zip l k).*1 ⊆ l.
Proof.
  intros x Hx. apply list_elem_of_fmap in Hx as ([a b] & -> & Hab).
  by apply elem_of_zip_l in Hab.
Qed.

Lemma elem_of_rev {A : Type} (x : A) (l : list A) : x ∈ rev l <-> x ∈ l.
Proof. rewrite !list_elem_of_In. symmetry. apply in_rev. Qed.

Section WorkerFacts.
Variable st : Settings.
Variable lines : list str.
Variable ixs : list nat.

Lemma worker_loop_writes (starts : list nat) :
  Forall clean lines ->
  forall (processed : nat) (k : prog unit),
    writes_in (fun i v => i ∈ ixs /\ clean v) k ->
    writes_in (fun i v => i ∈ ixs /\ clean v)
      (worker_loop st lines ixs starts processed k).
Proof.
  intros Hlines. induction starts as [|i rest IH]; intros processed k Hk;
    cbn [worker_loop writes_in]; [done|].
  intros []; cbn [writes_in]; [done|].
  eapply writes_in_bind; [apply call_api_translate_answers|].
  intros tb [_ Htb]. apply writes_in_write_slots.
  - apply Forall_forall. intros [j v] Hjv. simpl. split.
    + apply elem_of_zip_l in Hjv. by eapply py_slice_subseteq.
    + apply elem_of_zip_r in Hjv.
      assert (Forall clean tb) as Hc.
      { apply Htb. unfold py_slice. by apply Forall_take, Forall_drop. }
      rewrite Forall_forall in Hc. by apply Hc.
  - cbn [writes_in]. by apply IH.
Qed.

Hypothesis same_length : length lines = length ixs.

Lemma worker_loop_stop_ok (k : prog unit) :
  (forall wrote, stop_ok ixs wrote k) ->
  writes_in (fun _ _ => False) k ->
  0 < Z.to_nat (batch_size st) ->
  forall (m a : nat) (wrote : list nat),
    (forall x, a <= x -> x < a + m ->
               x * Z.to_nat (batch_size st) < length lines) ->
    wrote ⊆ take (a * Z.to_nat (batch_size st)) ixs ->
    stop_ok ixs wrote
      (worker_loop st lines ixs
         ((fun x => x * Z.to_nat (batch_size st)) <$> seq a m)
         (a * Z.to_nat (batch_size st)) k).
Proof.
  intros Hk Hkw Hn. set (n := Z.to_nat (batch_size st)) in *.
  induction m as [|m IH]; intros a wrote Hm Hwrote; [apply Hk|].
  cbn [seq fmap list_fmap worker_loop stop_ok]. fold n.
  intros []; cbn [stop_ok].
  { split; [done|apply Hk]. }
  eapply stop_ok_bind; [apply call_api_translate_answers|].
  intros tb _. apply stop_ok_write_slots. cbn [stop_ok].
  split; [done|].
  destruct m as [|m]; [apply Hk|].
  assert (S a * n < length lines) as Hnext by (apply Hm; lia).
  assert (length (py_slice (a * n) n lines) = n) as ->.
  { unfold py_slice. rewrite length_take, length_drop. lia. }
  replace (a * n + n) with (S a * n) by lia.
  apply IH.
  - intros x ? ?. apply Hm; lia.
  - intros x Hx. apply elem_of_app in Hx as [Hx|Hx].
    + rewrite elem_of_rev in Hx. apply zip_fst_subseteq in Hx.
      apply py_slice_take in Hx. by replace (S a * n) with (a * n + n) by lia.
    + apply Hwrote in Hx. replace (S a * n) with (a * n + n) by lia.
      rewrite take_add_drop. apply elem_of_app. by left.
Qed.
End WorkerFacts.

Lemma worker_process_writes (chunk : list (str * nat)) (st : Settings) :
  Forall clean chunk.*1 ->
  writes_in (fun i v => i ∈ chunk.*2 /\ clean v) (worker_process chunk st).
Proof.
  intros Hc. unfold worker_process. cbn [writes_in].
  destruct (py_range0 _ _) as [starts|]; [|done].
  by apply worker_loop_writes.
Qed.

Lemma worker_process_stop_ok (chunk : list (str * nat)) (st : Settings) :
  stop_ok chunk.*2 [] (worker_process chunk st).
Proof.
  unfold worker_process. cbn [stop_ok]. split; [done|].
  destruct (Z.lt_trichotomy (batch_size st) 0) as [Hb|[Hb|Hb]].
  - rewrite py_range0_neg by done. simpl. done.
  - rewrite Hb. simpl. done.
  - rewrite py_range0_pos_Z by done.
    apply (worker_loop_stop_ok st chunk.*1 chunk.*2) with (a := 0).
    + by rewrite !length_fmap.
    + intros wrote. simpl. done.
    + simpl. done.
    + lia.
    + intros x _ Hx. by apply ceil_div_lt in Hx; [|lia].
    + done.
Qed.


(** ** The threads of a job *)

Lemma concat_lookup_elem {A : Type} (ls : list (list A)) (w : nat)
    (l : list A) (x : A) :
  ls !! w = Some l -> x ∈ l -> x ∈ concat ls.
Proof.
  intros Hw Hx. apply list_elem_of_In, in_concat. exists l.
  split; apply list_elem_of_In; [by eapply list_elem_of_lookup_2|done].
Qed.

Lemma owned_disjoint (owned : list (list nat)) (w w' : nat)
    (ix ix' : list nat) (i : nat) :
  NoDup (concat owned) ->
  owned !! w = Some ix -> owned !! w' = Some ix' -> w <> w' ->
  i ∈ ix -> i ∈ ix' -> False.
Proof.
  revert w w'. induction owned as [|l owned IH]; intros w w' Hnd Hw Hw' Hne Hi Hi';
    [done|].
  simpl in Hnd. apply NoDup_app in Hnd as (_ & Hdis & Hnd).
  destruct w as [|w], w' as [|w']; simpl in *; try done.
  - injection Hw as ->. apply (Hdis i Hi). by eapply concat_lookup_elem.
  - injection Hw' as ->. apply (Hdis i Hi'). by eapply concat_lookup_elem.
  - eapply (IH w w'); eauto.
Qed.

Lemma exec_app (evs1 evs2 : list Event) (j : Job) :
  exec (evs1 ++ evs2) j
  = match exec evs1 j with
    | Some j1 => exec evs2 j1
    | None => None
    end.
Proof.
  revert j. induction evs1 as [|e evs1 IH]; intros j; simpl; [done|].
  destruct (step e j); simpl; auto.
Qed.

Lemma step_stop_mono (e : Event) (j j' : Job) :
  step e j = Some j' -> stop_event (shared j) = true ->
  stop_event (shared j') = true.
Proof.
  destruct e as [|w input]; simpl.
  - by intros [= <-].
  - destruct (pool j !! w) as [th|]; [|done]. simpl.
    unfold thread_step.
    destruct (todo th); simpl; try done; try (by intros [= <-]).
    + case_decide; by intros [= <-].
    + destruct (save_progress_file _ _); [|done]. by intros [= <-].
Qed.

Lemma exec_stop_mono (evs : list Event) (j j' : Job) :
  exec evs j = Some j' -> stop_event (shared j) = true ->
  stop_event (shared j') = true.
Proof.
  revert j. induction evs as [|e evs IH]; intros j; simpl.
  - by intros [= <-].
  - destruct (step e j) as [j1|] eqn:E; [|done]. simpl.
    intros H Hs. eapply IH; [exact H|]. by eapply step_stop_mono.
Qed.

Lemma step_stop_same (w : nat) (input : Response) (j j' : Job) :
  step (EvRun w input) j = Some j' ->
  stop_event (shared j') = stop_event (shared j).
Proof.
  simpl. destruct (pool j !! w) as [th|]; [|done]. simpl.
  unfold thread_step.
  destruct (todo th); simpl; try done; try (by intros [= <-]).
  - case_decide; by intros [= <-].
  - destruct (save_progress_file _ _); [|done]. by intros [= <-].
Qed.

(** The flag is set at the end exactly when STOP was pressed on the way. *)
Lemma exec_stop_iff (evs : list Event) (j j' : Job) :
  exec evs j = Some j' -> stop_event (shared j) = false ->
  (stop_event (shared j') = true <-> EvStop ∈ evs).
Proof.
  revert j. induction evs as [|e evs IH]; intros j; simpl.
  - intros [= <-] ->. split; [done|]. intros H. by apply elem_of_nil in H.
  - destruct (step e j) as [j1|] eqn:E; [|done]. simpl. intros H Hs.
    destruct e as [|w input].
    + split; [intros _; left|intros _].
      eapply exec_stop_mono; [exact H|]. simpl in E. by injection E as <-.
    + rewrite (IH j1 H); [|by rewrite (step_stop_same _ _ _ _ E)].
      split; [by right|]. intros Hin. by apply elem_of_cons in Hin as [|].
Qed.

Section JobInvariant.
Variable init : list str.
Variable owned : list (list nat).
Variable fs0 : Files.
Hypothesis owned_NoDup : NoDup (concat owned).

Lemma job_inv_thread_update (j : Job) (w : nat) (ix : list nat)
    (th' : Thread) :
  job_inv init owned fs0 j ->
  owned !! w = Some ix ->
  thread_inv init (shared_output_lines (shared j)) ix th' ->
  job_inv init owned fs0 {| shared := shared j; pool := <[w := th']> (pool j) |}.
Proof.
  intros [Hlen Hclean Hpool Hthreads Hun Hlock Hout Htemp Hcps] Hw Hth'.
  constructor; simpl; try done.
  - by rewrite length_insert.
  - intros w' ix' th Hw' Hth.
    destruct (decide (w = w')) as [<-|Hne].
    + rewrite list_lookup_insert_eq in Hth
        by (rewrite Hpool; by eapply lookup_lt_Some).
      injection Hth as <-. by replace ix' with ix by congruence.
    + rewrite list_lookup_insert_ne in Hth by done. by eapply Hthreads.
Qed.

Lemma job_inv_step (e : Event) (j j' : Job) :
  job_inv init owned fs0 j -> step e j = Some j' -> job_inv init owned fs0 j'.
Proof.
  intros Hinv Hstep. destruct e as [|w input]; simpl in Hstep.
  { injection Hstep as <-. destruct Hinv. by constructor. }
  destruct (pool j !! w) as [th|] eqn:Hth; [|done]. simpl in Hstep.
  destruct (thread_step input (shared j) th) as [[sh th']|] eqn:Hts; [|done].
  injection Hstep as <-.
  assert (exists ix, owned !! w = Some ix) as [ix Hw].
  { apply lookup_lt_is_Some. rewrite <- (inv_pool _ _ _ _ Hinv).
    by eapply lookup_lt_Some. }
  pose proof (inv_threads _ _ _ _ Hinv w ix th Hw Hth)
    as (Hwr & wrote & Hso & Hun & Hst).
  unfold thread_step in Hts.
  destruct (todo th) as [a| |k|d k|q k|idx v k|k|c t m k] eqn:Htodo;
    try done; simpl in *.
  - (* IsSet *)
    injection Hts as <- <-. apply (job_inv_thread_update j w ix); [done..|].
    split; [apply Hwr|]. exists wrote. split; [apply Hso|]. split; [done|].
    intros c t Hc. destruct (Hst c t Hc) as [? Hno]. split; [done|apply Hno].
  - (* WaitForSlot *)
    injection Hts as <- <-. apply (job_inv_thread_update j w ix); [done..|].
    split; [done|]. by exists wrote.
  - (* Post *)
    injection Hts as <- <-. apply (job_inv_thread_update j w ix); [done..|].
    split; [apply Hwr|]. exists wrote. split; [apply Hso|]. split; [done|].
    intros c t Hc. destruct (Hst c t Hc) as [? Hno]. split; [done|apply Hno].
  - (* SetSlot *)
    destruct Hwr as [[Hidx Hv] Hwr]. case_decide as Hrange.
    + injection Hts as <- <-.
      destruct Hinv as [Hlen Hclean Hpool Hthreads Hunown Hlock Hout Htemp Hcps].
      constructor; simpl; try done.
      * by rewrite length_insert.
      * by apply Forall_insert.
      * by rewrite length_insert.
      * intros w' ix' th0 Hw' Hth0.
        destruct (decide (w = w')) as [<-|Hne].
        -- rewrite list_lookup_insert_eq in Hth0
             by (by eapply lookup_lt_Some).
           injection Hth0 as <-. replace ix' with ix by congruence.
           split; [done|]. exists (idx :: wrote). simpl.
           split; [done|]. split.
           ++ intros i Hi Hnot. rewrite list_lookup_insert_ne.
              ** apply Hun; [done|]. intros ?. apply Hnot. by right.
              ** intros ->. apply Hnot. left.
           ++ intros c t Hc. by destruct (Hst c t Hc) as [_ [[] _]].
        -- rewrite list_lookup_insert_ne in Hth0 by done.
           destruct (Hthreads w' ix' th0 Hw' Hth0)
             as (Hwr' & wrote' & Hso' & Hun' & Hst').
           split; [done|]. exists wrote'. split; [done|]. split; [|done].
           intros i Hi Hnot. rewrite list_lookup_insert_ne; [by apply Hun'|].
           intros ->. by eapply (owned_disjoint owned w w' ix ix' i).
      * intros i Hi. rewrite list_lookup_insert_ne; [by apply Hunown|].
        intros ->. apply Hi. by eapply concat_lookup_elem.
    + injection Hts as <- <-. apply (job_inv_thread_update j w ix); [done..|].
      split; [done|]. exists wrote. simpl. split; [done|]. split; [done|].
      intros c t Hc. by destruct (Hst c t Hc).
  - (* SaveProgress *)
    destruct Hinv as [Hlen Hclean Hpool Hthreads Hunown Hlock Hout Htemp Hcps].
    rewrite (save_progress_file_free _ _ Hlock) in Hts. simpl in Hts.
    injection Hts as <- <-.
    constructor; simpl; try done.
    + by rewrite length_insert.
    + intros w' ix' th0 Hw' Hth0.
      destruct (decide (w = w')) as [<-|Hne].
      * rewrite list_lookup_insert_eq in Hth0 by (by eapply lookup_lt_Some).
        injection Hth0 as <-. replace ix' with ix by congruence.
        split; [done|]. by exists wrote.
      * rewrite list_lookup_insert_ne in Hth0 by done. by eapply Hthreads.
    + constructor; [|done].
      exists (shared_output_lines (shared j)). by repeat split.
  - (* Ui *)
    injection Hts as <- <-. destruct Hso as [Hmsg Hso].
    apply (job_inv_thread_update j w ix); [done..|].
    split; [done|]. exists wrote. simpl. split; [done|]. split; [done|].
    intros c' t' Hc. apply elem_of_cons in Hc as [Hc|Hc].
    + injection Hc as -> -> <-. by apply Hmsg.
    + apply (Hst c' t' Hc).
Qed.

Lemma job_inv_exec (evs : list Event) (j j' : Job) :
  job_inv init owned fs0 j -> exec evs j = Some j' -> job_inv init owned fs0 j'.
Proof.
  revert j. induction evs as [|e evs IH]; intros j Hinv; simpl.
  - by intros [= <-].
  - destruct (step e j) as [j1|] eqn:E; [|done]. simpl.
    apply IH. by eapply job_inv_step.
Qed.

Hypothesis owned_range : Forall (fun i => i < length init) (concat owned).

End JobInvariant.


(** ** Coordinator *)

Lemma is_space_newline : is_space newline = true.
Proof. reflexivity. Qed.

Lemma drop_while_snoc_newline (s : str) :
  clean s ->
  exists s', clean s'
    /\ (drop_while is_space (s ++ [newline]) = s' ++ [newline]
        \/ drop_while is_space (s ++ [newline]) = []).
Proof.
  induction 1 as [|c s Hc Hs IH]; simpl.
  - exists []. split; [constructor|]. by right.
  - destruct (is_space c); [done|].
    exists (c :: s). split; [by constructor|]. by left.
Qed.

Lemma clean_strip_line (s : str) : clean s -> clean (py_strip (s ++ [newline])).
Proof.
  intros Hs. unfold py_strip, py_lstrip, py_rstrip.
  destruct (drop_while_snoc_newline s Hs) as (s' & Hs' & [-> | ->]).
  - rewrite rev_app_distr. simpl. unfold clean.
    apply Forall_rev. apply clean_drop_while. by apply Forall_rev.
  - constructor.
Qed.

Lemma readlines_from_clean (content cur : str) :
  clean cur ->
  Forall (fun l => clean (py_strip l)) (readlines_from cur content).
Proof.
  revert cur. induction content as [|c content IH]; intros cur Hcur; simpl.
  - destruct cur; constructor; [|constructor].
    apply clean_strip. by apply Forall_rev.
  - destruct (decide (c = newline)) as [->|Hc].
    + constructor; [|apply IH; constructor].
      simpl. apply clean_strip_line. by apply Forall_rev.
    + apply IH. by constructor.
Qed.

Lemma read_raw_clean (content : str) : Forall clean (read_raw content).
Proof.
  unfold read_raw, readlines. apply Forall_fmap.
  apply (readlines_from_clean (universal_newlines content) []). constructor.
Qed.

Lemma py_split_head (sep s : str) :
  exists p rest, py_split sep s = p :: rest.
Proof.
  pose proof (split_rounds_nonempty (length s) sep s) as H.
  unfold py_split. destruct (split_rounds _ _ _); [done|eauto].
Qed.

Lemma init_slot_total (line : str) :
  clean line -> exists slot, init_slot line = Some slot /\ clean slot.
Proof.
  intros Hline. unfold init_slot. destruct (py_in delim line); [|eauto].
  pose proof (split_rounds_clean (length line) delim line Hline) as Hparts.
  fold (py_split delim line) in Hparts.
  destruct (py_split_head delim line) as (p & rest & E). rewrite E in *.
  simpl. eexists. split; [done|].
  apply Forall_cons in Hparts as [Hp _]. unfold clean.
  apply Forall_app. split; [by apply clean_strip|apply clean_delim].
Qed.

Lemma mapM_init_slot (raw : list str) :
  Forall clean raw ->
  exists slots, mapM init_slot raw = Some slots
                /\ length slots = length raw /\ Forall clean slots.
Proof.
  induction 1 as [|line raw Hline _ (slots & E & Hlen & Hc)]; simpl.
  - exists []. by repeat split.
  - destruct (init_slot_total line Hline) as (slot & -> & Hslot). simpl.
    rewrite E. simpl. exists (slot :: slots). repeat split; simpl; auto.
Qed.

Lemma data_points_fst (raw : list str) :
  (data_points raw).*1 = drop (start_off raw) raw.
Proof.
  unfold data_points. rewrite fmap_imap.
  generalize (start_off raw) at 1 as off. intros off.
  generalize (drop (start_off raw) raw) as l. intros l.
  revert off. induction l as [|x l IH]; intros off; simpl; [done|].
  f_equal. rewrite <- (IH (S off)) at 2. apply imap_ext. intros i y _. simpl.
  done.
Qed.

Lemma data_points_snd (raw : list str) :
  (data_points raw).*2
  = seq (start_off raw) (length raw - start_off raw).
Proof.
  unfold data_points. rewrite fmap_imap.
  rewrite <- length_drop.
  generalize (start_off raw) at 1 3 as off. intros off.
  generalize (drop (start_off raw) raw) as l. intros l.
  revert off. induction l as [|x l IH]; intros off; simpl; [done|].
  f_equal; [lia|]. rewrite <- (IH (S off)). apply imap_ext. intros i y _.
  simpl. lia.
Qed.

Lemma concat_fmap_snd {A B : Type} (chunks : list (list (A * B))) :
  concat ((fun chunk => chunk.*2) <$> chunks) = (concat chunks).*2.
Proof.
  induction chunks as [|c chunks IH]; simpl; [done|].
  rewrite fmap_app. f_equal. exact IH.
Qed.

Lemma NoDup_concat_lookup {A : Type} (ls : list (list A)) (w : nat)
    (l : list A) :
  NoDup (concat ls) -> ls !! w = Some l -> NoDup l.
Proof.
  revert w. induction ls as [|l0 ls IH]; intros w Hnd Hw; [done|].
  simpl in Hnd. apply NoDup_app in Hnd as (Hl0 & _ & Hls).
  destruct w as [|w]; simpl in Hw; [by injection Hw as <-|eauto].
Qed.

(** What [run_logic] sets up when it does not raise. *)
Lemma run_logic_start (content : str) (st : Settings) (fs : Files) (j0 : Job) :
  run_logic content st fs = Some j0 ->
  let raw := read_raw content in
  exists chunks : list (list (str * nat)),
    make_chunks (threads st) (data_points raw) = Some chunks
    /\ concat chunks = data_points raw
    /\ Forall (fun c => c <> []) chunks
    /\ chunks <> []
    /\ mapM init_slot raw = Some (shared_output_lines (shared j0))
    /\ length (shared_output_lines (shared j0)) = length raw
    /\ Forall clean (shared_output_lines (shared j0))
    /\ stop_event (shared j0) = false
    /\ files (shared j0) = fs
    /\ checkpoints (shared j0) = []
    /\ pool j0 = (fun chunk => {| todo := worker_process chunk st;
                                  widget := [] |}) <$> chunks.
Proof.
  intros Hrun raw. unfold run_logic in Hrun. fold raw in Hrun.
  destruct (mapM_init_slot raw (read_raw_clean content))
    as (slots & Eslots & Hlen & Hclean).
  rewrite Eslots in Hrun. simpl in Hrun.
  destruct (make_chunks (threads st) (data_points raw)) as [chunks|] eqn:Ec;
    [|done].
  simpl in Hrun. injection Hrun as <-. simpl.
  exists chunks. split; [done|].
  pose proof (make_chunks_bound _ _ _ Ec) as Hb.
  assert (data_points raw <> []) as Hne.
  { intros E. rewrite E in Hb. simpl in Hb. lia. }
  destruct (make_chunks_spec (threads st) (data_points raw) Hb)
    as (chunks' & Ec' & Hcat & _ & Hnon & _).
  rewrite Ec in Ec'. injection Ec' as <-.
  repeat split; try done.
  intros ->. simpl in Hcat. congruence.
Qed.

Lemma run_logic_owned (content : str) (st : Settings)
    (chunks : list (list (str * nat))) :
  concat chunks = data_points (read_raw content) ->
  let owned := (fun chunk : list (str * nat) => chunk.*2) <$> chunks in
  NoDup (concat owned)
  /\ Forall (fun i => start_off (read_raw content) <= i
                      /\ i < length (read_raw content)) (concat owned).
Proof.
  intros Hcat owned. unfold owned.
  rewrite concat_fmap_snd, Hcat, data_points_snd.
  split; [apply NoDup_seq|].
  apply Forall_forall. intros i Hi. apply elem_of_seq in Hi. lia.
Qed.

Lemma run_logic_inv (content : str) (st : Settings) (fs : Files) (j0 : Job)
    (chunks : list (list (str * nat))) :
  file_write_lock fs = false ->
  run_logic content st fs = Some j0 ->
  make_chunks (threads st) (data_points (read_raw content)) = Some chunks ->
  job_inv (shared_output_lines (shared j0))
    ((fun chunk : list (str * nat) => chunk.*2) <$> chunks) fs j0.
Proof.
  intros Hlock Hrun Hchunks.
  destruct (run_logic_start content st fs j0 Hrun)
    as (chunks' & Ec & Hcat & Hnon & Hne & Hslots & Hlen & Hclean & Hstop
        & Hfiles & Hcps & Hpool).
  simpl in Ec. rewrite Hchunks in Ec. injection Ec as <-.
  constructor; try done.
  - by rewrite Hpool, !length_fmap.
  - intros w ix th Hw Hth. rewrite Hpool in Hth.
    rewrite list_lookup_fmap in Hw. rewrite list_lookup_fmap in Hth.
    destruct (chunks !! w) as [chunk|] eqn:Hc; [|done].
    simpl in *. injection Hw as <-. injection Hth as <-.
    split; simpl.
    + apply worker_process_writes.
      assert (chunk.*1 ⊆ read_raw content) as Hsub.
      { intros x Hx. apply list_elem_of_fmap in Hx as ([l i] & -> & Hli).
        assert ((l, i) ∈ data_points (read_raw content)) as Hd.
        { rewrite <- Hcat. by eapply concat_lookup_elem. }
        apply (list_elem_of_fmap_2 fst) in Hd. rewrite data_points_fst in Hd.
        by eapply subseteq_drop. }
      pose proof (read_raw_clean content) as Hraw.
      rewrite Forall_forall in Hraw. apply Forall_forall. auto.
    + exists []. split; [apply worker_process_stop_ok|]. split; [done|].
      intros c t Hin. by apply elem_of_nil in Hin.
  - by rewrite Hfiles.
  - by rewrite Hfiles.
  - by rewrite Hcps, Hfiles.
  - rewrite Hcps. constructor.
Qed.


(** ** Jobs *)

Lemma init_slot_header (header : str) :
  startswith (lit "0:::") header = true -> init_slot header = Some (lit "0:::").
Proof.
  intros H%startswith_app. simpl in H.
  assert (cut delim header = Some (lit "0", drop 4 header)) as Hcut.
  { rewrite H. reflexivity. }
  unfold init_slot.
  assert (py_in delim header = true) as -> by (apply py_in_cut; eauto).
  by rewrite (py_split_cut _ _ _ _ delim_nonempty Hcut).
Qed.

Lemma clean_not_elem (s : str) : clean s -> newline ∉ s.
Proof.
  unfold clean. rewrite Forall_forall. intros H Hin. by apply (H newline).
Qed.

Lemma clean_header : clean (lit "0:::").
Proof. repeat constructor; discriminate. Qed.

Lemma header_clear : carriage_return ∉ lit "0:::".
Proof.
  intros H. repeat (apply elem_of_cons in H as [H|H]; [discriminate H|]).
  by apply elem_of_nil in H.
Qed.

Lemma run_logic_header (content : str) (st : Settings) (fs : Files)
    (j0 : Job) (header : str) (rest : list str) :
  read_raw content = header :: rest ->
  startswith (lit "0:::") header = true ->
  run_logic content st fs = Some j0 ->
  shared_output_lines (shared j0) !! 0 = Some (lit "0:::")
  /\ forall chunks,
      make_chunks (threads st) (data_points (read_raw content)) = Some chunks ->
      0 ∉ concat ((fun chunk : list (str * nat) => chunk.*2) <$> chunks).
Proof.
  intros Hraw Hhead Hrun.
  destruct (run_logic_start content st fs j0 Hrun)
    as (chunks & Ec & Hcat & _ & _ & Hslots & _).
  simpl in Ec, Hslots. rewrite Hraw in Hslots. cbn [mapM] in Hslots.
  rewrite (init_slot_header _ Hhead) in Hslots. simpl in Hslots.
  destruct (mapM init_slot rest) as [slots|]; [|done]. simpl in Hslots.
  injection Hslots as <-. split; [done|].
  intros chunks' Ec'. rewrite Ec in Ec'. injection Ec' as <-.
  destruct (run_logic_owned content st chunks Hcat) as [_ Hrange].
  intros H0. rewrite Forall_forall in Hrange. apply Hrange in H0.
  rewrite Hraw in H0. unfold start_off, has_header in H0.
  rewrite Hhead in H0. lia.
Qed.

(** C10.  When the first line starts with ["0:::"], slot 0 is ["0:::"] at
    the start and in every state of the job, no worker has a write to
    index 0 in its program, slot 0 is ["0:::"] in every checkpoint written
    during the job and in the final output once promoted; and the job does
    not depend on the text of the header at all. *)
Theorem header_slot_frozen (content : str) (st : Settings) (fs : Files)
    (j0 : Job) (evs : list Event) (j : Job) (header : str) (rest : list str) :
  file_write_lock fs = false ->
  read_raw content = header :: rest ->
  startswith (lit "0:::") header = true ->
  run_logic content st fs = Some j0 ->
  exec evs j0 = Some j ->
  shared_output_lines (shared j0) !! 0 = Some (lit "0:::")
  /\ shared_output_lines (shared j) !! 0 = Some (lit "0:::")
  /\ Forall (fun th => writes_in (fun idx _ => idx <> 0) (todo th)) (pool j)
  /\ Forall (fun text => file_lines text !! 0 = Some (lit "0:::"))
       (checkpoints (shared j))
  /\ (forall fs', promote j = Some fs' -> stop_event (shared j) = false ->
      checkpoints (shared j) <> [] ->
      exists out, output_file fs' = Some out
                  /\ file_lines out !! 0 = Some (lit "0:::"))
  /\ (forall content' header',
        read_raw content' = header' :: rest ->
        startswith (lit "0:::") header' = true ->
        run_logic content' st fs = Some j0).
Proof.
  intros Hlock Hraw Hhead Hrun Hexec.
  destruct (run_logic_start content st fs j0 Hrun)
    as (chunks & Ec & Hcat & _).
  destruct (run_logic_header content st fs j0 header rest Hraw Hhead Hrun)
    as [Hinit Hfree]. specialize (Hfree chunks Ec).
  destruct (run_logic_owned content st chunks Hcat) as [Hnd _].
  pose proof (run_logic_inv content st fs j0 chunks Hlock Hrun Ec) as Hinv0.
  pose proof (job_inv_exec _ _ _ Hnd evs j0 j Hinv0 Hexec) as Hinv.
  assert (Forall (fun text => file_lines text !! 0 = Some (lit "0:::"))
            (checkpoints (shared j))) as Hcps.
  { eapply Forall_impl; [apply (inv_checkpoints _ _ _ _ Hinv)|].
    intros text (slots & -> & _ & _ & Hun). specialize (Hun 0 Hfree).
    rewrite Hinit in Hun. destruct slots as [|slot slots]; [done|].
    injection Hun as ->. apply file_lines_checkpoint_head;
      [apply clean_not_elem, clean_header|apply header_clear]. }
  split; [done|]. split; [|split; [|split; [done|split]]].
  - rewrite (inv_unowned _ _ _ _ Hinv 0 Hfree). done.
  - apply Forall_forall. intros th Hth.
    apply list_elem_of_lookup in Hth as [w Hth].
    assert (exists ix,
              ((fun chunk : list (str * nat) => chunk.*2) <$> chunks) !! w
              = Some ix) as [ix Hw].
    { apply lookup_lt_is_Some. rewrite <- (inv_pool _ _ _ _ Hinv).
      by eapply lookup_lt_Some. }
    destruct (inv_threads _ _ _ _ Hinv w ix th Hw Hth) as [Hwr _].
    eapply writes_in_mono; [exact Hwr|]. simpl. intros idx v [Hidx _] ->.
    apply Hfree. by eapply concat_lookup_elem.
  - intros fs' Hpro Hclear Hne. unfold promote in Hpro.
    destruct (joined j); [|done]. rewrite Hclear in Hpro.
    injection Hpro as <-. simpl.
    rewrite (inv_temp _ _ _ _ Hinv).
    destruct (checkpoints (shared j)) as [|text cps]; [done|].
    exists text. split; [done|]. by apply Forall_cons in Hcps as [? _].
  - intros content' header' Hraw' Hhead'. rewrite <- Hrun.
    unfold run_logic. rewrite Hraw, Hraw'. simpl.
    rewrite (init_slot_header _ Hhead), (init_slot_header _ Hhead').
    unfold data_points, start_off, has_header. by rewrite Hhead, Hhead'.
Qed.

(** C8.  Once every worker has been joined, having returned or died, the
    coordinator copies the checkpoint file over the final output when STOP
    was never pressed during the job, and leaves the final output as it
    was when STOP was pressed.  Either way the promotion does not touch the
    checkpoint file, and that file holds the newest checkpoint of the job
    as soon as the job has written one; a job in which no worker got as far
    as a flush leaves it as it was before the job, absent when it was. *)
Theorem promote_iff_never_stopped (content : str) (st : Settings) (fs : Files)
    (j0 : Job) (evs : list Event) (j : Job) :
  file_write_lock fs = false ->
  run_logic content st fs = Some j0 ->
  exec evs j0 = Some j ->
  joined j = true ->
  exists fs',
    promote j = Some fs'
    /\ temp_file fs' = temp_file (files (shared j))
    /\ temp_file (files (shared j))
       = match checkpoints (shared j) with
         | [] => temp_file fs
         | text :: _ => Some text
         end
    /\ (EvStop ∉ evs -> output_file fs' = temp_file (files (shared j)))
    /\ (EvStop ∈ evs -> output_file fs' = output_file fs).
Proof.
  intros Hlock Hrun Hexec Hjoined.
  destruct (run_logic_start content st fs j0 Hrun)
    as (chunks & Ec & Hcat & _ & _ & _ & _ & _ & Hstop & _).
  simpl in Ec.
  destruct (run_logic_owned content st chunks Hcat) as [Hnd _].
  pose proof (run_logic_inv content st fs j0 chunks Hlock Hrun Ec) as Hinv0.
  pose proof (job_inv_exec _ _ _ Hnd evs j0 j Hinv0 Hexec) as Hinv.
  pose proof (exec_stop_iff evs j0 j Hexec Hstop) as Hiff.
  unfold promote. rewrite Hjoined.
  destruct (stop_event (shared j)) eqn:Hflag.
  - eexists. split; [done|]. split; [done|].
    split; [apply (inv_temp _ _ _ _ Hinv)|]. split.
    + intros Hno. destruct Hno. by apply Hiff.
    + intros _. apply (inv_output _ _ _ _ Hinv).
  - eexists. split; [done|]. simpl. split; [done|].
    split; [apply (inv_temp _ _ _ _ Hinv)|]. split; [done|].
    intros Hin. apply Hiff in Hin. congruence.
Qed.

(** C6, as amended.  A worker that has seen [stop_event] set at the top of
    its loop, and so reported [MsgStopped] with [c] items processed, has no
    write left in its program, and every slot of its chunk from position
    [c] on still holds the value [run_logic] gave it. *)
Theorem stopped_worker_leaves_rest (content : str) (st : Settings)
    (fs : Files) (j0 : Job) (evs : list Event) (j : Job)
    (chunks : list (list (str * nat))) (w : nat) (chunk : list (str * nat))
    (th : Thread) (c t : nat) :
  file_write_lock fs = false ->
  run_logic content st fs = Some j0 ->
  make_chunks (threads st) (data_points (read_raw content)) = Some chunks ->
  exec evs j0 = Some j ->
  chunks !! w = Some chunk ->
  pool j !! w = Some th ->
  (c, t, MsgStopped) ∈ widget th ->
  writes_in (fun _ _ => False) (todo th)
  /\ forall pos line idx,
      c <= pos -> chunk !! pos = Some (line, idx) ->
      shared_output_lines (shared j) !! idx
      = shared_output_lines (shared j0) !! idx.
Proof.
  intros Hlock Hrun Ec Hexec Hchunk Hth Hstopped.
  destruct (run_logic_start content st fs j0 Hrun)
    as (chunks' & Ec' & Hcat & _).
  simpl in Ec'. rewrite Ec in Ec'. injection Ec' as <-.
  destruct (run_logic_owned content st chunks Hcat) as [Hnd _].
  pose proof (run_logic_inv content st fs j0 chunks Hlock Hrun Ec) as Hinv0.
  pose proof (job_inv_exec _ _ _ Hnd evs j0 j Hinv0 Hexec) as Hinv.
  assert (((fun chunk : list (str * nat) => chunk.*2) <$> chunks) !! w
          = Some chunk.*2) as Hw.
  { by rewrite list_lookup_fmap, Hchunk. }
  destruct (inv_threads _ _ _ _ Hinv w _ th Hw Hth)
    as (_ & wrote & _ & Hun & Hst).
  destruct (Hst c t Hstopped) as [Hsub Hno]. split; [done|].
  intros pos line idx Hpos Hlookup.
  assert (chunk.*2 !! pos = Some idx) as Hidx.
  { by rewrite list_lookup_fmap, Hlookup. }
  apply Hun; [by eapply list_elem_of_lookup_2|].
  intros Hin. apply Hsub in Hin.
  apply elem_of_take in Hin as (pos' & Hidx' & Hlt).
  pose proof (NoDup_concat_lookup _ _ _ Hnd Hw) as Hnd'.
  pose proof (NoDup_lookup _ _ _ _ Hnd' Hidx Hidx'). lia.
Qed.


(** ** Sample jobs *)

(** First end-to-end example of the specification. *)
Example translate_two_lines :
  (j0 ← run_logic two_lines (sample_settings 1 2 false) sample_files;
   j ← exec (replicate 10
               (EvRun 0 (HttpResponse 200
                           (Some (lit "1:::Xin chao" ++ nl ++ lit "2:::The gioi"))
                           []))) j0;
   Some (shared_output_lines (shared j)))
  = Some [lit "1:::Xin chao"; lit "2:::The gioi"].
Proof. vm_compute. reflexivity. Qed.

(** Second end-to-end example: a payload without any id. *)
Example translate_garbage :
  (j0 ← run_logic two_lines (sample_settings 1 2 false) sample_files;
   j ← exec (replicate 10 (EvRun 0 (answer "garbage"))) j0;
   Some (shared_output_lines (shared j)))
  = Some [lit "1:::Hello"; lit "2:::World"].
Proof. vm_compute. reflexivity. Qed.

(** Third end-to-end example: 100 entries, 4 workers. *)
Example chunks_100_4 :
  (chunks ← make_chunks 4 (seq 0 100);
   Some (map (fun c : list nat => (hd 0 c, length c)) chunks))
  = Some [(0, 25); (25, 25); (50, 25); (75, 25)].
Proof. vm_compute. reflexivity. Qed.

(** A file with nothing but a header: [run_logic] raises before any
    worker exists. *)
Example header_only_raises :
  run_logic (file_of ["0:::Key:::Text"%string]) (sample_settings 4 50 true)
    sample_files = None.
Proof. vm_compute. reflexivity. Qed.

(** C4 fails on the code.  The line [Hello] has no [":::"]; its slot starts
    as [Hello], but the line is part of the worker's chunk, and after one
    successful request the worker overwrites the slot with
    [Hello:::Hello], which is also what the final output gets. *)
Theorem bare_line_rewritten :
  read_raw (file_of ["Hello"%string]) = [lit "Hello"]
  /\ py_in delim (lit "Hello") = false
  /\ (j0 ← run_logic (file_of ["Hello"%string]) (sample_settings 1 50 false)
             sample_files;
      Some (shared_output_lines (shared j0)))
     = Some [lit "Hello"]
  /\ (j0 ← run_logic (file_of ["Hello"%string]) (sample_settings 1 50 false)
             sample_files;
      j ← exec (replicate 9 (EvRun 0 (answer "1:::Xin chao"))) j0;
      fs ← promote j;
      Some (shared_output_lines (shared j), output_file fs))
     = Some ([lit "Hello:::Hello"], Some (lit "Hello:::Hello" ++ nl)).
Proof. repeat split; vm_compute; reflexivity. Qed.

(** C9 fails on the code.  The answer to the one line of the file holds
    a carriage return inside the translated text.  The parser keeps it,
    the worker stores the text in its slot, and the flush writes the slot
    and a line feed.  A carriage return ends a line for whoever reads the
    file in text mode, as [run_logic] itself reads its input: the
    checkpoint, and the final output made from it, hold two lines for the
    one slot of the buffer, and neither line is the content of the slot. *)
Theorem carriage_return_breaks_line :
  (j0 ← run_logic (file_of ["1:::Hello"%string]) (sample_settings 1 50 false)
          sample_files;
   j ← exec (replicate 7 (EvRun 0 broken_answer)) j0;
   text ← temp_file (files (shared j));
   Some (shared_output_lines (shared j), text, file_lines text))
  = Some ([broken_text], broken_text ++ nl, [lit "1:::Xin"; lit "chao"])
  /\ (j0 ← run_logic (file_of ["1:::Hello"%string]) (sample_settings 1 50 false)
             sample_files;
      j ← exec (replicate 9 (EvRun 0 broken_answer)) j0;
      fs ← promote j;
      out ← output_file fs;
      Some (shared_output_lines (shared j), file_lines out))
     = Some ([broken_text], [lit "1:::Xin"; lit "chao"]).
Proof. split; vm_compute; reflexivity. Qed.

(** C6 as stated fails.  One worker streams the answer for its batch of two
    lines.  STOP is pressed after the first frame; the worker is then at
    the poll of the streaming loop, the flag is set and slot 0 still holds
    its placeholder.  The worker polls, sees the flag, leaves the loop, and
    writes what the frames read so far give: slot 0 becomes a translated
    line after the flag was observed. *)
Lemma stopped_midstream_still_writes :
  (j0 ← run_logic two_lines (sample_settings 1 2 true) sample_files;
   j1 ← exec (replicate 6
                (EvRun 0 (streamed [lit "1:::Xin chao" ++ nl;
                                    lit "2:::The gioi"]))
              ++ [EvStop]) j0;
   th ← pool j1 !! 0;
   j2 ← exec (replicate 2 (EvRun 0 PostRaises)) j1;
   Some (stop_event (shared j1), polling (todo th),
         shared_output_lines (shared j1) !! 0,
         shared_output_lines (shared j2) !! 0))
  = Some (true, true, Some (lit "1:::"), Some (lit "1:::Xin chao")).
Proof. vm_compute. reflexivity. Qed.

(** The same when the flag is first seen at the entry of
    [call_api_translate]: the batch comes back unchanged and the original
    lines replace the placeholders. *)
Lemma stopped_at_entry_writes_original :
  (j0 ← run_logic two_lines (sample_settings 1 2 false) sample_files;
   j1 ← exec (replicate 2 (EvRun 0 PostRaises) ++ [EvStop]) j0;
   th ← pool j1 !! 0;
   j2 ← exec (replicate 3 (EvRun 0 PostRaises)) j1;
   Some (polling (todo th),
         shared_output_lines (shared j1),
         shared_output_lines (shared j2)))
  = Some (true, [lit "1:::"; lit "2:::"], [lit "1:::Hello"; lit "2:::World"]).
Proof. vm_compute. reflexivity. Qed.

Lemma stopped_worker_leaves_rest_witness :
  writes_in (fun _ _ => False)
    (todo (default {| todo := Raise; widget := [] |} (pool two_lines_stopped !! 0)))
  /\ forall pos line idx,
      1 <= pos -> [(lit "1:::Hello", 0); (lit "2:::World", 1)] !! pos
                  = Some (line, idx) ->
      shared_output_lines (shared two_lines_stopped) !! idx
      = shared_output_lines (shared two_lines_job) !! idx.
Proof.
  apply (stopped_worker_leaves_rest two_lines (sample_settings 1 1 false)
           sample_files two_lines_job stop_after_first_batch two_lines_stopped
           [[(lit "1:::Hello", 0); (lit "2:::World", 1)]] 0
           [(lit "1:::Hello", 0); (lit "2:::World", 1)]
           (default {| todo := Raise; widget := [] |}
              (pool two_lines_stopped !! 0)) 1 2).
  - reflexivity.
  - reflexivity.
  - vm_compute. reflexivity.
  - reflexivity.
  - reflexivity.
  - reflexivity.
  - apply list_elem_of_In. vm_compute. auto.
Defined.

Lemma promote_iff_never_stopped_witness :
  (exists fs',
     promote with_header_done = Some fs'
     /\ temp_file fs' = temp_file (files (shared with_header_done))
     /\ temp_file (files (shared with_header_done))
        = match checkpoints (shared with_header_done) with
          | [] => temp_file sample_files
          | text :: _ => Some text
          end
     /\ (EvStop ∉ replicate 9 (EvRun 0 (answer "7:::Xin chao")) ->
         output_file fs' = temp_file (files (shared with_header_done)))
     /\ (EvStop ∈ replicate 9 (EvRun 0 (answer "7:::Xin chao")) ->
         output_file fs' = output_file sample_files))
  /\ (exists fs',
        promote two_lines_returned = Some fs'
        /\ temp_file fs' = temp_file (files (shared two_lines_returned))
        /\ temp_file (files (shared two_lines_returned))
           = match checkpoints (shared two_lines_returned) with
             | [] => temp_file sample_files
             | text :: _ => Some text
             end
        /\ (EvStop ∉ stop_after_first_batch ++ [EvRun 0 PostRaises] ->
            output_file fs' = temp_file (files (shared two_lines_returned)))
        /\ (EvStop ∈ stop_after_first_batch ++ [EvRun 0 PostRaises] ->
            output_file fs' = output_file sample_files)).
Proof.
  split.
  - apply (promote_iff_never_stopped with_header (sample_settings 1 50 false)
             sample_files with_header_job
             (replicate 9 (EvRun 0 (answer "7:::Xin chao"))) with_header_done).
    + reflexivity.
    + reflexivity.
    + reflexivity.
    + vm_compute. reflexivity.
  - apply (promote_iff_never_stopped two_lines (sample_settings 1 1 false)
             sample_files two_lines_job
             (stop_after_first_batch ++ [EvRun 0 PostRaises])
             two_lines_returned).
    + reflexivity.
    + reflexivity.
    + reflexivity.
    + vm_compute. reflexivity.
Defined.

Lemma header_slot_frozen_witness :
  shared_output_lines (shared with_header_job) !! 0 = Some (lit "0:::")
  /\ shared_output_lines (shared with_header_done) !! 0 = Some (lit "0:::")
  /\ Forall (fun th => writes_in (fun idx _ => idx <> 0) (todo th))
       (pool with_header_done)
  /\ Forall (fun text => file_lines text !! 0 = Some (lit "0:::"))
       (checkpoints (shared with_header_done))
  /\ (forall fs', promote with_header_done = Some fs' ->
      stop_event (shared with_header_done) = false ->
      checkpoints (shared with_header_done) <> [] ->
      exists out, output_file fs' = Some out
                  /\ file_lines out !! 0 = Some (lit "0:::"))
  /\ (forall content' header',
        read_raw content' = header' :: [lit "7:::Hello"] ->
        startswith (lit "0:::") header' = true ->
        run_logic content' (sample_settings 1 50 false) sample_files
        = Some with_header_job).
Proof.
  apply (header_slot_frozen with_header (sample_settings 1 50 false)
           sample_files with_header_job
           (replicate 9 (EvRun 0 (answer "7:::Xin chao"))) with_header_done
           (lit "0:::Key:::Text") [lit "7:::Hello"]).
  - reflexivity.
  - vm_compute. reflexivity.
  - reflexivity.
  - reflexivity.
  - reflexivity.
Defined.

(** What the sample job with a header ends with. *)
Example with_header_output :
  shared_output_lines (shared with_header_done)
  = [lit "0:::"; lit "7:::Xin chao"]
  /\ (output_file <$> promote with_header_done)
     = Some (Some (lit "0:::" ++ nl ++ lit "7:::Xin chao" ++ nl)).
Proof. split; vm_compute; reflexivity. Qed.


(** ** Rate limiter *)

Lemma idle_or_not (pc : limiter_pc) : pc = Idle \/ pc <> Idle.
Proof. destruct pc; auto. Qed.

Lemma limiter_idle_inv (d : Z) (s : Limiter) :
  limiter_idle s -> limiter_inv d s.
Proof.
  intros (Hlock & Hidle & Hgrants). rewrite Forall_forall in Hidle.
  constructor; rewrite ?Hgrants; simpl; try done.
  - intros t pc Ht Hpc. destruct Hpc. apply Hidle.
    by eapply list_elem_of_lookup_2.
  - intros t pc Ht. rewrite (Hidle pc); [done|by eapply list_elem_of_lookup_2].
Qed.

Lemma spaced_push (d : Z) (g : Z) (gs : list Z) :
  spaced d gs ->
  match gs with
  | [] => True
  | g0 :: _ => (g0 + d <= g)%Z /\ (g0 <= g)%Z
  end ->
  spaced d (g :: gs).
Proof.
  intros Hs Hg. simpl. split; [|done].
  destruct gs as [|g0 older]; [constructor|].
  destruct Hg as [Hd Hle]. constructor; [done|].
  destruct Hs as [Hold _]. eapply Forall_impl; [exact Hold|].
  simpl. intros g' [? ?]. lia.
Qed.

Lemma limiter_inv_step (d : Z) (e : LimiterEvent) (s s' : Limiter) :
  limiter_inv d s -> wait_for_slot_step d e s = Some s' -> limiter_inv d s'.
Proof.
  intros [Hhold Hpc Hlast Hpast Hsp] Hstep.
  destruct e as [el|t]; simpl in Hstep.
  - (* the clock moves *)
    case_decide as Hel; [|done]. injection Hstep as <-.
    constructor; simpl; try done.
    + intros t pc Ht. specialize (Hpc t pc Ht).
      destruct pc; simpl in *; lia.
    + eapply Forall_impl; [exact Hpast|]. simpl. intros g ?. lia.
  - destruct (callers s !! t) as [pc|] eqn:Ht; [|done]. simpl in Hstep.
    assert (t < length (callers s)) as Hlt by (by eapply lookup_lt_Some).
    assert (forall t' pc', t' <> t -> callers s !! t' = Some pc' ->
                           pc <> Idle -> pc' = Idle) as Hothers.
    { intros t' pc' Hne Ht' Hpc0.
      destruct (idle_or_not pc') as [|Hpc']; [done|].
      pose proof (Hhold t pc Ht Hpc0). pose proof (Hhold t' pc' Ht' Hpc').
      congruence. }
    assert (forall (s1 : Limiter) (pc1 : limiter_pc),
              pc <> Idle -> pc1 <> Idle ->
              now s1 = now s -> last_request_time s1 = last_request_time s ->
              request_lock s1 = request_lock s ->
              callers s1 = <[t := pc1]> (callers s) ->
              grants s1 = grants s ->
              pc_inv d s1 pc1 ->
              limiter_inv d s1) as Hsame.
    { intros s1 pc1 Hpc0 Hpc1 E1 E2 E3 E4 E5 Hinv1.
      constructor; rewrite ?E1, ?E2, ?E3, ?E4, ?E5; try done.
      - intros t' pc' Ht' Hpc'. destruct (decide (t' = t)) as [->|Hne].
        + by apply (Hhold t pc).
        + rewrite list_lookup_insert_ne in Ht' by done. by apply (Hhold t' pc').
      - intros t' pc' Ht'. destruct (decide (t' = t)) as [->|Hne].
        + rewrite list_lookup_insert_eq in Ht' by done. by injection Ht' as <-.
        + rewrite list_lookup_insert_ne in Ht' by done.
          rewrite (Hothers t' pc' Hne Ht' Hpc0). done. }
    pose proof (Hpc t pc Ht) as Hme.
    destruct pc as [| |ct|wake| |]; simpl in Hme.
    + (* acquire *)
      destruct (request_lock s) as [holder|] eqn:Hl; [done|].
      injection Hstep as <-.
      assert (forall t' pc', callers s !! t' = Some pc' -> pc' = Idle) as Hall.
      { intros t' pc' Ht'. destruct (idle_or_not pc') as [|Hpc']; [done|].
        pose proof (Hhold t' pc' Ht' Hpc'). congruence. }
      constructor; simpl; try done.
      * intros t' pc' Ht' Hpc'. destruct (decide (t' = t)) as [->|Hne]; [done|].
        rewrite list_lookup_insert_ne in Ht' by done.
        destruct Hpc'. by eapply Hall.
      * intros t' pc' Ht'. destruct (decide (t' = t)) as [->|Hne].
        -- rewrite list_lookup_insert_eq in Ht' by done. by injection Ht' as <-.
        -- rewrite list_lookup_insert_ne in Ht' by done.
           by rewrite (Hall t' pc' Ht').
    + injection Hstep as <-. apply (Hsame _ (Checked (now s))); try done.
      simpl. lia.
    + case_decide as Hel; injection Hstep as <-.
      * apply (Hsame _ (Sleeping (now s + (d - (ct - last_request_time s)))));
          try done. simpl. lia.
      * apply (Hsame _ Stamping); try done. simpl. lia.
    + case_decide as Hwake; [|done]. injection Hstep as <-.
      apply (Hsame _ Stamping); try done. simpl. lia.
    + (* line 93 *)
      injection Hstep as <-. constructor; simpl; try done.
      * intros t' pc' Ht' Hpc'. destruct (decide (t' = t)) as [->|Hne].
        -- by apply (Hhold t Stamping).
        -- rewrite list_lookup_insert_ne in Ht' by done. by apply (Hhold t' pc').
      * intros t' pc' Ht'. destruct (decide (t' = t)) as [->|Hne].
        -- rewrite list_lookup_insert_eq in Ht' by done. by injection Ht' as <-.
        -- rewrite list_lookup_insert_ne in Ht' by done.
           rewrite (Hothers t' pc' Hne Ht'); done.
      * constructor; [lia|done].
      * apply spaced_push; [done|].
        destruct (grants s) as [|g0 older]; [done|]. rewrite <- Hlast.
        apply Forall_cons in Hpast as [Hg0 _]. rewrite <- Hlast in Hg0. lia.
    + (* release *)
      injection Hstep as <-. constructor; simpl; try done.
      * intros t' pc' Ht' Hpc'. destruct (decide (t' = t)) as [->|Hne].
        -- rewrite list_lookup_insert_eq in Ht' by done. by injection Ht' as <-.
        -- rewrite list_lookup_insert_ne in Ht' by done.
           destruct Hpc'. by apply (Hothers t' pc' Hne Ht').
      * intros t' pc' Ht'. destruct (decide (t' = t)) as [->|Hne].
        -- rewrite list_lookup_insert_eq in Ht' by done. by injection Ht' as <-.
        -- rewrite list_lookup_insert_ne in Ht' by done.
           rewrite (Hothers t' pc' Hne Ht'); done.
Qed.

Lemma limiter_inv_exec (d : Z) (es : list LimiterEvent) (s s' : Limiter) :
  limiter_inv d s -> wait_for_slot_exec d es s = Some s' -> limiter_inv d s'.
Proof.
  revert s. induction es as [|e es IH]; intros s Hinv; simpl.
  - by intros [= <-].
  - destruct (wait_for_slot_step d e s) as [s1|] eqn:E; [|done]. simpl.
    apply IH. by eapply limiter_inv_step.
Qed.

Lemma spaced_lookup (d : Z) (gs : list Z) (i j : nat) (gi gj : Z) :
  spaced d gs -> i < j -> gs !! i = Some gi -> gs !! j = Some gj ->
  (gj + d <= gi)%Z.
Proof.
  revert i j. induction gs as [|g older IH]; intros i j Hs Hij Hi Hj; [done|].
  destruct Hs as [Hold Hs]. destruct j as [|j]; [lia|]. simpl in Hj.
  destruct i as [|i]; simpl in Hi.
  - injection Hi as <-. rewrite Forall_forall in Hold.
    apply (Hold gj). by eapply list_elem_of_lookup_2.
  - apply (IH i j); [done|lia|done|done].
Qed.

(** C7.  From a state with no call in progress, whatever the interleaving
    of the threads and of the clock: at most one thread is between the
    acquisition of [request_lock] and its release, so the check of lines
    89-92 and the update of line 93 of one call are not interleaved with
    those of another; and any two values given to [last_request_time] are
    at least [d] apart, the later one being the larger. *)
Theorem wait_for_slot_spacing (d : Z) (s0 : Limiter)
    (es : list LimiterEvent) (s : Limiter) :
  limiter_idle s0 ->
  wait_for_slot_exec d es s0 = Some s ->
  (forall t t' pc pc',
     callers s !! t = Some pc -> callers s !! t' = Some pc' ->
     pc <> Idle -> pc' <> Idle ->
     t = t' /\ request_lock s = Some t)
  /\ (forall i j gi gj,
        i < j -> grants s !! i = Some gi -> grants s !! j = Some gj ->
        (gj + d <= gi)%Z).
Proof.
  intros Hidle Hexec.
  pose proof (limiter_inv_exec d es s0 s (limiter_idle_inv d s0 Hidle) Hexec)
    as [Hhold _ _ _ Hsp].
  split.
  - intros t t' pc pc' Ht Ht' Hpc Hpc'.
    pose proof (Hhold t pc Ht Hpc). pose proof (Hhold t' pc' Ht' Hpc').
    split; congruence.
  - intros i j gi gj. by apply spaced_lookup.
Qed.

Lemma wait_for_slot_spacing_witness :
  (forall t t' pc pc',
     callers after_two_calls !! t = Some pc ->
     callers after_two_calls !! t' = Some pc' ->
     pc <> Idle -> pc' <> Idle ->
     t = t' /\ request_lock after_two_calls = Some t)
  /\ (forall i j gi gj,
        i < j -> grants after_two_calls !! i = Some gi ->
        grants after_two_calls !! j = Some gj ->
        (gj + 1300 <= gi)%Z).
Proof.
  apply (wait_for_slot_spacing 1300 two_callers two_calls after_two_calls).
  - split; [reflexivity|]. split; [|reflexivity]. by repeat constructor.
  - vm_compute. reflexivity.
Defined.

(** The two grants of the sample run. *)
Example two_calls_grants : grants after_two_calls = [6303%Z; 5000%Z].
Proof. vm_compute. reflexivity. Qed.

(** A thread cannot enter while another holds the lock. *)
Example second_caller_blocked :
  wait_for_slot_exec 1300 [Call 0; Call 1] two_callers = None.
Proof. vm_compute. reflexivity. Qed.


(** * Further properties *)

(** ** Partition and ownership *)

(** X1.  The Partitioner returns whenever the float quotient
    [total / n_threads] of line 645 is not rounded to zero, that is with
    fewer than [2^1075] threads for each entry (so the list is not empty).
    It then gives between 1 and [max(1, n)] non-empty chunks whose
    concatenation is the list, every chunk but the last has the size
    [ceil(T / n)], the last one is not larger, and with more workers than
    entries every chunk holds one entry. *)
Theorem make_chunks_partition {A : Type} (n : Z) (data : list A) :
  (Z.max 1 n < Z.of_nat (length data) * 2 ^ 1075)%Z ->
  exists chunks : list (list A),
    make_chunks n data = Some chunks
    /\ concat chunks = data
    /\ 1 <= length chunks <= Z.to_nat (Z.max 1 n)
    /\ Forall (fun c => c <> []) chunks
    /\ (forall k c, chunks !! k = Some c -> S k < length chunks ->
        length c = ceil_div (length data) (Z.to_nat (Z.max 1 n)))
    /\ (forall k c, chunks !! k = Some c ->
        length c <= ceil_div (length data) (Z.to_nat (Z.max 1 n)))
    /\ (length data < Z.to_nat (Z.max 1 n) ->
        length chunks = length data /\ Forall (fun c => length c = 1) chunks).
Proof.
  intros Hb.
  assert (data <> []) as Hne.
  { intros ->. simpl in Hb. lia. }
  destruct (make_chunks_spec n data Hb)
    as (chunks & E & Hcat & Hle & Hnon & Hsize & Hfew).
  exists chunks. split; [done|]. split; [done|]. split; [|split; [done|]].
  - split; [|done]. destruct chunks as [|c chunks]; [|simpl; lia].
    simpl in Hcat. congruence.
  - split; [|split; [|done]].
    + intros k c Hk Hlt. specialize (Hsize k c Hk).
      by rewrite decide_True in Hsize.
    + intros k c Hk. specialize (Hsize k c Hk). case_decide; lia.
Qed.

Lemma make_chunks_partition_witness :
  exists chunks : list (list nat),
    make_chunks 4 (seq 0 10) = Some chunks
    /\ concat chunks = seq 0 10
    /\ 1 <= length chunks <= Z.to_nat (Z.max 1 4)
    /\ Forall (fun c => c <> []) chunks
    /\ (forall k c, chunks !! k = Some c -> S k < length chunks ->
        length c = ceil_div (length (seq 0 10)) (Z.to_nat (Z.max 1 4)))
    /\ (forall k c, chunks !! k = Some c ->
        length c <= ceil_div (length (seq 0 10)) (Z.to_nat (Z.max 1 4)))
    /\ (length (seq 0 10) < Z.to_nat (Z.max 1 4) ->
        length chunks = length (seq 0 10)
        /\ Forall (fun c => length c = 1) chunks).
Proof. apply (make_chunks_partition 4 (seq 0 10)). vm_compute. reflexivity. Defined.

Lemma data_points_lookup (raw : list str) (k : nat) :
  data_points raw !! k
  = (fun line => (line, start_off raw + k)) <$> raw !! (start_off raw + k).
Proof.
  unfold data_points. by rewrite list_lookup_imap, lookup_drop.
Qed.

Lemma data_points_elem (raw : list str) (line : str) (i : nat) :
  (line, i) ∈ data_points raw <-> start_off raw <= i /\ raw !! i = Some line.
Proof.
  rewrite list_elem_of_lookup. split.
  - intros [k Hk]. rewrite data_points_lookup in Hk.
    destruct (raw !! (start_off raw + k)) as [l|] eqn:E; [|done].
    injection Hk as -> <-. split; [lia|done].
  - intros [Hoff Hi]. exists (i - start_off raw).
    rewrite data_points_lookup.
    replace (start_off raw + (i - start_off raw)) with i by lia.
    by rewrite Hi.
Qed.

Lemma make_chunks_concat {A : Type} (n : Z) (data : list A)
    (chunks : list (list A)) :
  make_chunks n data = Some chunks -> concat chunks = data.
Proof.
  intros E.
  destruct (make_chunks_spec n data (make_chunks_bound _ _ _ E))
    as (chunks' & E' & Hcat & _).
  congruence.
Qed.

(** X2.  Every pair handed to a worker ties a data line to its own index
    in the input, at or after the header offset; every data line of the
    input is in the chunk of some worker; and no index is in the chunks of
    two workers. *)
Theorem chunks_own_data_lines (n : Z) (raw : list str)
    (chunks : list (list (str * nat))) :
  make_chunks n (data_points raw) = Some chunks ->
  (forall w chunk pos line i,
     chunks !! w = Some chunk -> chunk !! pos = Some (line, i) ->
     raw !! i = Some line /\ start_off raw <= i)
  /\ (forall i line,
        raw !! i = Some line -> start_off raw <= i ->
        exists w chunk, chunks !! w = Some chunk /\ (line, i) ∈ chunk)
  /\ (forall w w' chunk chunk' line line' i,
        chunks !! w = Some chunk -> chunks !! w' = Some chunk' ->
        (line, i) ∈ chunk -> (line', i) ∈ chunk' -> w = w').
Proof.
  intros E. pose proof (make_chunks_concat _ _ _ E) as Hcat.
  split; [|split].
  - intros w chunk pos line i Hw Hpos.
    assert ((line, i) ∈ data_points raw) as Hin.
    { rewrite <- Hcat. eapply concat_lookup_elem; [exact Hw|].
      by eapply list_elem_of_lookup_2. }
    apply data_points_elem in Hin. tauto.
  - intros i line Hi Hoff.
    assert ((line, i) ∈ concat chunks) as Hin.
    { rewrite Hcat. by apply data_points_elem. }
    apply list_elem_of_In, in_concat in Hin as (chunk & Hchunk & Hin).
    apply list_elem_of_In, list_elem_of_lookup in Hchunk as [w Hw].
    exists w, chunk. split; [done|]. by apply list_elem_of_In.
  - intros w w' chunk chunk' line line' i Hw Hw' Hin Hin'.
    destruct (decide (w = w')) as [|Hne]; [done|]. exfalso.
    assert (NoDup (concat ((fun c : list (str * nat) => c.*2) <$> chunks)))
      as Hnd.
    { rewrite concat_fmap_snd, Hcat, data_points_snd. apply NoDup_seq. }
    apply (owned_disjoint _ w w' chunk.*2 chunk'.*2 i Hnd); try done.
    + by rewrite list_lookup_fmap, Hw.
    + by rewrite list_lookup_fmap, Hw'.
    + by apply (list_elem_of_fmap_2 snd) in Hin.
    + by apply (list_elem_of_fmap_2 snd) in Hin'.
Qed.

Lemma chunks_own_data_lines_witness :
  (forall w chunk pos line i,
     [[(lit "a", 1); (lit "b", 2)]; [(lit "c", 3)]] !! w = Some chunk ->
     chunk !! pos = Some (line, i) ->
     [lit "0:::h"; lit "a"; lit "b"; lit "c"] !! i = Some line
     /\ start_off [lit "0:::h"; lit "a"; lit "b"; lit "c"] <= i)
  /\ (forall i line,
        [lit "0:::h"; lit "a"; lit "b"; lit "c"] !! i = Some line ->
        start_off [lit "0:::h"; lit "a"; lit "b"; lit "c"] <= i ->
        exists w chunk,
          [[(lit "a", 1); (lit "b", 2)]; [(lit "c", 3)]] !! w = Some chunk
          /\ (line, i) ∈ chunk)
  /\ (forall w w' chunk chunk' line line' i,
        [[(lit "a", 1); (lit "b", 2)]; [(lit "c", 3)]] !! w = Some chunk ->
        [[(lit "a", 1); (lit "b", 2)]; [(lit "c", 3)]] !! w' = Some chunk' ->
        (line, i) ∈ chunk -> (line', i) ∈ chunk' -> w = w').
Proof.
  apply (chunks_own_data_lines 2 [lit "0:::h"; lit "a"; lit "b"; lit "c"]
           [[(lit "a", 1); (lit "b", 2)]; [(lit "c", 3)]]).
  vm_compute. reflexivity.
Defined.


(** ** Parsing and reconciling an answer *)

Lemma parse_line_delim (m : gmap str str) (line a b : str) :
  cut delim line = Some (a, b) ->
  parse_line m line = Some (<[py_strip a := py_strip b]> m).
Proof. intros Hc. unfold parse_line, py_in, py_split1. by rewrite Hc. Qed.

Lemma parse_line_total (m : gmap str str) (line : str) :
  is_Some (parse_line m line).
Proof.
  destruct (cut delim line) as [[a b]|] eqn:Hc.
  - rewrite (parse_line_delim m line a b Hc). eauto.
  - unfold parse_line, py_in. rewrite Hc.
    destruct (fallback_match line) as [[g1 g2]|]; eauto.
Qed.

Lemma parse_lines_app (lines1 lines2 : list str) :
  forall m : gmap str str,
    parse_lines m (lines1 ++ lines2)
    = match parse_lines m lines1 with
      | Some m1 => parse_lines m1 lines2
      | None => None
      end.
Proof.
  induction lines1 as [|line lines1 IH]; intros m; simpl; [done|].
  destruct (parse_line m line) as [m0|]; simpl; [apply IH|done].
Qed.

Lemma parse_lines_total (lines : list str) :
  forall m : gmap str str, is_Some (parse_lines m lines).
Proof.
  induction lines as [|line lines IH]; intros m; simpl; [eauto|].
  destruct (parse_line_total m line) as [m0 ->]. simpl. apply IH.
Qed.

Lemma parse_response_total (full_content : str) :
  is_Some (parse_response full_content).
Proof. apply parse_lines_total. Qed.

(** X3.  A request answered with status 200 and a readable body never
    ends in the [except] branch: with a [top_k] that compares with 0, so
    that the request is sent, and whatever the text of the answer, the
    parser builds a mapping, the reconciliation builds one line per batch
    line, and that list is what [call_api_translate] returns, after one
    poll of [stop_event]. *)
Theorem call_api_translate_success (env : Outside) (n : nat)
    (batch : list str) (st : Settings) (full_content : str)
    (lines : list frame) :
  is_Some (py_gt_zero (top_k st)) ->
  flag_at env n = false ->
  stream st = false ->
  response env = HttpResponse 200 (Some full_content) lines ->
  exists (translated_map : gmap str str) (results : list str),
    parse_response full_content = Some translated_map
    /\ reconcile translated_map batch = Some results
    /\ run env n (call_api_translate batch st) = Some (results, S n).
Proof.
  intros [g Hg] Hflag Hstream Hresp.
  destruct (parse_response_total full_content) as [m Hm].
  destruct (reconcile_total m batch) as [results Hres].
  exists m, results. split; [done|]. split; [done|].
  unfold call_api_translate. cbn [run]. rewrite Hflag. cbn [run]. rewrite Hg.
  rewrite run_bind. unfold try_block. cbn [run]. rewrite Hresp.
  case_decide as Hsc; [done|]. rewrite Hstream. cbn [bind run].
  simpl. rewrite Hm. simpl. by rewrite Hres.
Qed.

Lemma call_api_translate_success_witness :
  exists (translated_map : gmap str str) (results : list str),
    parse_response (lit "2:::The gioi") = Some translated_map
    /\ reconcile translated_map [lit "1:::Hello"; lit "2:::World"] = Some results
    /\ run {| flag_at := fun _ => false; response := answer "2:::The gioi" |} 0
         (call_api_translate [lit "1:::Hello"; lit "2:::World"]
            (sample_settings 1 50 false))
       = Some (results, 1).
Proof.
  apply (call_api_translate_success
           {| flag_at := fun _ => false; response := answer "2:::The gioi" |} 0
           [lit "1:::Hello"; lit "2:::World"] (sample_settings 1 50 false)
           (lit "2:::The gioi") []); [by eexists|reflexivity..].
Defined.

Lemma reconcile_line_found (m : gmap str str) (line a b t : str) :
  cut delim line = Some (a, b) ->
  m !! py_strip a = Some t ->
  reconcile_line m line = Some (py_strip a ++ delim ++ t).
Proof.
  intros Hc Hm. unfold reconcile_line.
  rewrite (py_split_cut delim line a b delim_nonempty Hc).
  assert (py_in delim line = true) as -> by (apply py_in_cut; eauto).
  destruct (split_rounds (length line - 1) delim b) as [|p ps] eqn:Hs;
    [by destruct (split_rounds_nonempty (length line - 1) delim b)|].
  simpl. by rewrite Hm.
Qed.

(** X4.  Parser and reconciliation together: when the answer ends with a
    line that holds [":::"] and carries the identifier of a batch line,
    whatever the lines before it gave for that identifier, the
    result for that batch line is its trimmed identifier, [":::"], and the
    trimmed text of that answer line; the text of the batch line itself
    plays no part. *)
Theorem answer_line_reaches_result (m : gmap str str) (lines : list str)
    (answer_line ra rb line a b : str) :
  cut delim answer_line = Some (ra, rb) ->
  cut delim line = Some (a, b) ->
  py_strip ra = py_strip a ->
  exists translated_map : gmap str str,
    parse_lines m (lines ++ [answer_line]) = Some translated_map
    /\ reconcile_line translated_map line
       = Some (py_strip a ++ delim ++ py_strip rb).
Proof.
  intros Hr Hc Hid. destruct (parse_lines_total lines m) as [m1 Hm1].
  exists (<[py_strip ra := py_strip rb]> m1). split.
  - rewrite parse_lines_app, Hm1. simpl.
    by rewrite (parse_line_delim m1 answer_line ra rb Hr).
  - apply (reconcile_line_found _ line a b); [done|].
    rewrite <- Hid. apply lookup_insert_eq.
Qed.

Lemma answer_line_reaches_result_witness :
  exists translated_map : gmap str str,
    parse_lines ∅ ([lit "9:::x"] ++ [lit " 12 ::: Xin chao "])
    = Some translated_map
    /\ reconcile_line translated_map (lit "12:::Hello:::there")
       = Some (py_strip (lit "12") ++ delim ++ py_strip (lit " Xin chao ")).
Proof.
  apply (answer_line_reaches_result ∅ [lit "9:::x"] (lit " 12 ::: Xin chao ")
           (lit " 12 ") (lit " Xin chao ") (lit "12:::Hello:::there")
           (lit "12") (lit "Hello:::there")); reflexivity.
Defined.


(** ** Reading a checkpoint back *)

Lemma readlines_from_line (cur line rest : str) :
  clean line ->
  readlines_from cur (line ++ nl ++ rest)
  = (rev cur ++ line ++ nl) :: readlines_from [] rest.
Proof.
  revert cur. unfold nl.
  induction line as [|c line IH]; intros cur Hnl; simpl.
  - destruct (decide (newline = newline)); [|done]. done.
  - apply Forall_cons in Hnl as [Hc Hnl].
    destruct (decide (c = newline)) as [->|_]; [done|].
    rewrite IH by done. simpl. by rewrite <- app_assoc.
Qed.

Lemma readlines_checkpoint (slots : list str) :
  Forall clean slots ->
  Forall (fun line => carriage_return ∉ line) slots ->
  readlines (checkpoint_text slots) = (fun line => line ++ nl) <$> slots.
Proof.
  intros Hc Hcr. unfold readlines.
  rewrite (universal_newlines_clear _ (checkpoint_text_clear _ Hcr)).
  clear Hcr. unfold checkpoint_text.
  induction Hc as [|line slots Hline _ IH]; simpl; [done|].
  rewrite <- app_assoc, (readlines_from_line [] line _ Hline). simpl.
  f_equal. exact IH.
Qed.

Lemma drop_while_nil_Forall (p : ascii -> bool) (s : str) :
  drop_while p s = [] -> Forall (fun c => p c = true) s.
Proof.
  induction s as [|c s IH]; simpl; [constructor|].
  destruct (p c) eqn:E; [|done]. intros H. constructor; auto.
Qed.

Lemma drop_while_app_l (p : ascii -> bool) (s t : str) :
  drop_while p s <> [] -> drop_while p (s ++ t) = drop_while p s ++ t.
Proof.
  induction s as [|c s IH]; simpl; [done|].
  destruct (p c); [apply IH|done].
Qed.

Lemma py_strip_line (s : str) : py_strip (s ++ nl) = py_strip s.
Proof.
  unfold py_strip, py_rstrip, py_lstrip, nl.
  destruct (drop_while is_space s) as [|c t] eqn:E.
  - apply drop_while_nil_Forall in E.
    rewrite (drop_while_app _ _ _ E). reflexivity.
  - rewrite drop_while_app_l by (by rewrite E). rewrite E.
    rewrite rev_app_distr. reflexivity.
Qed.

(** X5.  What [save_progress_file] writes, [run_logic] reads back line by
    line: for slots that hold neither line feed nor carriage return,
    reading the text of a checkpoint as an input file gives one line per
    slot, in order, each the slot with the white space at its ends
    removed. *)
Theorem checkpoint_read_back (slots : list str) :
  Forall clean slots ->
  Forall (fun line => carriage_return ∉ line) slots ->
  read_raw (checkpoint_text slots) = py_strip <$> slots
  /\ length (read_raw (checkpoint_text slots)) = length slots.
Proof.
  intros Hc Hcr.
  assert (read_raw (checkpoint_text slots) = py_strip <$> slots) as E.
  { unfold read_raw. rewrite (readlines_checkpoint slots Hc Hcr).
    rewrite <- list_fmap_compose. apply list_fmap_ext.
    intros i s _. simpl. apply py_strip_line. }
  split; [done|]. by rewrite E, length_fmap.
Qed.

Lemma checkpoint_read_back_witness :
  read_raw (checkpoint_text [lit "0:::"; lit " 1:::Xin chao "; []])
  = py_strip <$> [lit "0:::"; lit " 1:::Xin chao "; []]
  /\ length (read_raw (checkpoint_text [lit "0:::"; lit " 1:::Xin chao "; []]))
     = length [lit "0:::"; lit " 1:::Xin chao "; @nil ascii].
Proof.
  apply (checkpoint_read_back [lit "0:::"; lit " 1:::Xin chao "; []]).
  - repeat constructor; discriminate.
  - repeat constructor; intros H;
      repeat (apply elem_of_cons in H as [H|H]; [discriminate H|]);
      by apply elem_of_nil in H.
Defined.

(** ** Starting a job *)

Lemma data_points_length (raw : list str) :
  length (data_points raw) = length raw - start_off raw.
Proof.
  rewrite <- (length_fmap fst), data_points_fst. apply length_drop.
Qed.

(** X6.  Once the input file has been opened and decoded, [run_logic]
    gets as far as starting its workers exactly when the float quotient of
    line 645 is not rounded to zero: the file holds at least one line
    besides the header line, and there are fewer than [2^1075] threads for
    each such line.  Filling the output buffer never raises; in the other
    case [range] raises and the job ends in the [except] branch before any
    thread exists.  With fewer than [2^1075] threads the condition is just
    that there is a data line.  A job that starts has between one and
    [max(1, threads)] workers on a buffer with one slot per input line,
    with [stop_event] clear. *)
Theorem run_logic_starts_iff (content : str) (st : Settings) (fs : Files) :
  (is_Some (run_logic content st fs)
   <-> (Z.max 1 (threads st)
        < Z.of_nat (length (read_raw content) - start_off (read_raw content))
          * 2 ^ 1075)%Z)
  /\ ((Z.max 1 (threads st) < 2 ^ 1075)%Z ->
      (is_Some (run_logic content st fs)
       <-> start_off (read_raw content) < length (read_raw content)))
  /\ (forall j0, run_logic content st fs = Some j0 ->
        1 <= length (pool j0) <= Z.to_nat (Z.max 1 (threads st))
        /\ length (shared_output_lines (shared j0)) = length (read_raw content)
        /\ stop_event (shared j0) = false
        /\ files (shared j0) = fs).
Proof.
  destruct (mapM_init_slot (read_raw content) (read_raw_clean content))
    as (slots & Hslots & Hlen & _).
  pose proof (data_points_length (read_raw content)) as Hl.
  assert (is_Some (run_logic content st fs)
          <-> (Z.max 1 (threads st)
               < Z.of_nat (length (read_raw content)
                           - start_off (read_raw content)) * 2 ^ 1075)%Z)
    as Hiff.
  { rewrite <- Hl. split.
    - intros [j0 Hj]. unfold run_logic in Hj. rewrite Hslots in Hj.
      simpl in Hj.
      destruct (make_chunks (threads st) (data_points (read_raw content)))
        as [chunks|] eqn:Ec; [|done].
      by eapply make_chunks_bound.
    - intros Hb. unfold run_logic. rewrite Hslots. simpl.
      destruct (make_chunks_spec (threads st) _ Hb) as (chunks & -> & _).
      simpl. eauto. }
  split; [done|]. split.
  - intros Hfew. rewrite Hiff. split; [nia|].
    intros Hlt.
    assert (1 <= Z.of_nat (length (read_raw content)
                           - start_off (read_raw content)))%Z by lia.
    nia.
  - intros j0 Hj. unfold run_logic in Hj. rewrite Hslots in Hj. simpl in Hj.
    destruct (make_chunks (threads st) (data_points (read_raw content)))
      as [chunks0|] eqn:Ec; [|done].
    destruct (make_chunks_spec (threads st) _ (make_chunks_bound _ _ _ Ec))
      as (chunks & Hch & Hcat & Hle & _).
    rewrite Ec in Hch. injection Hch as <-.
    simpl in Hj. injection Hj as <-. simpl.
    rewrite length_fmap. repeat split; try done.
    destruct chunks0; [|simpl; lia].
    simpl in Hcat. rewrite <- Hcat in Hl. simpl in Hl.
    pose proof (make_chunks_bound _ _ _ Ec) as Hb. rewrite <- Hcat in Hb.
    simpl in Hb. lia.
Qed.


(** ** Slots and the lines they belong to *)














(** ** A batch size that is not positive *)

Lemma worker_process_touches_nothing (chunk : list (str * nat))
    (st : Settings) :
  (batch_size st <= 0)%Z -> touches_nothing (worker_process chunk st).
Proof.
  intros Hb. unfold worker_process. cbn [touches_nothing].
  destruct (decide (batch_size st = 0%Z)) as [E|E].
  - rewrite E. by rewrite py_range0_zero.
  - rewrite py_range0_neg by lia. simpl. done.
Qed.

Lemma touches_nothing_step (e : Event) (j j' : Job) :
  Forall (fun th => touches_nothing (todo th)) (pool j) ->
  step e j = Some j' ->
  Forall (fun th => touches_nothing (todo th)) (pool j')
  /\ shared_output_lines (shared j') = shared_output_lines (shared j)
  /\ files (shared j') = files (shared j)
  /\ checkpoints (shared j') = checkpoints (shared j).
Proof.
  intros Hpool Hstep. destruct e as [|w input]; simpl in Hstep.
  { injection Hstep as <-. done. }
  destruct (pool j !! w) as [th|] eqn:Hth; [|done]. simpl in Hstep.
  assert (touches_nothing (todo th)) as Hw.
  { rewrite Forall_forall in Hpool. apply Hpool.
    by eapply list_elem_of_lookup_2. }
  unfold thread_step in Hstep.
  destruct (todo th) as [a| |k|d k|q k|idx v k|k|c t msg k] eqn:Htodo;
    simpl in Hstep; try done; cbn [touches_nothing] in Hw;
    injection Hstep as <-; (split; [|done]); simpl;
    (apply Forall_insert; [done|simpl; auto]).
Qed.

Lemma touches_nothing_exec (evs : list Event) :
  forall j j',
    Forall (fun th => touches_nothing (todo th)) (pool j) ->
    exec evs j = Some j' ->
    shared_output_lines (shared j') = shared_output_lines (shared j)
    /\ files (shared j') = files (shared j)
    /\ checkpoints (shared j') = checkpoints (shared j).
Proof.
  induction evs as [|e evs IH]; intros j j' Hj Hex; simpl in Hex.
  - by injection Hex as <-.
  - destruct (step e j) as [j1|] eqn:Hs; [|done]. simpl in Hex.
    destruct (touches_nothing_step e j j1 Hj Hs) as (Hj1 & E1 & E2 & E3).
    destruct (IH j1 j' Hj1 Hex) as (F1 & F2 & F3).
    repeat split; congruence.
Qed.

(** X9.  With a batch size of zero or less nothing is translated and the
    job still ends as a success.  No worker ever writes a slot or a
    checkpoint (for zero, [range] raises in every worker; below zero the
    loop has no round), so the buffer and both files stay as they were;
    and once every thread has ended without STOP, [run_logic] replaces
    [OUTPUT_FILE] by what [TEMP_OUTPUT_FILE] held before the job started,
    or removes it when there was no such file. *)
Theorem nonpositive_batch_size (content : str) (st : Settings) (fs : Files)
    (j0 : Job) (evs : list Event) (j : Job) :
  (batch_size st <= 0)%Z ->
  run_logic content st fs = Some j0 ->
  exec evs j0 = Some j ->
  shared_output_lines (shared j) = shared_output_lines (shared j0)
  /\ checkpoints (shared j) = []
  /\ files (shared j) = fs
  /\ (joined j = true -> stop_event (shared j) = false ->
      promote j = Some {| file_write_lock := file_write_lock fs;
                          temp_file := temp_file fs;
                          output_file := temp_file fs |}).
Proof.
  intros Hb Hrun Hex.
  destruct (run_logic_start content st fs j0 Hrun)
    as (chunks & _ & _ & _ & _ & _ & _ & _ & _ & Hfs & Hcp & Hpool).
  assert (Forall (fun th => touches_nothing (todo th)) (pool j0)) as H0.
  { rewrite Hpool. apply Forall_fmap, Forall_forall. intros chunk _.
    simpl. by apply worker_process_touches_nothing. }
  destruct (touches_nothing_exec evs j0 j H0 Hex) as (E1 & E2 & E3).
  rewrite Hfs in E2. rewrite Hcp in E3.
  repeat split; try done.
  intros Hjoined Hstop. unfold promote. by rewrite Hjoined, Hstop, E2.
Qed.

Lemma nonpositive_batch_size_witness :
  (shared_output_lines (shared zero_batch_done)
   = shared_output_lines (shared zero_batch_job)
   /\ checkpoints (shared zero_batch_done) = []
   /\ files (shared zero_batch_done) = sample_files
   /\ (joined zero_batch_done = true ->
       stop_event (shared zero_batch_done) = false ->
       promote zero_batch_done
       = Some {| file_write_lock := file_write_lock sample_files;
                 temp_file := temp_file sample_files;
                 output_file := temp_file sample_files |}))
  /\ joined zero_batch_done = true
  /\ stop_event (shared zero_batch_done) = false.
Proof.
  split; [|split; reflexivity].
  apply (nonpositive_batch_size two_lines (sample_settings 1 0 false)
           sample_files zero_batch_job [EvRun 0 PostRaises] zero_batch_done);
    [discriminate|reflexivity|reflexivity].
Defined.


(** ** Progress reports *)

Lemma reports_bind {A B : Type} (P : nat -> nat -> UiMsg -> Prop)
    (Q : A -> Prop) (p : prog A) (f : A -> prog B) :
  answers Q p -> (forall a, Q a -> reports P (f a)) -> reports P (bind p f).
Proof.
  intros Hp Hf.
  induction p as [a| |k IH|d k IH|q k IH|idx v k IH|k IH|c t msg k IH];
    simpl in *; try done; auto.
Qed.

Lemma returns_after_bind {A B : Type} (Q : option (nat * nat * UiMsg) -> Prop)
    (last : option (nat * nat * UiMsg)) (R : A -> Prop) (p : prog A)
    (f : A -> prog B) :
  answers R p -> (forall a, R a -> returns_after Q last (f a)) ->
  returns_after Q last (bind p f).
Proof.
  intros Hp Hf.
  induction p as [a| |k IH|d k IH|q k IH|idx v k IH|k IH|c t msg k IH];
    simpl in *; try done; auto.
Qed.

Lemma reports_write_slots {A : Type} (P : nat -> nat -> UiMsg -> Prop)
    (pairs : list (nat * str)) (k : prog A) :
  reports P k -> reports P (write_slots pairs k).
Proof. intros Hk. induction pairs as [|[i v] pairs IH]; simpl; done. Qed.

Lemma returns_after_write_slots {A : Type}
    (Q : option (nat * nat * UiMsg) -> Prop)
    (last : option (nat * nat * UiMsg)) (pairs : list (nat * str))
    (k : prog A) :
  returns_after Q last k -> returns_after Q last (write_slots pairs k).
Proof. intros Hk. induction pairs as [|[i v] pairs IH]; simpl; done. Qed.

Lemma worker_loop_returns_after (st : Settings) (lines : list str)
    (ixs : list nat) (Q : option (nat * nat * UiMsg) -> Prop)
    (k : prog unit) :
  (forall last, returns_after Q last k) ->
  forall (starts : list nat) (processed : nat) last,
    returns_after Q last (worker_loop st lines ixs starts processed k).
Proof.
  intros Hk. induction starts as [|i rest IH]; intros processed last;
    cbn [worker_loop returns_after]; [apply Hk|].
  intros []; cbn [returns_after]; [apply Hk|].
  eapply returns_after_bind; [apply call_api_translate_answers|].
  intros tb _. apply returns_after_write_slots. cbn [returns_after].
  apply IH.
Qed.

Lemma worker_loop_reports (st : Settings) (lines : list str) (ixs : list nat)
    (k : prog unit) :
  reports (fun c t _ => c <= t /\ t = length lines) k ->
  0 < Z.to_nat (batch_size st) ->
  forall m a : nat,
    (forall x, a <= x -> x < a + m ->
               x * Z.to_nat (batch_size st) < length lines) ->
    reports (fun c t _ => c <= t /\ t = length lines)
      (worker_loop st lines ixs
         ((fun x => x * Z.to_nat (batch_size st)) <$> seq a m)
         (a * Z.to_nat (batch_size st)) k).
Proof.
  intros Hk Hn. set (n := Z.to_nat (batch_size st)) in *.
  induction m as [|m IH]; intros a Hm; [apply Hk|].
  cbn [seq fmap list_fmap worker_loop reports]. fold n.
  assert (a * n < length lines) as Ha by (apply Hm; lia).
  unfold total_items.
  intros []; cbn [reports].
  { split; [lia|apply Hk]. }
  eapply reports_bind; [apply call_api_translate_answers|].
  intros tb _. apply reports_write_slots. cbn [reports].
  split.
  { split; [|done]. unfold py_slice. rewrite length_take, length_drop. lia. }
  destruct m as [|m]; [apply Hk|].
  assert (S a * n < length lines) as Hnext by (apply Hm; lia).
  assert (length (py_slice (a * n) n lines) = n) as ->.
  { unfold py_slice. rewrite length_take, length_drop. lia. }
  replace (a * n + n) with (S a * n) by lia.
  apply IH. intros x ? ?. apply Hm; lia.
Qed.

Lemma worker_process_reports (chunk : list (str * nat)) (st : Settings) :
  reports (fun c t _ => c <= t /\ t = length chunk) (worker_process chunk st)
  /\ returns_after
       (fun last => last = Some (length chunk, length chunk, MsgFinished))
       None (worker_process chunk st).
Proof.
  rewrite <- (length_fmap fst chunk).
  unfold worker_process. cbn [reports returns_after]. split.
  - split; [lia|].
    destruct (Z.lt_trichotomy (batch_size st) 0) as [Hb|[Hb|Hb]].
    + rewrite py_range0_neg by done. simpl. done.
    + rewrite Hb. simpl. done.
    + rewrite py_range0_pos_Z by done.
      apply (worker_loop_reports st chunk.*1 chunk.*2) with (a := 0).
      * simpl. done.
      * lia.
      * intros x _ Hx. by apply ceil_div_lt in Hx; [|lia].
  - destruct (py_range0 _ _) as [starts|]; [|done].
    apply worker_loop_returns_after. intros last. simpl. done.
Qed.

Lemma report_inv_step (total : nat) (input : Response) (sh sh' : Shared)
    (th th' : Thread) :
  report_inv total th ->
  thread_step input sh th = Some (sh', th') ->
  report_inv total th'.
Proof.
  intros (Hw & Hr & Hl) Hstep. unfold thread_step in Hstep.
  destruct (todo th) as [a| |k|d k|q k|idx v k|k|c t msg k] eqn:Htodo;
    simpl in Hstep; try done; cbn [reports returns_after] in Hr, Hl.
  - injection Hstep as <- <-. by split; [|split]; simpl.
  - injection Hstep as <- <-. by split; [|split]; simpl.
  - injection Hstep as <- <-. by split; [|split]; simpl.
  - case_decide; injection Hstep as <- <-; by split; [|split]; simpl.
  - destruct (save_progress_file _ _) as [fs1|]; [|done].
    simpl in Hstep. injection Hstep as <- <-. by split; [|split]; simpl.
  - injection Hstep as <- <-. destruct Hr as [HP Hr].
    split; [|split]; simpl; [|done|done]. by constructor.
Qed.

Lemma exec_thread_local {X : Type} (I : X -> Thread -> Prop) (xs : list X) :
  (forall x input sh th sh' th',
     I x th -> thread_step input sh th = Some (sh', th') -> I x th') ->
  forall evs j j',
    Forall2 I xs (pool j) -> exec evs j = Some j' -> Forall2 I xs (pool j').
Proof.
  intros Hstep. induction evs as [|e evs IH]; intros j j' Hj Hex;
    simpl in Hex.
  - by injection Hex as <-.
  - destruct (step e j) as [j1|] eqn:Hs; [|done]. simpl in Hex.
    eapply IH; [|exact Hex]. destruct e as [|w input]; simpl in Hs.
    + by injection Hs as <-.
    + destruct (pool j !! w) as [th|] eqn:Hth; [|done]. simpl in Hs.
      destruct (thread_step input (shared j) th) as [[sh th']|] eqn:Hts;
        [|done].
      simpl in Hs. injection Hs as <-. simpl.
      destruct (Forall2_lookup_r _ _ _ _ _ Hj Hth) as (x & Hx & HI).
      rewrite <- (list_insert_id xs w x Hx).
      apply Forall2_insert; [done|]. by eapply Hstep.
Qed.

(** X10.  The progress of a worker never passes 100 percent, and a worker
    that returns always ends on a full bar.  At every moment of a job each
    report [(current, total, msg)] a worker has made has [total] equal to the
    number of lines of its chunk and [current <= total]; and when the
    worker has returned, its newest report is [(total, total, "Finished.")],
    also when STOP ended its loop early and lines are left untranslated. *)
Theorem progress_reports (content : str) (st : Settings) (fs : Files)
    (j0 : Job) (evs : list Event) (j : Job)
    (chunks : list (list (str * nat))) (w : nat) (chunk : list (str * nat))
    (th : Thread) :
  run_logic content st fs = Some j0 ->
  make_chunks (threads st) (data_points (read_raw content)) = Some chunks ->
  exec evs j0 = Some j ->
  chunks !! w = Some chunk ->
  pool j !! w = Some th ->
  (forall c t m, (c, t, m) ∈ widget th -> c <= t /\ t = length chunk)
  /\ (todo th = Ret tt ->
      head (widget th) = Some (length chunk, length chunk, MsgFinished)).
Proof.
  intros Hrun Hch Hex Hw Hth.
  destruct (run_logic_start content st fs j0 Hrun)
    as (chunks' & Hch' & _ & _ & _ & _ & _ & _ & _ & _ & _ & Hpool).
  rewrite Hch in Hch'. injection Hch' as <-.
  assert (Forall2 (fun chunk th => report_inv (length chunk) th)
            chunks (pool j0)) as H0.
  { rewrite Hpool. apply Forall2_fmap_r, Forall_Forall2_diag, Forall_forall.
    intros c _. destruct (worker_process_reports c st) as [Hr Hl].
    split; [|split]; simpl; [constructor|done|done]. }
  pose proof (exec_thread_local _ chunks
                (fun x input sh th sh' th' =>
                   report_inv_step (length x) input sh sh' th th')
                evs j0 j H0 Hex) as Hj.
  destruct (Forall2_lookup_lr _ _ _ _ _ _ Hj Hw Hth) as (Hwid & _ & Hlast).
  split.
  - intros c t m Hin. rewrite Forall_forall in Hwid. apply (Hwid _ Hin).
  - intros Hret. rewrite Hret in Hlast. exact Hlast.
Qed.

Lemma progress_reports_witness :
  (forall c t m,
     (c, t, m) ∈ widget (default {| todo := Raise; widget := [] |}
                           (pool two_lines_returned !! 0)) ->
     c <= t /\ t = length [(lit "1:::Hello", 0); (lit "2:::World", 1)])
  /\ (todo (default {| todo := Raise; widget := [] |}
              (pool two_lines_returned !! 0)) = Ret tt ->
      head (widget (default {| todo := Raise; widget := [] |}
                      (pool two_lines_returned !! 0)))
      = Some (length [(lit "1:::Hello", 0); (lit "2:::World", 1)],
              length [(lit "1:::Hello", 0); (lit "2:::World", 1)],
              MsgFinished)).
Proof.
  apply (progress_reports two_lines (sample_settings 1 1 false) sample_files
           two_lines_job (stop_after_first_batch ++ [EvRun 0 PostRaises])
           two_lines_returned
           [[(lit "1:::Hello", 0); (lit "2:::World", 1)]] 0).
  - reflexivity.
  - vm_compute. reflexivity.
  - reflexivity.
  - reflexivity.
  - reflexivity.
Defined.

(** The worker of the stopped sample job has translated one line of two,
    has reported "Stopped." at one of two, and ends on a full bar. *)
Example stopped_worker_reports :
  (todo <$> pool two_lines_returned !! 0) = Some (Ret tt)
  /\ (widget <$> pool two_lines_returned !! 0)
     = Some [(2, 2, MsgFinished); (1, 2, MsgStopped); (1, 2, MsgBatch);
             (0, 2, MsgReady 0 1)].
Proof. split; reflexivity. Qed.


(** ** Streamed answers *)

Lemma run_stream_data (env : Outside) (events : list (str * str))
    (tail : list frame) :
  Forall (fun e => is_data e.1) events ->
  forall (n : nat) (acc : str),
    (forall k, k < length events -> flag_at env (n + k) = false) ->
    run env n (stream_loop (data_frames events ++ tail) acc)
    = run env (n + length events) (stream_loop tail (acc ++ concat events.*2)).
Proof.
  induction 1 as [|[line content] events (Hne & Hstart & Hdone) _ IH];
    intros n acc Hflag.
  - simpl. by rewrite Nat.add_0_r, app_nil_r.
  - pose proof (Hflag 0 ltac:(simpl; lia)) as H0. rewrite Nat.add_0_r in H0.
    change (data_frames ((line, content) :: events) ++ tail)
      with (FrameLine (Some line) (Some content)
              :: (data_frames events ++ tail)).
    cbn [stream_loop run]. rewrite H0.
    cbn [fst] in Hne, Hstart, Hdone.
    destruct line as [|c line]; [done|].
    rewrite Hstart. rewrite decide_False by done.
    rewrite IH.
    + cbn [fmap list_fmap concat snd length]. rewrite <- app_assoc.
      f_equal. lia.
    + intros k Hk. replace (S n + k) with (n + S k) by lia.
      apply Hflag. simpl. lia.
Qed.

Lemma run_stream_done (env : Outside) (line : str) (delta : option str)
    (rest : list frame) (n : nat) (acc : str) :
  is_done line ->
  flag_at env n = false ->
  run env n (stream_loop (FrameLine (Some line) delta :: rest) acc)
  = Some (Some acc, S n).
Proof.
  intros [Hne Hdone] Hflag. cbn [stream_loop run]. rewrite Hflag.
  destruct line as [|c line]; [done|]. rewrite Hdone. reflexivity.
Qed.

(** X11.  A streamed answer gives what the same text gives when it is not
    streamed.  When [top_k] compares with 0, so that the request is sent,
    [stop_event] stays clear and the body is a run of data
    lines followed by the end marker, the pieces of content are put
    together in order, nothing after the end marker is read (it may even
    be a broken connection), and [call_api_translate] returns the
    reconciliation of the batch against the parsed text, after one poll at
    entry and one per line read. *)
Theorem streamed_answer_assembled (env : Outside) (n : nat)
    (batch : list str) (st : Settings) (content : option str)
    (events : list (str * str)) (done_line : str) (delta : option str)
    (rest : list frame) :
  is_Some (py_gt_zero (top_k st)) ->
  stream st = true ->
  response env
  = HttpResponse 200 content
      (data_frames events ++ FrameLine (Some done_line) delta :: rest) ->
  Forall (fun e => is_data e.1) events ->
  is_done done_line ->
  (forall k, k <= S (length events) -> flag_at env (n + k) = false) ->
  exists (translated_map : gmap str str) (results : list str),
    parse_response (concat events.*2) = Some translated_map
    /\ reconcile translated_map batch = Some results
    /\ run env n (call_api_translate batch st)
       = Some (results, n + length events + 2).
Proof.
  intros [g Hg] Hstream Hresp Hdata Hdone Hflag.
  destruct (parse_response_total (concat events.*2)) as [m Hm].
  destruct (reconcile_total m batch) as [results Hres].
  exists m, results. split; [done|]. split; [done|].
  unfold call_api_translate. cbn [run].
  pose proof (Hflag 0 ltac:(lia)) as H0. rewrite Nat.add_0_r in H0.
  rewrite H0. cbn [run]. rewrite Hg.
  rewrite run_bind. unfold try_block. cbn [run]. rewrite Hresp.
  case_decide as Hsc; [done|]. rewrite Hstream. rewrite run_bind.
  rewrite (run_stream_data env events _ Hdata).
  - rewrite (run_stream_done env done_line delta rest _ _ Hdone).
    + simpl. rewrite Hm. simpl. rewrite Hres. simpl. do 2 f_equal. lia.
    + replace (S n + length events) with (n + S (length events)) by lia.
      apply Hflag. lia.
  - intros k Hk. replace (S n + k) with (n + S k) by lia. apply Hflag. lia.
Qed.

Lemma streamed_answer_assembled_witness :
  exists (translated_map : gmap str str) (results : list str),
    parse_response
      (concat [(lit "data: {a}", lit "1:::Xin ");
               (lit "data: {b}", lit "chao")].*2)
    = Some translated_map
    /\ reconcile translated_map [lit "1:::Hello"] = Some results
    /\ run {| flag_at := fun _ => false;
              response :=
                HttpResponse 200 None
                  (data_frames [(lit "data: {a}", lit "1:::Xin ");
                                (lit "data: {b}", lit "chao")]
                   ++ FrameLine (Some (lit "data: [DONE]")) None
                        :: [FrameRaise]) |} 0
         (call_api_translate [lit "1:::Hello"] (sample_settings 1 50 true))
       = Some (results,
               0 + length [(lit "data: {a}", lit "1:::Xin ");
                           (lit "data: {b}", lit "chao")] + 2).
Proof.
  apply (streamed_answer_assembled
           {| flag_at := fun _ => false;
              response :=
                HttpResponse 200 None
                  (data_frames [(lit "data: {a}", lit "1:::Xin ");
                                (lit "data: {b}", lit "chao")]
                   ++ FrameLine (Some (lit "data: [DONE]")) None
                        :: [FrameRaise]) |} 0
           [lit "1:::Hello"] (sample_settings 1 50 true) None
           [(lit "data: {a}", lit "1:::Xin "); (lit "data: {b}", lit "chao")]
           (lit "data: [DONE]") None [FrameRaise]).
  - by eexists.
  - reflexivity.
  - reflexivity.
  - repeat constructor; try discriminate; reflexivity.
  - split; [discriminate|reflexivity].
  - intros k _. reflexivity.
Defined.

(** The streamed sample answer: one line, two pieces. *)
Example streamed_two_pieces :
  (fst <$> run {| flag_at := fun _ => false;
                  response :=
                    HttpResponse 200 None
                      (data_frames [(lit "data: {a}", lit "1:::Xin ");
                                    (lit "data: {b}", lit "chao")]
                       ++ FrameLine (Some (lit "data: [DONE]")) None
                            :: [FrameRaise]) |} 0
            (call_api_translate [lit "1:::Hello"] (sample_settings 1 50 true)))
  = Some [lit "1:::Xin chao"].
Proof. vm_compute. reflexivity. Qed.


(** ** Sleeping and returning *)

Lemma limiter_clock_step (d : Z) (e : LimiterEvent) (s s' : Limiter) :
  limiter_inv d s -> limiter_clock s ->
  wait_for_slot_step d e s = Some s' -> limiter_clock s'.
Proof.
  intros [Hhold _ _ _ _] [Hlock Hpast Hchk] Hstep.
  destruct e as [el|t]; simpl in Hstep.
  - case_decide as Hel; [|done]. injection Hstep as <-.
    constructor; simpl; [done|lia|done].
  - destruct (callers s !! t) as [pc|] eqn:Ht; [|done]. simpl in Hstep.
    assert (t < length (callers s)) as Hlt by (by eapply lookup_lt_Some).
    assert (forall pc1, pc1 <> Idle ->
              forall u, request_lock s = Some u ->
                exists pc', <[t := pc1]> (callers s) !! u = Some pc'
                            /\ pc' <> Idle) as Hkeep.
    { intros pc1 Hpc1 u Hu. destruct (decide (u = t)) as [->|Hne].
      - exists pc1. by rewrite list_lookup_insert_eq.
      - rewrite list_lookup_insert_ne by done. by apply Hlock. }
    assert (forall pc1, (forall ct, pc1 <> Checked ct) ->
              forall t' ct, <[t := pc1]> (callers s) !! t' = Some (Checked ct) ->
                callers s !! t' = Some (Checked ct) /\ t' <> t) as Hold.
    { intros pc1 Hpc1 t' ct Ht'. destruct (decide (t' = t)) as [->|Hne].
      - rewrite list_lookup_insert_eq in Ht' by done. injection Ht' as ->.
        by destruct (Hpc1 ct).
      - by rewrite list_lookup_insert_ne in Ht' by done. }
    destruct pc as [| |ct|wake| |].
    + destruct (request_lock s) as [holder|] eqn:Hl; [done|].
      injection Hstep as <-. constructor; simpl; [|done|].
      * intros u [= <-]. exists Locked. by rewrite list_lookup_insert_eq.
      * intros t' ct Ht'. apply Hold in Ht' as [Ht' _]; [|done]. by eapply Hchk.
    + injection Hstep as <-. constructor; simpl; [by apply Hkeep|done|].
      intros t' ct Ht'. destruct (decide (t' = t)) as [->|Hne].
      * rewrite list_lookup_insert_eq in Ht' by done. by injection Ht' as <-.
      * rewrite list_lookup_insert_ne in Ht' by done. by eapply Hchk.
    + case_decide as Hel; injection Hstep as <-;
        (constructor; simpl; [by apply Hkeep|done|]);
        intros t' ct' Ht'; apply Hold in Ht' as [Ht' _]; try done;
        by eapply Hchk.
    + case_decide as Hwake; [|done]. injection Hstep as <-.
      constructor; simpl; [by apply Hkeep|done|].
      intros t' ct' Ht'. apply Hold in Ht' as [Ht' _]; [|done]. by eapply Hchk.
    + injection Hstep as <-. constructor; simpl; [by apply Hkeep|lia|].
      intros t' ct' Ht'. apply Hold in Ht' as [Ht' Hne]; [|done].
      pose proof (Hhold t Stamping Ht ltac:(done)).
      pose proof (Hhold t' (Checked ct') Ht' ltac:(done)). congruence.
    + injection Hstep as <-. constructor; simpl; [done|done|].
      intros t' ct' Ht'. apply Hold in Ht' as [Ht' _]; [|done]. by eapply Hchk.
Qed.

Lemma limiter_clock_exec (d : Z) (es : list LimiterEvent) :
  forall s s', limiter_inv d s -> limiter_clock s ->
               wait_for_slot_exec d es s = Some s' ->
               limiter_inv d s' /\ limiter_clock s'.
Proof.
  induction es as [|e es IH]; intros s s' Hinv Hclk Hex; simpl in Hex.
  - by injection Hex as <-.
  - destruct (wait_for_slot_step d e s) as [s1|] eqn:Hs; [|done].
    simpl in Hex. eapply IH; [| |exact Hex].
    + by eapply limiter_inv_step.
    + by eapply limiter_clock_step.
Qed.

Lemma limiter_idle_clock (s : Limiter) :
  limiter_idle s -> (last_request_time s <= now s)%Z -> limiter_clock s.
Proof.
  intros (Hlock & Hidle & _) Hpast. constructor; [|done|].
  - intros u Hu. congruence.
  - intros t ct Ht. rewrite Forall_forall in Hidle.
    by pose proof (Hidle _ (list_elem_of_lookup_2 _ _ _ Ht)).
Qed.

(** X12.  A call never sleeps longer than the minimum delay.  Started
    with [last_request_time] not in the future, whenever a step of
    [wait_for_slot] puts a thread to sleep, the time it will wake up at is
    later than now and at most [delay_sec] later. *)
Theorem wait_for_slot_sleep_bounded (d : Z) (s0 : Limiter)
    (es : list LimiterEvent) (s : Limiter) (t : nat) (s' : Limiter)
    (wake : Z) :
  limiter_idle s0 ->
  (last_request_time s0 <= now s0)%Z ->
  wait_for_slot_exec d es s0 = Some s ->
  wait_for_slot_step d (Call t) s = Some s' ->
  callers s' !! t = Some (Sleeping wake) ->
  (now s' < wake <= now s' + d)%Z.
Proof.
  intros Hidle Hpast Hex Hstep Hsleep.
  destruct (limiter_clock_exec d es s0 s (limiter_idle_inv d s0 Hidle)
              (limiter_idle_clock s0 Hidle Hpast) Hex) as [_ [_ _ Hchk]].
  simpl in Hstep.
  destruct (callers s !! t) as [pc|] eqn:Ht; [|done]. simpl in Hstep.
  assert (t < length (callers s)) as Hlt by (by eapply lookup_lt_Some).
  destruct pc as [| |ct|wake'| |].
  - destruct (request_lock s); [done|]. injection Hstep as <-.
    simpl in Hsleep. by rewrite list_lookup_insert_eq in Hsleep.
  - injection Hstep as <-. simpl in Hsleep.
    by rewrite list_lookup_insert_eq in Hsleep.
  - pose proof (Hchk t ct Ht) as Hct.
    case_decide as Hel; injection Hstep as <-; simpl in Hsleep;
      rewrite list_lookup_insert_eq in Hsleep by done; [|done].
    injection Hsleep as <-. simpl. lia.
  - case_decide; [|done]. injection Hstep as <-. simpl in Hsleep.
    by rewrite list_lookup_insert_eq in Hsleep.
  - injection Hstep as <-. simpl in Hsleep.
    by rewrite list_lookup_insert_eq in Hsleep.
  - injection Hstep as <-. simpl in Hsleep.
    by rewrite list_lookup_insert_eq in Hsleep.
Qed.

Lemma wait_for_slot_sleep_bounded_witness :
  (now (default two_callers
          (wait_for_slot_exec 1300
             [Tick 5000; Call 0; Call 0; Call 0; Call 0; Call 0;
              Tick 100; Call 1; Call 1; Call 1] two_callers))
   < 6300
   <= now (default two_callers
             (wait_for_slot_exec 1300
                [Tick 5000; Call 0; Call 0; Call 0; Call 0; Call 0;
                 Tick 100; Call 1; Call 1; Call 1] two_callers)) + 1300)%Z.
Proof.
  apply (wait_for_slot_sleep_bounded 1300 two_callers
           [Tick 5000; Call 0; Call 0; Call 0; Call 0; Call 0;
            Tick 100; Call 1; Call 1]
           (default two_callers
              (wait_for_slot_exec 1300
                 [Tick 5000; Call 0; Call 0; Call 0; Call 0; Call 0;
                  Tick 100; Call 1; Call 1] two_callers))
           1).
  - repeat split. repeat constructor.
  - vm_compute. discriminate.
  - vm_compute. reflexivity.
  - vm_compute. reflexivity.
  - vm_compute. reflexivity.
Defined.

Lemma wait_for_slot_exec_app (d : Z) (es1 es2 : list LimiterEvent)
    (s : Limiter) :
  wait_for_slot_exec d (es1 ++ es2) s
  = match wait_for_slot_exec d es1 s with
    | Some s1 => wait_for_slot_exec d es2 s1
    | None => None
    end.
Proof.
  revert s. induction es1 as [|e es1 IH]; intros s; simpl; [done|].
  destruct (wait_for_slot_step d e s); simpl; auto.
Qed.

Lemma gets_through_step (d : Z) (s s1 : Limiter) (t : nat) (e : LimiterEvent)
    (pc : limiter_pc) :
  wait_for_slot_step d e s = Some s1 ->
  callers s1 = <[t := pc]> (callers s) ->
  request_lock s1 = request_lock s ->
  gets_through d s1 t -> gets_through d s t.
Proof.
  intros Hstep Hc Hl (es & s2 & Hex & Hc2 & Hl2).
  exists (e :: es), s2. simpl. rewrite Hstep. simpl. split; [done|].
  rewrite Hc2, Hl2, Hc, Hl. by rewrite list_insert_insert_eq.
Qed.

Lemma from_releasing (d : Z) (s : Limiter) (t : nat) :
  callers s !! t = Some Releasing -> gets_through d s t.
Proof.
  intros Ht. exists [], s. simpl. by rewrite list_insert_id.
Qed.

Lemma from_stamping (d : Z) (s : Limiter) (t : nat) :
  callers s !! t = Some Stamping -> gets_through d s t.
Proof.
  intros Ht.
  assert (t < length (callers s)) as Hlt by (by eapply lookup_lt_Some).
  eapply (gets_through_step d s _ t (Call t) Releasing).
  - simpl. rewrite Ht. simpl. reflexivity.
  - done.
  - done.
  - apply from_releasing. simpl. by rewrite list_lookup_insert_eq.
Qed.

Lemma from_sleeping (d : Z) (s : Limiter) (t : nat) (wake : Z) :
  callers s !! t = Some (Sleeping wake) -> gets_through d s t.
Proof.
  intros Ht.
  assert (t < length (callers s)) as Hlt by (by eapply lookup_lt_Some).
  eapply (gets_through_step d s _ t (Tick (Z.max 0 (wake - now s)))
            (Sleeping wake)).
  - simpl. rewrite decide_True by lia. reflexivity.
  - simpl. by rewrite list_insert_id.
  - done.
  - eapply (gets_through_step d _ _ t (Call t) Stamping).
    + simpl. rewrite Ht. simpl. rewrite decide_True by lia. reflexivity.
    + done.
    + done.
    + apply from_stamping. simpl. by rewrite list_lookup_insert_eq.
Qed.

Lemma from_checked (d : Z) (s : Limiter) (t : nat) (ct : Z) :
  callers s !! t = Some (Checked ct) -> gets_through d s t.
Proof.
  intros Ht.
  assert (t < length (callers s)) as Hlt by (by eapply lookup_lt_Some).
  destruct (decide (ct - last_request_time s < d)%Z) as [Hel|Hel].
  - eapply (gets_through_step d s _ t (Call t)
              (Sleeping (now s + (d - (ct - last_request_time s))))).
    + simpl. rewrite Ht. simpl. rewrite decide_True by done. reflexivity.
    + done.
    + done.
    + eapply from_sleeping. simpl. by rewrite list_lookup_insert_eq.
  - eapply (gets_through_step d s _ t (Call t) Stamping).
    + simpl. rewrite Ht. simpl. rewrite decide_False by done. reflexivity.
    + done.
    + done.
    + apply from_stamping. simpl. by rewrite list_lookup_insert_eq.
Qed.

Lemma from_locked (d : Z) (s : Limiter) (t : nat) :
  callers s !! t = Some Locked -> gets_through d s t.
Proof.
  intros Ht.
  assert (t < length (callers s)) as Hlt by (by eapply lookup_lt_Some).
  eapply (gets_through_step d s _ t (Call t) (Checked (now s))).
  - simpl. rewrite Ht. simpl. reflexivity.
  - done.
  - done.
  - eapply from_checked. simpl. by rewrite list_lookup_insert_eq.
Qed.

Lemma from_inside (d : Z) (s : Limiter) (t : nat) (pc : limiter_pc) :
  callers s !! t = Some pc -> pc <> Idle -> gets_through d s t.
Proof.
  intros Ht Hpc. destruct pc; [done| | | | |].
  - by apply from_locked.
  - by eapply from_checked.
  - by eapply from_sleeping.
  - by apply from_stamping.
  - by apply from_releasing.
Qed.

(** X13.  [wait_for_slot] never blocks for good.  From every state the
    rate limiter can reach, and for every thread, there are steps (of the
    thread that holds the lock, of the clock, of the thread itself) after
    which the thread is at the end of the critical section, and its next
    step leaves the function with the lock free. *)
Theorem wait_for_slot_returns (d : Z) (s0 : Limiter) (es : list LimiterEvent)
    (s : Limiter) (t : nat) :
  limiter_idle s0 ->
  (last_request_time s0 <= now s0)%Z ->
  wait_for_slot_exec d es s0 = Some s ->
  t < length (callers s) ->
  exists (es' : list LimiterEvent) (s1 s' : Limiter),
    wait_for_slot_exec d es' s = Some s1
    /\ callers s1 !! t = Some Releasing
    /\ wait_for_slot_step d (Call t) s1 = Some s'
    /\ callers s' !! t = Some Idle
    /\ request_lock s' = None.
Proof.
  intros Hidle Hpast Hex Hlt.
  destruct (limiter_clock_exec d es s0 s (limiter_idle_inv d s0 Hidle)
              (limiter_idle_clock s0 Hidle Hpast) Hex)
    as [[Hhold _ _ _ _] [Hlock _ _]].
  assert (forall (s2 : Limiter) (es2 : list LimiterEvent),
            wait_for_slot_exec d es2 s = Some s2 ->
            t < length (callers s2) ->
            gets_through d s2 t ->
            exists (es' : list LimiterEvent) (s1 s' : Limiter),
              wait_for_slot_exec d es' s = Some s1
              /\ callers s1 !! t = Some Releasing
              /\ wait_for_slot_step d (Call t) s1 = Some s'
              /\ callers s' !! t = Some Idle
              /\ request_lock s' = None) as Hend.
  { intros s2 es2 Hex2 Hlt2 (es3 & s1 & Hex3 & Hc & _).
    assert (callers s1 !! t = Some Releasing) as Ht1.
    { rewrite Hc. by rewrite list_lookup_insert_eq. }
    eexists (es2 ++ es3), s1, _. split; [|split; [done|split; [|split]]].
    - by rewrite wait_for_slot_exec_app, Hex2.
    - simpl. rewrite Ht1. simpl. reflexivity.
    - simpl. rewrite list_lookup_insert_eq; [done|].
      rewrite Hc, length_insert. done.
    - done. }
  destruct (lookup_lt_is_Some_2 _ _ Hlt) as [pc Ht].
  destruct (idle_or_not pc) as [->|Hpc].
  - assert (forall s2 : Limiter,
              callers s2 !! t = Some Idle -> request_lock s2 = None ->
              exists s3, wait_for_slot_step d (Call t) s2 = Some s3
                         /\ callers s3 !! t = Some Locked
                         /\ length (callers s3) = length (callers s2)) as Hin.
    { intros s2 Ht2 Hl2. eexists. simpl. rewrite Ht2. simpl. rewrite Hl2.
      split; [done|]. simpl. rewrite length_insert.
      split; [|done]. apply list_lookup_insert_eq. by eapply lookup_lt_Some. }
    destruct (request_lock s) as [u|] eqn:Hl.
    + destruct (Hlock u eq_refl) as (pcu & Hu & Hpcu).
      assert (u <> t) as Hne by (intros ->; congruence).
      destruct (from_inside d s u pcu Hu Hpcu) as (es1 & s1 & Hex1 & Hc1 & Hl1).
      assert (u < length (callers s)) as Hltu by (by eapply lookup_lt_Some).
      assert (callers s1 !! u = Some Releasing) as Hu1.
      { rewrite Hc1. by rewrite list_lookup_insert_eq. }
      set (s2 := {| now := now s1; last_request_time := last_request_time s1;
                    request_lock := None;
                    callers := <[u := Idle]> (callers s1);
                    grants := grants s1 |}).
      assert (wait_for_slot_step d (Call u) s1 = Some s2) as Hrel.
      { simpl. rewrite Hu1. simpl. reflexivity. }
      assert (callers s2 !! t = Some Idle) as Ht2.
      { simpl. rewrite list_lookup_insert_ne by done.
        rewrite Hc1. by rewrite list_lookup_insert_ne. }
      destruct (Hin s2 Ht2 eq_refl) as (s3 & Hs3 & Ht3 & Hlen3).
      apply (Hend s3 (es1 ++ [Call u; Call t])).
      * rewrite wait_for_slot_exec_app, Hex1.
        cbn [wait_for_slot_exec]. rewrite Hrel. cbn [mbind option_bind].
        rewrite Hs3. reflexivity.
      * by eapply lookup_lt_Some.
      * by apply from_locked.
    + destruct (Hin s Ht Hl) as (s3 & Hs3 & Ht3 & Hlen3).
      apply (Hend s3 [Call t]).
      * cbn [wait_for_slot_exec]. rewrite Hs3. reflexivity.
      * by eapply lookup_lt_Some.
      * by apply from_locked.
  - apply (Hend s []); [done|done|]. by eapply from_inside.
Qed.

Lemma wait_for_slot_returns_witness :
  exists (es' : list LimiterEvent) (s1 s' : Limiter),
    wait_for_slot_exec 1300 es'
      (default two_callers
         (wait_for_slot_exec 1300 [Tick 5000; Call 0; Call 0] two_callers))
    = Some s1
    /\ callers s1 !! 1 = Some Releasing
    /\ wait_for_slot_step 1300 (Call 1) s1 = Some s'
    /\ callers s' !! 1 = Some Idle
    /\ request_lock s' = None.
Proof.
  apply (wait_for_slot_returns 1300 two_callers [Tick 5000; Call 0; Call 0]
           (default two_callers
              (wait_for_slot_exec 1300 [Tick 5000; Call 0; Call 0] two_callers))
           1).
  - repeat split. repeat constructor.
  - vm_compute. discriminate.
  - vm_compute. reflexivity.
  - vm_compute. lia.
Defined.




(** ** Requests *)

Lemma throttled_mono {A : Type} (d : Z) (p : prog A) :
  throttled d false p -> throttled d true p.
Proof.
  induction p as [a| |k IH|d' k IH|q k IH|idx v k IH|k IH|c t msg k IH];
    simpl; try done; auto.
  by intros [? _].
Qed.

Lemma throttled_bind {A B : Type} (d : Z) (p : prog A) (f : A -> prog B) :
  (forall a, throttled d false (f a)) ->
  forall ready, throttled d ready p -> throttled d ready (bind p f).
Proof.
  intros Hf.
  induction p as [a| |k IH|d' k IH|q k IH|idx v k IH|k IH|c t msg k IH];
    intros ready Hp; simpl in *; try done; auto.
  - destruct ready; [by apply throttled_mono|done].
  - destruct Hp as [-> Hp]. auto.
  - destruct Hp as [-> Hp]. auto.
Qed.

Lemma posts_at_most_mono {A : Type} (p : prog A) :
  forall n m, n <= m -> posts_at_most n p -> posts_at_most m p.
Proof.
  induction p as [a| |k IH|d' k IH|q k IH|idx v k IH|k IH|c t msg k IH];
    intros n m Hnm Hp; simpl in *; try done; eauto.
  destruct n as [|n]; [done|]. destruct m as [|m]; [lia|].
  intros r. apply (IH r n m); [lia|done].
Qed.

Lemma posts_at_most_bind {A B : Type} (m : nat) (p : prog A)
    (f : A -> prog B) :
  (forall a, posts_at_most m (f a)) ->
  forall n, posts_at_most n p -> posts_at_most (n + m) (bind p f).
Proof.
  intros Hf.
  induction p as [a| |k IH|d' k IH|q k IH|idx v k IH|k IH|c t msg k IH];
    intros n Hp; simpl in *; try done; auto.
  - apply (posts_at_most_mono _ m); [lia|done].
  - destruct n as [|n]; [done|]. simpl. auto.
Qed.

Lemma stream_loop_no_request (d : Z) (ready : bool) (lines : list frame) :
  forall acc,
    throttled d ready (stream_loop lines acc)
    /\ posts_at_most 0 (stream_loop lines acc).
Proof.
  induction lines as [|[|text delta] rest IH]; intros acc; simpl; auto.
  split; intros []; simpl; try done;
    destruct text as [[|c line]|]; simpl; try done; try apply IH;
    repeat case_match; simpl; try done; apply IH.
Qed.

Lemma call_api_translate_requests (batch : list str) (st : Settings) :
  throttled (delay st) false (call_api_translate batch st)
  /\ posts_at_most 1 (call_api_translate batch st).
Proof.
  unfold call_api_translate, try_block.
  split; cbn [throttled posts_at_most bind]; intros []; simpl; try done.
  - split; [done|]. destruct (py_gt_zero (top_k st)); simpl; [|done].
    split; [done|]. intros [|sc c ls]; simpl; [done|].
    case_decide; simpl; [done|].
    apply throttled_bind.
    + intros [results|]; simpl; done.
    + apply throttled_bind.
      * intros o. simpl. done.
      * destruct (stream st); [apply stream_loop_no_request|done].
  - destruct (py_gt_zero (top_k st)); simpl; [|done].
    intros [|sc c ls]; simpl; [done|].
    case_decide; simpl; [done|].
    apply (posts_at_most_bind 0 _ _) with (n := 0).
    + intros [results|]; simpl; done.
    + apply (posts_at_most_bind 0 _ _) with (n := 0).
      * intros o. simpl. done.
      * destruct (stream st); [apply (stream_loop_no_request 0 false)|done].
Qed.

Lemma throttled_write_slots {A : Type} (d : Z) (ready : bool)
    (pairs : list (nat * str)) (k : prog A) :
  throttled d ready k -> throttled d ready (write_slots pairs k).
Proof. intros Hk. induction pairs as [|[i v] pairs IH]; simpl; done. Qed.

Lemma posts_at_most_write_slots {A : Type} (n : nat)
    (pairs : list (nat * str)) (k : prog A) :
  posts_at_most n k -> posts_at_most n (write_slots pairs k).
Proof. intros Hk. induction pairs as [|[i v] pairs IH]; simpl; done. Qed.

Lemma worker_loop_requests (st : Settings) (lines : list str)
    (ixs : list nat) (k : prog unit) :
  throttled (delay st) false k -> posts_at_most 0 k ->
  forall (starts : list nat) (processed : nat),
    throttled (delay st) false (worker_loop st lines ixs starts processed k)
    /\ posts_at_most (length starts)
         (worker_loop st lines ixs starts processed k).
Proof.
  intros Hk Hk0. induction starts as [|i rest IH]; intros processed;
    cbn [worker_loop throttled posts_at_most length]; [done|].
  destruct (call_api_translate_requests
              (py_slice i (Z.to_nat (batch_size st)) lines) st) as [Ht Hp].
  split; intros []; cbn [throttled posts_at_most].
  - done.
  - apply throttled_bind; [|done]. intros tb.
    apply throttled_write_slots. cbn [throttled]. apply IH.
  - apply (posts_at_most_mono _ 0); [lia|done].
  - replace (S (length rest)) with (1 + length rest) by done.
    apply posts_at_most_bind; [|done]. intros tb.
    apply posts_at_most_write_slots. cbn [posts_at_most]. apply IH.
Qed.

(** X16.  Every request goes through the rate limiter and no batch is
    asked twice.  On every path through [worker_process], each call of
    [requests.post] comes after a call of [wait_for_slot] of its own with
    the configured delay, and the worker sends at most one request for
    each batch of its chunk, that is at most
    [ceil(len(chunk) / batch_size)] requests, whatever the answers are:
    a failed batch is not tried again. *)
Theorem requests_throttled (chunk : list (str * nat)) (st : Settings) :
  throttled (delay st) false (worker_process chunk st)
  /\ posts_at_most (ceil_div (length chunk) (Z.to_nat (batch_size st)))
       (worker_process chunk st).
Proof.
  unfold worker_process. cbn [throttled posts_at_most].
  rewrite length_fmap.
  destruct (Z.lt_trichotomy (batch_size st) 0) as [Hb|[Hb|Hb]].
  - rewrite py_range0_neg by done. simpl. done.
  - rewrite Hb. simpl. done.
  - rewrite py_range0_pos_Z by done.
    destruct (worker_loop_requests st chunk.*1 chunk.*2
                (Ui (length chunk) (length chunk) MsgFinished (Ret tt))
                ltac:(done) ltac:(done)
                ((fun k => k * Z.to_nat (batch_size st))
                   <$> seq 0 (ceil_div (length chunk)
                                (Z.to_nat (batch_size st)))) 0)
      as [Ht Hp].
    split; [done|]. by rewrite length_fmap, length_seq in Hp.
Qed.


(** ** The user message *)

Lemma cut_nl_clean (s : str) : clean s -> cut nl s = None.
Proof.
  induction 1 as [|c s Hc _ IH]; [done|].
  rewrite cut_nl_cons. rewrite decide_False by done. by rewrite IH.
Qed.

Lemma cut_nl_line (line rest : str) :
  clean line -> cut nl (line ++ nl ++ rest) = Some (line, rest).
Proof.
  induction 1 as [|c s Hc _ IH].
  - change ([] ++ nl ++ rest) with (newline :: rest).
    rewrite cut_nl_cons. by rewrite decide_True.
  - change ((c :: s) ++ nl ++ rest) with (c :: (s ++ nl ++ rest)).
    rewrite cut_nl_cons. rewrite decide_False by done. by rewrite IH.
Qed.

Lemma split_join (xs : list str) :
  Forall clean xs -> xs <> [] ->
  forall n, length (py_join nl xs) <= n ->
            split_rounds n nl (py_join nl xs) = xs.
Proof.
  induction 1 as [|x xs Hx Hxs IH]; [done|]. intros _ n Hn.
  destruct xs as [|y rest].
  - simpl. apply split_rounds_no_sep. unfold py_in.
    by rewrite (cut_nl_clean x Hx).
  - change (py_join nl (x :: y :: rest))
      with (x ++ nl ++ py_join nl (y :: rest)) in *.
    rewrite !length_app in Hn. change (length nl) with 1 in Hn.
    destruct n as [|n]; [lia|]. cbn [split_rounds].
    rewrite (cut_nl_line x _ Hx). f_equal. apply IH; [done|lia].
Qed.

Lemma py_join_app (sep : str) (xs ys : list str) :
  xs <> [] -> ys <> [] ->
  py_join sep (xs ++ ys) = py_join sep xs ++ sep ++ py_join sep ys.
Proof.
  intros Hxs Hys. induction xs as [|x xs IH]; [done|].
  destruct xs as [|x' xs].
  - simpl. destruct ys; done.
  - change (py_join sep ((x :: x' :: xs) ++ ys))
      with (x ++ sep ++ py_join sep ((x' :: xs) ++ ys)).
    rewrite IH by done.
    change (py_join sep (x :: x' :: xs))
      with (x ++ sep ++ py_join sep (x' :: xs)).
    by rewrite <- !app_assoc.
Qed.

Lemma prompts_bind {A B : Type} (Q : str -> Prop) (p : prog A)
    (f : A -> prog B) :
  prompts Q p -> (forall a, prompts Q (f a)) -> prompts Q (bind p f).
Proof.
  intros Hp Hf.
  induction p as [a| |k IH|d k IH|q k IH|idx v k IH|k IH|c t msg k IH];
    simpl in *; try done; auto.
  destruct Hp as [Hq Hp]. auto.
Qed.

Lemma stream_loop_prompts (Q : str -> Prop) (lines : list frame) :
  forall acc, prompts Q (stream_loop lines acc).
Proof.
  induction lines as [|[|text delta] rest IH]; intros acc; simpl; auto.
  intros []; simpl; [done|].
  destruct text as [[|c line]|]; simpl; auto.
  repeat case_match; simpl; auto.
Qed.

(** X17.  The user message of a request holds the batch, one line of the
    batch per line and in order, then an empty line and the reminder of
    the format: for a batch that is not empty and whose lines hold no
    line feed, splitting the message of every request of
    [call_api_translate] at line feeds gives back the batch followed by
    these two lines. *)
Theorem prompt_lines (batch : list str) (st : Settings) :
  batch <> [] ->
  Forall clean batch ->
  prompts (fun prompt =>
             py_split nl prompt
             = batch ++ [[]; lit "REMINDER: Format 'ID:::TranslatedText'."])
    (call_api_translate batch st).
Proof.
  intros Hne Hclean.
  unfold call_api_translate. cbn [prompts]. intros []; cbn [prompts]; [done|].
  destruct (py_gt_zero (top_k st)); [|done].
  apply prompts_bind; [|intros [results|]; simpl; done].
  unfold try_block. cbn [prompts]. split.
  - assert (py_join nl batch ++ reminder
            = py_join nl (batch
                            ++ [[]; lit "REMINDER: Format 'ID:::TranslatedText'."]))
      as ->.
    { rewrite py_join_app by done. reflexivity. }
    unfold py_split. apply split_join; [|by destruct batch|done].
    apply Forall_app. split; [done|].
    repeat (constructor; [try discriminate|]); try constructor.
  - intros [|sc c ls]; simpl; [done|]. case_decide; simpl; [done|].
    apply prompts_bind; [|done].
    destruct (stream st); [apply stream_loop_prompts|done].
Qed.

Lemma prompt_lines_witness :
  prompts (fun prompt =>
             py_split nl prompt
             = [lit "1:::Hello"; lit "2:::World"]
                 ++ [[]; lit "REMINDER: Format 'ID:::TranslatedText'."])
    (call_api_translate [lit "1:::Hello"; lit "2:::World"]
       (sample_settings 1 50 true)).
Proof.
  apply (prompt_lines [lit "1:::Hello"; lit "2:::World"]
           (sample_settings 1 50 true)); [done|].
  repeat constructor; discriminate.
Defined.


(** ** Configuration *)

Lemma load_members_other {V : Type} (members : list (str * V)) (k : str) :
  k ∉ members.*1 ->
  forall cfg : gmap str V,
    foldl (fun cfg kv => <[kv.1 := kv.2]> cfg) cfg members !! k = cfg !! k.
Proof.
  induction members as [|[k' v'] members IH]; intros Hk cfg; simpl; [done|].
  simpl in Hk. apply not_elem_of_cons in Hk as [Hne Hk].
  rewrite IH by done. by apply lookup_insert_ne.
Qed.

Lemma load_members_key {V : Type} (members : list (str * V)) (k : str)
    (v : V) :
  NoDup members.*1 -> (k, v) ∈ members ->
  forall cfg : gmap str V,
    foldl (fun cfg kv => <[kv.1 := kv.2]> cfg) cfg members !! k = Some v.
Proof.
  induction members as [|[k' v'] members IH]; intros Hnd Hin cfg; simpl.
  { by apply elem_of_nil in Hin. }
  simpl in Hnd. apply NoDup_cons in Hnd as [Hk' Hnd].
  apply elem_of_cons in Hin as [[= <- <-]|Hin].
  - rewrite load_members_other by done. apply lookup_insert_eq.
  - by apply IH.
Qed.

Lemma load_members_keeps {V : Type} (members : list (str * V)) (k : str) :
  forall cfg : gmap str V,
    is_Some (cfg !! k) ->
    is_Some (foldl (fun cfg kv => <[kv.1 := kv.2]> cfg) cfg members !! k).
Proof.
  induction members as [|[k' v'] members IH]; intros cfg Hk; simpl; [done|].
  apply IH. apply lookup_insert_is_Some. destruct (decide (k' = k)); auto.
Qed.

(** X18.  [load_config] lays the file over the defaults and loses no key.
    Whatever [CONFIG_FILE] is, every key that [config_data] had is still
    there afterwards; a key of the JSON object gets the value of the file,
    a key that the object does not hold keeps its value, and a file that is
    absent or cannot be read leaves [config_data] as it was. *)
Theorem load_config_merge {V : Type} (config_data : gmap str V)
    (file : ConfigFile V) (k : str) :
  (is_Some (config_data !! k) -> is_Some (load_config config_data file !! k))
  /\ (forall members v,
        file = JsonObject members -> NoDup members.*1 -> (k, v) ∈ members ->
        load_config config_data file !! k = Some v)
  /\ (forall members,
        file = JsonObject members -> k ∉ members.*1 ->
        load_config config_data file !! k = config_data !! k)
  /\ (file = NoFile \/ file = Unreadable ->
      load_config config_data file = config_data).
Proof.
  split; [|split; [|split]].
  - destruct file as [| |members]; simpl; try done.
    apply load_members_keeps.
  - intros members v -> Hnd Hin. simpl. by apply load_members_key.
  - intros members -> Hk. simpl. by apply load_members_other.
  - by intros [->| ->].
Qed.


(** ** The list of models *)

Lemma cut_cons (sep : str) (c : ascii) (s : str) :
  cut sep (c :: s)
  = if startswith sep (c :: s) then Some ([], drop (length sep) (c :: s))
    else match cut sep s with
         | Some (a, b) => Some (c :: a, b)
         | None => None
         end.
Proof. by destruct sep. Qed.

Lemma cut_startswith (sep s : str) :
  startswith sep s = true -> cut sep s = Some ([], drop (length sep) s).
Proof.
  intros H. destruct s as [|c s].
  - simpl in *. by rewrite H.
  - by rewrite cut_cons, H.
Qed.

Lemma py_in_app (sep a b : str) : py_in sep (a ++ sep ++ b) = true.
Proof.
  apply py_in_cut. induction a as [|c a IH].
  - exists [], b. change ([] ++ sep ++ b) with (sep ++ b).
    rewrite cut_startswith by apply startswith_prefix.
    by rewrite drop_app_length.
  - destruct IH as (a' & b' & IH).
    change ((c :: a) ++ sep ++ b) with (c :: (a ++ sep ++ b)).
    rewrite cut_cons, IH. destruct (startswith sep _); eauto.
Qed.

Lemma py_in_iff (sep s : str) :
  py_in sep s = true <-> exists a b, s = a ++ sep ++ b.
Proof.
  split.
  - intros H. apply py_in_cut in H as (a & b & H). exists a, b.
    by apply cut_app.
  - intros (a & b & ->). apply py_in_app.
Qed.

Lemma lower_char_lower_char (c : ascii) :
  lower_char (lower_char c) = lower_char c.
Proof.
  pose proof (ascii_all
                (fun c => if decide (lower_char (lower_char c) = lower_char c)
                          then true else false) eq_refl c) as E.
  simpl in E. by case_decide.
Qed.

Lemma py_lower_py_lower (s : str) : py_lower (py_lower s) = py_lower s.
Proof.
  unfold py_lower. rewrite <- list_fmap_compose. apply list_fmap_ext.
  intros i c _. apply lower_char_lower_char.
Qed.

Lemma filter_list_elem (values : list str) (query v : str) :
  v ∈ filter_list values query
  <-> v ∈ values /\ py_in (py_lower query) (py_lower v) = true.
Proof.
  unfold filter_list. rewrite !list_elem_of_In.
  exact (filter_In (fun v => py_in (py_lower query) (py_lower v)) v values).
Qed.

(** X19.  What the search field of the model list shows.  An empty
    search text shows every value; a value that holds the search text as
    it is typed is always shown; typing a longer text that holds the
    earlier one never brings a value back; the case of the search text
    does not matter; and the values shown keep the order of the list. *)
Theorem filter_list_search (values : list str) (query : str) :
  filter_list values [] = values
  /\ (forall v, v ∈ values -> py_in query v = true ->
                v ∈ filter_list values query)
  /\ (forall longer, py_in query longer = true ->
                     filter_list values longer ⊆ filter_list values query)
  /\ filter_list values (py_lower query) = filter_list values query
  /\ sublist (filter_list values query) values.
Proof.
  split; [|split; [|split; [|split]]].
  - unfold filter_list. apply forallb_filter_id, forallb_forall.
    intros v _. apply py_in_iff. by exists [], (py_lower v).
  - intros v Hv Hin. apply filter_list_elem. split; [done|].
    apply py_in_iff in Hin as (a & b & ->). apply py_in_iff.
    exists (py_lower a), (py_lower b). unfold py_lower.
    by rewrite !fmap_app.
  - intros longer Hin v Hv. apply filter_list_elem in Hv as [Hv Hl].
    apply filter_list_elem. split; [done|].
    apply py_in_iff in Hin as (a & b & ->).
    apply py_in_iff in Hl as (c & d & Hl). apply py_in_iff.
    exists (c ++ py_lower a), (py_lower b ++ d). rewrite Hl.
    unfold py_lower. rewrite !fmap_app. by rewrite <- !app_assoc.
  - unfold filter_list. by rewrite py_lower_py_lower.
  - unfold filter_list. induction values as [|v values IH]; simpl; [done|].
    destruct (py_in _ _); by constructor.
Qed.


(** X20.  A stream that breaks loses what it had delivered.  When
    [top_k] compares with 0, so that the request is sent, and the
    body of a streamed answer is a run of data lines and then the
    connection fails, or a line cannot be decoded, [call_api_translate]
    returns the batch as it was given: the pieces received before the
    failure are not used for any line of the batch. *)
Theorem broken_stream_returns_batch (env : Outside) (n : nat)
    (batch : list str) (st : Settings) (content : option str)
    (events : list (str * str)) (bad : frame) (rest : list frame) :
  is_Some (py_gt_zero (top_k st)) ->
  stream st = true ->
  response env = HttpResponse 200 content (data_frames events ++ bad :: rest) ->
  Forall (fun e => is_data e.1) events ->
  (bad = FrameRaise \/ exists delta, bad = FrameLine None delta) ->
  (forall k, k <= S (length events) -> flag_at env (n + k) = false) ->
  exists n', run env n (call_api_translate batch st) = Some (batch, n').
Proof.
  intros [g Hg] Hstream Hresp Hdata Hbad Hflag.
  unfold call_api_translate. cbn [run].
  pose proof (Hflag 0 ltac:(lia)) as H0. rewrite Nat.add_0_r in H0.
  rewrite H0. cbn [run]. rewrite Hg.
  rewrite run_bind. unfold try_block. cbn [run]. rewrite Hresp.
  case_decide as Hsc; [done|]. rewrite Hstream. rewrite run_bind.
  rewrite (run_stream_data env events _ Hdata).
  - destruct Hbad as [->|[delta ->]]; cbn [stream_loop run].
    + simpl. eauto.
    + replace (S n + length events) with (n + S (length events)) by lia.
      rewrite Hflag by lia. simpl. eauto.
  - intros k Hk. replace (S n + k) with (n + S k) by lia. apply Hflag. lia.
Qed.

Lemma broken_stream_returns_batch_witness :
  exists n',
    run {| flag_at := fun _ => false;
           response :=
             HttpResponse 200 None
               (data_frames [(lit "data: {a}", lit "1:::Xin chao")]
                ++ FrameRaise :: []) |} 0
      (call_api_translate [lit "1:::Hello"] (sample_settings 1 50 true))
    = Some ([lit "1:::Hello"], n').
Proof.
  apply (broken_stream_returns_batch
           {| flag_at := fun _ => false;
              response :=
                HttpResponse 200 None
                  (data_frames [(lit "data: {a}", lit "1:::Xin chao")]
                   ++ FrameRaise :: []) |} 0
           [lit "1:::Hello"] (sample_settings 1 50 true) None
           [(lit "data: {a}", lit "1:::Xin chao")] FrameRaise []).
  - by eexists.
  - reflexivity.
  - reflexivity.
  - repeat constructor; try discriminate; reflexivity.
  - by left.
  - intros k _. reflexivity.
Defined.


(** ** After STOP *)

Lemma everywhere_here {A : Type} (Q : prog A -> Prop) (p : prog A) :
  everywhere Q p -> Q p.
Proof. destruct p; simpl; tauto. Qed.

Lemma everywhere_bind {A B : Type} (Q : prog B -> Prop) (p : prog A)
    (f : A -> prog B) :
  everywhere (fun p' => Q (bind p' f)) p ->
  (forall a, everywhere Q (f a)) ->
  everywhere Q (bind p f).
Proof.
  intros Hp Hf.
  induction p as [a| |k IH|d k IH|q k IH|idx v k IH|k IH|c t msg k IH];
    simpl in *.
  - apply Hf.
  - done.
  - destruct Hp as [Hq Hp]. split; [done|]. intros b. apply IH, Hp.
  - destruct Hp as [Hq Hp]. split; [done|]. apply IH, Hp.
  - destruct Hp as [Hq Hp]. split; [done|]. intros r. apply IH, Hp.
  - destruct Hp as [Hq Hp]. split; [done|]. apply IH, Hp.
  - destruct Hp as [Hq Hp]. split; [done|]. apply IH, Hp.
  - destruct Hp as [Hq Hp]. split; [done|]. apply IH, Hp.
Qed.

Lemma stop_bound_mono {A : Type} (p : prog A) :
  forall n m n' m', n <= n' -> m <= m' ->
                    stop_bound n m p -> stop_bound n' m' p.
Proof.
  induction p as [a| |k IH|d k IH|q k IH|idx v k IH|k IH|c t msg k IH];
    intros n m n' m' Hn Hm Hp; simpl in *; try done; eauto.
  - destruct n as [|n]; [done|]. destruct n' as [|n']; [lia|].
    intros r. apply (IH r n m); [lia|lia|done].
  - destruct m as [|m]; [done|]. destruct m' as [|m']; [lia|].
    apply (IH n m); [lia|lia|done].
Qed.

Lemma stop_bound_bind {A B : Type} (n m : nat) (p : prog A)
    (f : A -> prog B) :
  (forall a, stop_bound n m (f a)) ->
  forall n' m', stop_bound n' m' p ->
                stop_bound (n' + n) (m' + m) (bind p f).
Proof.
  intros Hf.
  induction p as [a| |k IH|d k IH|q k IH|idx v k IH|k IH|c t msg k IH];
    intros n' m' Hp; simpl in *; try done; auto.
  - apply (stop_bound_mono _ n m); [lia|lia|done].
  - destruct n' as [|n']; [done|]. simpl. auto.
  - destruct m' as [|m']; [done|]. simpl. auto.
Qed.

Lemma everywhere_mono {A : Type} (Q R : prog A -> Prop) (p : prog A) :
  (forall p', Q p' -> R p') -> everywhere Q p -> everywhere R p.
Proof.
  intros HQR.
  induction p as [a| |k IH|d k IH|q k IH|idx v k IH|k IH|c t msg k IH];
    simpl; intros [Hq Hp]; (split; [by apply HQR|]); auto.
Qed.

Lemma everywhere_stop_bound_bind {A B : Type} (n' m' n m : nat) (p : prog A)
    (f : A -> prog B) :
  everywhere (stop_bound n' m') p ->
  (forall a, stop_bound n m (f a)) ->
  (forall a, everywhere (stop_bound (n' + n) (m' + m)) (f a)) ->
  everywhere (stop_bound (n' + n) (m' + m)) (bind p f).
Proof.
  intros Hp Hf Hef. apply everywhere_bind; [|done].
  eapply everywhere_mono; [|exact Hp].
  intros p' Hp'. by apply stop_bound_bind.
Qed.

Lemma answers_stop_bound {A : Type} (Q : A -> Prop) (p : prog A) :
  forall n, answers Q p -> posts_at_most n p -> stop_bound n 0 p.
Proof.
  induction p as [a| |k IH|d k IH|q k IH|idx v k IH|k IH|c t msg k IH];
    intros n Ha Hp; simpl in *; try done; auto.
  destruct n as [|n]; [done|]. auto.
Qed.

Lemma answers_everywhere {A : Type} (Q : A -> Prop) (p : prog A) :
  forall n, answers Q p -> posts_at_most n p ->
            everywhere (stop_bound n 0) p.
Proof.
  induction p as [a| |k IH|d k IH|q k IH|idx v k IH|k IH|c t msg k IH];
    intros n Ha Hp; simpl in *; try done; auto.
  - split; [|by auto]. by eapply answers_stop_bound.
  - split; [|by auto]. by eapply answers_stop_bound.
  - destruct n as [|n]; [done|]. split.
    + intros r. by eapply answers_stop_bound.
    + intros r. apply (IH r (S n)); [done|].
      apply (posts_at_most_mono _ n); [lia|done].
Qed.

Lemma stop_bound_write_slots {A : Type} (n m : nat)
    (pairs : list (nat * str)) (k : prog A) :
  stop_bound n m k -> stop_bound n m (write_slots pairs k).
Proof. intros Hk. induction pairs as [|[i v] pairs IH]; simpl; done. Qed.

Lemma everywhere_write_slots {A : Type} (n m : nat)
    (pairs : list (nat * str)) (k : prog A) :
  everywhere (stop_bound n m) k ->
  everywhere (stop_bound n m) (write_slots pairs k).
Proof.
  intros Hk. induction pairs as [|[i v] pairs IH]; simpl; [done|].
  split; [|done]. by apply everywhere_here in IH.
Qed.

Lemma worker_loop_stop_bound (st : Settings) (lines : list str)
    (ixs : list nat) (k : prog unit) :
  everywhere (stop_bound 0 0) k ->
  forall (starts : list nat) (processed : nat),
    stop_bound 0 0 (worker_loop st lines ixs starts processed k)
    /\ everywhere (stop_bound 1 1)
         (worker_loop st lines ixs starts processed k).
Proof.
  intros Hk.
  assert (forall p : prog unit,
            everywhere (stop_bound 0 0) p -> everywhere (stop_bound 1 1) p)
    as Hup.
  { intros p. apply everywhere_mono. intros p'.
    apply stop_bound_mono; lia. }
  induction starts as [|i rest IH]; intros processed;
    cbn [worker_loop].
  { split; [by apply everywhere_here in Hk|by apply Hup]. }
  assert (stop_bound 0 0 k) as Hk0 by (by apply everywhere_here in Hk).
  split; [done|].
  cbn [everywhere stop_bound].
  split; [apply (stop_bound_mono _ 0 0); [lia|lia|done]|].
  intros [].
  { cbn [everywhere stop_bound]. split; [|by apply Hup].
    apply (stop_bound_mono _ 0 0); [lia|lia|done]. }
  apply (everywhere_stop_bound_bind 1 0 0 1).
  - eapply answers_everywhere; [apply call_api_translate_answers|].
    apply call_api_translate_requests.
  - intros tb. apply stop_bound_write_slots. cbn [stop_bound]. apply IH.
  - intros tb. apply everywhere_write_slots.
    destruct (IH (processed
                  + length (py_slice i (Z.to_nat (batch_size st)) lines)))
      as [H0 H1].
    cbn [everywhere stop_bound]. repeat split; try done.
    + revert H0. apply stop_bound_mono; lia.
    + revert H0. apply stop_bound_mono; lia.
Qed.

Lemma worker_process_stop_bound (chunk : list (str * nat)) (st : Settings) :
  everywhere (stop_bound 1 1) (worker_process chunk st).
Proof.
  unfold worker_process.
  assert (everywhere (stop_bound 1 1)
            match py_range0 (length chunk.*1) (batch_size st) with
            | Some starts =>
                worker_loop st chunk.*1 chunk.*2 starts 0
                  (Ui (length chunk.*1) (length chunk.*1) MsgFinished (Ret tt))
            | None => Raise
            end) as H.
  { destruct (py_range0 _ _) as [starts|]; [|done].
    apply worker_loop_stop_bound. simpl. done. }
  cbn [everywhere stop_bound]. split; [|done]. by apply everywhere_here in H.
Qed.

Lemma everywhere_step {Q : prog unit -> Prop} (e : Event) (j j' : Job) :
  Q Raise ->
  Forall (fun th => everywhere Q (todo th)) (pool j) ->
  step e j = Some j' ->
  Forall (fun th => everywhere Q (todo th)) (pool j').
Proof.
  intros HQ Hpool Hstep. destruct e as [|w input]; simpl in Hstep.
  { by injection Hstep as <-. }
  destruct (pool j !! w) as [th|] eqn:Hth; [|done]. simpl in Hstep.
  assert (everywhere Q (todo th)) as Hw.
  { rewrite Forall_forall in Hpool. apply Hpool.
    by eapply list_elem_of_lookup_2. }
  unfold thread_step in Hstep.
  destruct (todo th) as [a| |k|d k|q k|idx v k|k|c t msg k] eqn:Htodo;
    simpl in Hstep; try done; cbn [everywhere] in Hw; destruct Hw as [_ Hw].
  - injection Hstep as <-. simpl. apply Forall_insert; [done|simpl; auto].
  - injection Hstep as <-. simpl. apply Forall_insert; [done|simpl; auto].
  - injection Hstep as <-. simpl. apply Forall_insert; [done|simpl; auto].
  - case_decide; injection Hstep as <-; simpl;
      (apply Forall_insert; [done|simpl; auto]).
  - destruct (save_progress_file _ _) as [fs1|]; [|done].
    simpl in Hstep. injection Hstep as <-. simpl.
    apply Forall_insert; [done|simpl; auto].
  - injection Hstep as <-. simpl. apply Forall_insert; [done|simpl; auto].
Qed.

Lemma everywhere_exec {Q : prog unit -> Prop} (evs : list Event) :
  Q Raise ->
  forall j j',
    Forall (fun th => everywhere Q (todo th)) (pool j) ->
    exec evs j = Some j' ->
    Forall (fun th => everywhere Q (todo th)) (pool j').
Proof.
  intros HQ. induction evs as [|e evs IH]; intros j j' Hj Hex; simpl in Hex.
  - by injection Hex as <-.
  - destruct (step e j) as [j1|] eqn:Hs; [|done]. simpl in Hex.
    eapply IH; [|exact Hex]. by eapply everywhere_step.
Qed.

(** X21.  STOP is honoured within one request.  Wherever a worker of a
    job is when [stop_event] gets set, from then on it sends at most one
    more request and writes at most one more checkpoint before it ends:
    it finishes the batch it is in and starts no other. *)
Theorem stop_is_honoured (content : str) (st : Settings) (fs : Files)
    (j0 : Job) (evs : list Event) (j : Job) (w : nat) (th : Thread) :
  run_logic content st fs = Some j0 ->
  exec evs j0 = Some j ->
  pool j !! w = Some th ->
  stop_bound 1 1 (todo th).
Proof.
  intros Hrun Hex Hth.
  destruct (run_logic_start content st fs j0 Hrun)
    as (chunks & _ & _ & _ & _ & _ & _ & _ & _ & _ & _ & Hpool).
  assert (Forall (fun th => everywhere (stop_bound 1 1) (todo th)) (pool j0))
    as H0.
  { rewrite Hpool. apply Forall_fmap, Forall_forall. intros chunk _.
    simpl. apply worker_process_stop_bound. }
  pose proof (everywhere_exec (Q := stop_bound 1 1) evs I j0 j H0 Hex) as Hj.
  rewrite Forall_forall in Hj. apply everywhere_here. apply Hj.
  by eapply list_elem_of_lookup_2.
Qed.

Lemma stop_is_honoured_witness :
  stop_bound 1 1
    (todo (default {| todo := Raise; widget := [] |}
             (pool (default no_job
                      (exec (replicate 4 (EvRun 0 PostRaises)) two_lines_job))
                !! 0))).
Proof.
  apply (stop_is_honoured two_lines (sample_settings 1 1 false) sample_files
           two_lines_job (replicate 4 (EvRun 0 PostRaises))
           (default no_job
              (exec (replicate 4 (EvRun 0 PostRaises)) two_lines_job)) 0).
  - reflexivity.
  - reflexivity.
  - reflexivity.
Defined.


(** ** More on streams, chunks and slots *)

(** X22.  STOP in the middle of a stream keeps what has arrived.  When
    [top_k] compares with 0, so that the request is sent,
    the first polls find [stop_event] clear, the body starts with a run of
    data lines, and the poll before the next line finds the flag set, the
    loop is left and the pieces received so far are parsed and reconciled
    like a whole answer: [call_api_translate] does not return the batch
    unchanged but the lines the partial text yields. *)
Theorem stopped_stream_keeps_partial (env : Outside) (n : nat)
    (batch : list str) (st : Settings) (content : option str)
    (events : list (str * str)) (text delta : option str)
    (rest : list frame) :
  is_Some (py_gt_zero (top_k st)) ->
  stream st = true ->
  response env
  = HttpResponse 200 content
      (data_frames events ++ FrameLine text delta :: rest) ->
  Forall (fun e => is_data e.1) events ->
  (forall k, k <= length events -> flag_at env (n + k) = false) ->
  flag_at env (n + S (length events)) = true ->
  exists (translated_map : gmap str str) (results : list str),
    parse_response (concat events.*2) = Some translated_map
    /\ reconcile translated_map batch = Some results
    /\ run env n (call_api_translate batch st)
       = Some (results, n + length events + 2).
Proof.
  intros [g Hg] Hstream Hresp Hdata Hflag Hstop.
  destruct (parse_response_total (concat events.*2)) as [m Hm].
  destruct (reconcile_total m batch) as [results Hres].
  exists m, results. split; [done|]. split; [done|].
  unfold call_api_translate. cbn [run].
  pose proof (Hflag 0 ltac:(lia)) as H0. rewrite Nat.add_0_r in H0.
  rewrite H0. cbn [run]. rewrite Hg.
  rewrite run_bind. unfold try_block. cbn [run]. rewrite Hresp.
  case_decide as Hsc; [done|]. rewrite Hstream. rewrite run_bind.
  rewrite (run_stream_data env events _ Hdata).
  - cbn [stream_loop run].
    replace (S n + length events) with (n + S (length events)) by lia.
    rewrite Hstop. simpl. rewrite Hm. simpl. rewrite Hres. simpl.
    do 2 f_equal. lia.
  - intros k Hk. replace (S n + k) with (n + S k) by lia. apply Hflag. lia.
Qed.

Lemma stopped_stream_keeps_partial_witness :
  exists (translated_map : gmap str str) (results : list str),
    parse_response (concat [(lit "data: {a}", lit "1:::Xin chao")].*2)
    = Some translated_map
    /\ reconcile translated_map [lit "1:::Hello"; lit "2:::World"]
       = Some results
    /\ run {| flag_at := fun k => bool_decide (2 <= k);
              response :=
                HttpResponse 200 None
                  (data_frames [(lit "data: {a}", lit "1:::Xin chao")]
                   ++ FrameLine (Some (lit "data: {b}")) (Some (lit "2:::x"))
                        :: []) |} 0
         (call_api_translate [lit "1:::Hello"; lit "2:::World"]
            (sample_settings 1 50 true))
       = Some (results, 0 + length [(lit "data: {a}", lit "1:::Xin chao")] + 2).
Proof.
  apply (stopped_stream_keeps_partial
           {| flag_at := fun k => bool_decide (2 <= k);
              response :=
                HttpResponse 200 None
                  (data_frames [(lit "data: {a}", lit "1:::Xin chao")]
                   ++ FrameLine (Some (lit "data: {b}")) (Some (lit "2:::x"))
                        :: []) |} 0
           [lit "1:::Hello"; lit "2:::World"] (sample_settings 1 50 true) None
           [(lit "data: {a}", lit "1:::Xin chao")]
           (Some (lit "data: {b}")) (Some (lit "2:::x")) []).
  - by eexists.
  - reflexivity.
  - reflexivity.
  - repeat constructor; try discriminate; reflexivity.
  - intros k Hk. simpl in *. apply bool_decide_eq_false. lia.
  - reflexivity.
Defined.

Lemma last_seq (a n : nat) : List.last (seq a (S n)) 0 = a + n.
Proof. rewrite seq_S. apply last_last. Qed.

(** X23.  Every worker gets one block of consecutive lines, in the order
    of the file.  Worker [w] (counted from 0) owns exactly the indices
    from [start_off + w * chunk_size] on, as many as its chunk is long, so
    the range its progress widget shows, from the first index of the chunk
    to the last one, is the set of lines it works on. *)
Theorem chunks_are_blocks (n : Z) (raw : list str)
    (chunks : list (list (str * nat))) (w : nat) (chunk : list (str * nat)) :
  make_chunks n (data_points raw) = Some chunks ->
  chunks !! w = Some chunk ->
  chunk.*2
  = seq (start_off raw
         + w * ceil_div (length (data_points raw)) (Z.to_nat (Z.max 1 n)))
      (length chunk)
  /\ chunk <> []
  /\ hd 0 chunk.*2
     = start_off raw
       + w * ceil_div (length (data_points raw)) (Z.to_nat (Z.max 1 n))
  /\ List.last chunk.*2 0 = hd 0 chunk.*2 + length chunk - 1.
Proof.
  intros Hch Hw.
  set (cs := ceil_div (length (data_points raw)) (Z.to_nat (Z.max 1 n))).
  pose proof (make_chunks_bound _ _ _ Hch) as Hb.
  pose proof (make_chunks_nonempty n _ Hb) as E. simpl in E. fold cs in E.
  rewrite E in Hch. injection Hch as <-.
  rewrite list_lookup_fmap in Hw.
  destruct (seq 0 (ceil_div (length (data_points raw)) cs) !! w) as [k|] eqn:Hk;
    [|done].
  apply lookup_seq in Hk as [Hk Hlt]. simpl in Hk, Hlt. subst k.
  simpl in Hw. injection Hw as <-.
  pose proof (bound_nonempty n _ Hb) as Hlen.
  assert (0 < cs) as Hcs by (apply ceil_div_pos; lia).
  apply ceil_div_lt in Hlt; [|done].
  assert ((py_slice (w * cs) cs (data_points raw)).*2
          = seq (start_off raw + w * cs)
              (length (py_slice (w * cs) cs (data_points raw)))) as Hseq.
  { unfold py_slice. rewrite fmap_take, fmap_drop, data_points_snd.
    rewrite drop_seq, take_seq. f_equal.
    rewrite length_take, length_drop, data_points_length. done. }
  assert (0 < length (py_slice (w * cs) cs (data_points raw))) as Hpos.
  { unfold py_slice. rewrite length_take, length_drop. lia. }
  split; [done|]. split; [|split].
  - intros E0. rewrite E0 in Hpos. simpl in Hpos. lia.
  - rewrite Hseq.
    destruct (length (py_slice (w * cs) cs (data_points raw))); [lia|done].
  - rewrite Hseq.
    destruct (length (py_slice (w * cs) cs (data_points raw))) as [|len];
      [lia|].
    rewrite last_seq. simpl. lia.
Qed.

Lemma chunks_are_blocks_witness :
  [(lit "c", 3)].*2
  = seq (start_off [lit "0:::h"; lit "a"; lit "b"; lit "c"]
         + 1 * ceil_div
                 (length (data_points [lit "0:::h"; lit "a"; lit "b"; lit "c"]))
                 (Z.to_nat (Z.max 1 2)))
      (length [(lit "c", 3)])
  /\ [(lit "c", 3)] <> []
  /\ hd 0 [(lit "c", 3)].*2
     = start_off [lit "0:::h"; lit "a"; lit "b"; lit "c"]
       + 1 * ceil_div
               (length (data_points [lit "0:::h"; lit "a"; lit "b"; lit "c"]))
               (Z.to_nat (Z.max 1 2))
  /\ List.last [(lit "c", 3)].*2 0
     = hd 0 [(lit "c", 3)].*2 + length [(lit "c", 3)] - 1.
Proof.
  apply (chunks_are_blocks 2 [lit "0:::h"; lit "a"; lit "b"; lit "c"]
           [[(lit "a", 1); (lit "b", 2)]; [(lit "c", 3)]] 1 [(lit "c", 3)]).
  - vm_compute. reflexivity.
  - reflexivity.
Defined.

(** X24.  No two workers ever write the same slot.  At every moment of a
    job, every write a worker can still make goes to an index of its own
    chunk, and that index is in the chunk of no other worker: the writes
    to [shared_output_lines], which are made without a lock, never meet. *)
Theorem workers_write_own_slots (content : str) (st : Settings) (fs : Files)
    (j0 : Job) (evs : list Event) (j : Job)
    (chunks : list (list (str * nat))) (w : nat) (chunk : list (str * nat))
    (th : Thread) :
  file_write_lock fs = false ->
  run_logic content st fs = Some j0 ->
  make_chunks (threads st) (data_points (read_raw content)) = Some chunks ->
  exec evs j0 = Some j ->
  chunks !! w = Some chunk ->
  pool j !! w = Some th ->
  writes_in
    (fun i _ =>
       i ∈ chunk.*2
       /\ i < length (shared_output_lines (shared j))
       /\ forall w' chunk', chunks !! w' = Some chunk' -> i ∈ chunk'.*2 ->
                            w' = w)
    (todo th).
Proof.
  intros Hlock Hrun Hch Hex Hw Hth.
  pose proof (make_chunks_concat _ _ _ Hch) as Hcat.
  destruct (run_logic_owned content st chunks Hcat) as [Hnd Hrange].
  pose proof (run_logic_inv content st fs j0 chunks Hlock Hrun Hch) as Hinv0.
  pose proof (job_inv_exec _ _ _ Hnd evs j0 j Hinv0 Hex) as Hinv.
  destruct (run_logic_start content st fs j0 Hrun)
    as (_ & _ & _ & _ & _ & _ & Hlen & _).
  assert (((fun c : list (str * nat) => c.*2) <$> chunks) !! w
          = Some chunk.*2) as Hix.
  { by rewrite list_lookup_fmap, Hw. }
  destruct (inv_threads _ _ _ _ Hinv w chunk.*2 th Hix Hth) as [Hwr _].
  eapply writes_in_mono; [exact Hwr|].
  intros i v [Hi _]. split; [done|]. split.
  - rewrite (inv_length _ _ _ _ Hinv), Hlen.
    rewrite Forall_forall in Hrange. apply Hrange.
    by eapply concat_lookup_elem.
  - intros w' chunk' Hw' Hi'.
    destruct (decide (w' = w)) as [|Hne]; [done|]. exfalso.
    apply (owned_disjoint _ w' w chunk'.*2 chunk.*2 i Hnd); try done.
    by rewrite list_lookup_fmap, Hw'.
Qed.

Lemma workers_write_own_slots_witness :
  writes_in
    (fun i _ =>
       i ∈ [(lit "1:::Hello", 0); (lit "2:::World", 1)].*2
       /\ i < length (shared_output_lines (shared two_lines_stopped))
       /\ forall w' chunk',
            [[(lit "1:::Hello", 0); (lit "2:::World", 1)]] !! w' = Some chunk' ->
            i ∈ chunk'.*2 -> w' = 0)
    (todo (default {| todo := Raise; widget := [] |}
             (pool two_lines_stopped !! 0))).
Proof.
  apply (workers_write_own_slots two_lines (sample_settings 1 1 false)
           sample_files two_lines_job stop_after_first_batch two_lines_stopped
           [[(lit "1:::Hello", 0); (lit "2:::World", 1)]] 0
           [(lit "1:::Hello", 0); (lit "2:::World", 1)]).
  - reflexivity.
  - reflexivity.
  - vm_compute. reflexivity.
  - reflexivity.
  - reflexivity.
  - reflexivity.
Defined.


(** ** The contract of the translation client *)



(** ** A [top_k] that is not a number *)







(** ** Line ends of the input file *)

Lemma universal_from_app (line rest : str) :
  clean line -> carriage_return ∉ line ->
  forall b,
    universal_from b (line ++ rest)
    = line ++ universal_from (match line with [] => b | _ => false end) rest.
Proof.
  induction line as [|c line IH]; intros Hnl Hcr b; [done|].
  apply Forall_cons in Hnl as [Hc Hnl].
  change ((c :: line) ++ rest) with (c :: (line ++ rest)).
  cbn [universal_from].
  destruct (decide (c = carriage_return)) as [->|_]; [destruct Hcr; left|].
  destruct (decide (c = newline)) as [->|_]; [done|].
  rewrite IH; [|done|intros ?; apply Hcr; by right].
  by destruct line.
Qed.

Lemma universal_text_with (ending : str) (lines : list str) :
  Forall clean lines ->
  Forall (fun line => carriage_return ∉ line) lines ->
  (ending = [carriage_return; newline] \/ ending = [carriage_return] ->
   forall b, universal_from b (text_with ending lines) = text_with nl lines)
  /\ universal_from false (text_with nl lines) = text_with nl lines.
Proof.
  unfold text_with, nl. intros Hnls Hcrs. revert Hcrs.
  induction Hnls as [|line lines Hnl _ IH]; intros Hcrs; [done|].
  apply Forall_cons in Hcrs as [Hcr Hcrs]. destruct (IH Hcrs) as [IH1 IH2].
  rewrite !fmap_cons. cbn [concat]. split.
  - intros Hend b. rewrite <- !app_assoc.
    rewrite (universal_from_app _ _ Hnl Hcr). f_equal.
    destruct Hend as [-> | ->]; cbn [app universal_from];
      repeat (rewrite decide_True by done || rewrite decide_False by done);
      f_equal; apply IH1; auto.
  - rewrite <- !app_assoc. rewrite (universal_from_app _ _ Hnl Hcr). f_equal.
    assert ((match line with [] => false | _ => false end) = false) as ->
      by (by destruct line).
    cbn [app universal_from].
    rewrite decide_False by done. rewrite decide_True by done.
    f_equal. exact IH2.
Qed.

(** X27.  The line ends of the input file do not matter.  For lines that
    hold neither line feed nor carriage return, [run_logic] reads the same
    lines, trimmed, whether every line of the file ends with a carriage
    return and a line feed, with a carriage return alone or with a line
    feed; it then sets up the same job. *)
Theorem line_ends_do_not_matter (lines : list str) :
  Forall clean lines ->
  Forall (fun line => carriage_return ∉ line) lines ->
  read_raw (text_with nl lines) = py_strip <$> lines
  /\ read_raw (text_with [carriage_return; newline] lines) = py_strip <$> lines
  /\ read_raw (text_with [carriage_return] lines) = py_strip <$> lines
  /\ forall (st : Settings) (fs : Files),
       run_logic (text_with [carriage_return; newline] lines) st fs
       = run_logic (text_with nl lines) st fs
       /\ run_logic (text_with [carriage_return] lines) st fs
          = run_logic (text_with nl lines) st fs.
Proof.
  intros Hnls Hcrs.
  destruct (universal_text_with [carriage_return; newline] lines Hnls Hcrs)
    as [Hcrlf Hlf].
  destruct (universal_text_with [carriage_return] lines Hnls Hcrs) as [Hcr _].
  assert (read_raw (text_with nl lines) = py_strip <$> lines) as Rlf.
  { unfold read_raw.
    change (text_with nl lines) with (checkpoint_text lines).
    rewrite (readlines_checkpoint lines Hnls Hcrs), <- list_fmap_compose.
    apply list_fmap_ext. intros i s _. simpl. apply py_strip_line. }
  assert (read_raw (text_with [carriage_return; newline] lines)
          = read_raw (text_with nl lines)) as Rcrlf.
  { unfold read_raw, readlines, universal_newlines.
    rewrite Hcrlf by auto. by rewrite Hlf. }
  assert (read_raw (text_with [carriage_return] lines)
          = read_raw (text_with nl lines)) as Rcr.
  { unfold read_raw, readlines, universal_newlines.
    rewrite Hcr by auto. by rewrite Hlf. }
  split; [done|]. split; [by rewrite Rcrlf|]. split; [by rewrite Rcr|].
  intros st fs. unfold run_logic. by rewrite Rcrlf, Rcr.
Qed.

Lemma line_ends_do_not_matter_witness :
  read_raw (text_with nl [lit "0:::h"; lit " 1:::Hello"; []])
  = py_strip <$> [lit "0:::h"; lit " 1:::Hello"; []]
  /\ read_raw (text_with [carriage_return; newline]
                 [lit "0:::h"; lit " 1:::Hello"; []])
     = py_strip <$> [lit "0:::h"; lit " 1:::Hello"; []]
  /\ read_raw (text_with [carriage_return] [lit "0:::h"; lit " 1:::Hello"; []])
     = py_strip <$> [lit "0:::h"; lit " 1:::Hello"; []]
  /\ forall (st : Settings) (fs : Files),
       run_logic (text_with [carriage_return; newline]
                    [lit "0:::h"; lit " 1:::Hello"; []]) st fs
       = run_logic (text_with nl [lit "0:::h"; lit " 1:::Hello"; []]) st fs
       /\ run_logic (text_with [carriage_return]
                       [lit "0:::h"; lit " 1:::Hello"; []]) st fs
          = run_logic (text_with nl [lit "0:::h"; lit " 1:::Hello"; []]) st fs.
Proof.
  apply (line_ends_do_not_matter [lit "0:::h"; lit " 1:::Hello"; []]).
  - repeat constructor; discriminate.
  - repeat constructor; intros H;
      repeat (apply elem_of_cons in H as [H|H]; [discriminate H|]);
      by apply elem_of_nil in H.
Defined.
